(** * NanoBoyAdvance: the event scheduler and the PPU memory accessors

    A shallow embedding of [src/nba/src/scheduler.hpp] (the fixed-capacity
    binary min-heap of timestamped events) and of the palette / video /
    object-attribute memory accessors of [src/nba/src/hw/ppu/ppu.hpp],
    followed by the properties of the specification that concern them. *)

From stdpp Require Import base list.
From Equations Require Import Equations.
From Equations.Prop Require Import Logic.
From Stdlib Require Import ZArith Lia ZifyNat Sorted.

(** ** Abnormal termination *)

(** The two fatal assertions of the scheduler, named after their messages,
    and the one way the scheduler can leave its array ([heap[-1]], when
    [Remove] runs on an empty heap). *)
Inductive Abort : Type :=
| MaxEvents      (* "Scheduler: reached maximum number of events." *)
| EndOfQueue     (* "Scheduler: reached end of the event queue." *)
| ArrayBounds    (* an index outside [heap[0 .. kMaxEvents-1]] *)
| BadFunctionCall. (* an empty [std::function] was called *)

Inductive Result (A : Type) : Type :=
| Ok (a : A)
| Fatal (f : Abort).
Arguments Ok {A} a.
Arguments Fatal {A} f.

#[global] Instance Result_ret : MRet Result := fun A a => Ok a.
#[global] Instance Result_bind : MBind Result := fun A B k r =>
  match r with
  | Ok a => k a
  | Fatal f => Fatal f
  end.

(** Modelled from the spec: [Assert] of [nba/log.hpp], which is not part of
    the sources at hand.  The spec calls a failed assertion fatal and
    non-recoverable ("the correct response is to abort the simulation"):
    the computation stops with the assertion's message. *)
Definition Assert (condition : bool) (message : Abort) : Result unit :=
  if condition then Ok tt else Fatal message.

Module Sched.

#[local] Ltac Zify.zify_post_hook ::= Z.to_euclidean_division_equations.

(** ** Data model *)

(** The [int] values of the scheduler (indices into [heap], [heap_size],
    [handle]) stay between 0 and 64 and are natural numbers here; the one
    decrement that could leave that range, [--heap_size] at zero, is
    caught in [Remove]. *)
Definition kMaxEvents : nat := 64.

(** [u64] arithmetic wraps around. *)
Definition u64_modulus : Z := 2 ^ 64.
Definition u64_max : Z := u64_modulus - 1.
Definition wrap64 (x : Z) : Z := x mod u64_modulus.

(** A callback is code of the caller; the scheduler only stores and invokes
    it.  The one callback the scheduler itself creates is the lambda of
    [Reset], whose body is [Assert(false, ...)].  A callback of a client is
    identified by a number; [Empty] is the default-constructed
    [std::function] of a fresh event.  [Add(delay, object, method)] wraps
    the method in a lambda and is an [Add] of a client callback. *)
Inductive Callback : Type :=
| Empty
| QueueEnd
| Client (id : nat).

Record Event : Type := mkEvent {
  callback : Callback;
  handle : nat;
  timestamp : Z
}.

(** [Event*] is the number of the allocation made by the constructor: the
    [i]-th [new Event()].  [events] is the free store holding the 64 event
    objects, [heap] the member array of pointers into it. *)
Record Scheduler : Type := mkScheduler {
  events : list Event;
  heap : list nat;
  heap_size : nat;
  timestamp_now : Z
}.

#[global] Instance Event_inhabited : Inhabited Event :=
  populate (mkEvent Empty 0 0).

(** What a client callback does is not the scheduler's business; its
    invocation is recorded: which callback ran, the value of
    [GetTimestampNow()] at that moment, and the [cycles_late] argument.
    The callbacks covered are those that leave the scheduler alone while
    they run. *)
Record Invocation : Type := mkInvocation {
  inv_callback : nat;
  inv_now : Z;
  inv_cycles_late : Z
}.

Definition Machine : Type := Scheduler * list Invocation.

(** ** Private helpers *)

(** [heap[i]->...] *)
Definition deref (s : Scheduler) (i : nat) : Event :=
  events s !!! (heap s !!! i).

Definition key (s : Scheduler) (i : nat) : Z := timestamp (deref s i).

(** C++ integer division truncates towards zero, so [Parent(0)] is
    [(-1) / 2 = 0]; on [nat] the subtraction stops at zero and gives the
    same value. *)
Definition Parent (n : nat) : nat := (n - 1) / 2.
Definition LeftChild (n : nat) : nat := n * 2 + 1.
Definition RightChild (n : nat) : nat := n * 2 + 2.

Definition set_handle (ev : list Event) (p : nat) (h : nat) : list Event :=
  <[p := mkEvent (callback (ev !!! p)) h (timestamp (ev !!! p))]> ev.

Definition Swap (s : Scheduler) (i j : nat) : Scheduler :=
  let tmp := heap s !!! i in
  let heap1 := <[i := heap s !!! j]> (heap s) in
  let heap2 := <[j := tmp]> heap1 in
  let ev1 := set_handle (events s) (heap2 !!! i) i in
  let ev2 := set_handle ev1 (heap2 !!! j) j in
  mkScheduler ev2 heap2 (heap_size s) (timestamp_now s).

(** The loop [while (n != 0 && heap[p]->timestamp > heap[n]->timestamp)]
    shared by [Add] and (as a do-while entered when the condition holds)
    by [Remove]. *)
Definition above (s : Scheduler) (n : nat) : bool :=
  negb (n =? 0) && (key s n <? key s (Parent n))%Z.

Equations? sift_up (s : Scheduler) (n : nat) : Scheduler by wf n lt :=
  sift_up s n with inspect (above s n) := {
    | exist _ true Hc => sift_up (Swap s n (Parent n)) (Parent n)
    | exist _ false _ => s }.
Proof.
  unfold above in Hc. apply andb_prop in Hc as [Hn _].
  apply negb_true_iff, Nat.eqb_neq in Hn. unfold Parent.
  apply Nat.Div0.div_lt_upper_bound. lia.
Qed.

Lemma sift_up_eq s n :
  sift_up s n =
  if above s n then sift_up (Swap s n (Parent n)) (Parent n) else s.
Proof.
  rewrite sift_up_equation_1.
  change (above s n) with (proj1_sig (inspect (above s n))) at 2.
  destruct (inspect (above s n)) as [[] E]; reflexivity.
Qed.

(** [Heapify] calls itself on a child index below [heap_size]; the
    recursion is on a counter that starts at [heap_size - n], the length of
    the longest chain of such calls.  [Heapify_eq] below shows that the
    function obeys the equation of the source, whatever the state. *)
Definition below (s : Scheduler) (c n : nat) : bool :=
  (c <? heap_size s) && (key s c <? key s n)%Z.

Fixpoint Heapify_rec (depth : nat) (s : Scheduler) (n : nat) : Scheduler :=
  match depth with
  | 0 => s
  | S depth' =>
      let l := LeftChild n in
      let r := RightChild n in
      let s1 := if below s l n
                then Heapify_rec depth' (Swap s l n) l else s in
      if below s1 r n
      then Heapify_rec depth' (Swap s1 r n) r else s1
  end.

Definition Heapify (s : Scheduler) (n : nat) : Scheduler :=
  Heapify_rec (heap_size s - n) s n.

Definition set_heap_size (s : Scheduler) (k : nat) : Scheduler :=
  mkScheduler (events s) (heap s) k (timestamp_now s).

Definition set_timestamp_now (s : Scheduler) (t : Z) : Scheduler :=
  mkScheduler (events s) (heap s) (heap_size s) t.

(** [event->timestamp = ...; event->callback = ...] through the pointer. *)
Definition arm (s : Scheduler) (event : nat) (t : Z) (cb : Callback) : Scheduler :=
  mkScheduler
    (<[event := mkEvent cb (handle (events s !!! event)) t]> (events s))
    (heap s) (heap_size s) (timestamp_now s).

(** [Swap(n, --heap_size)] on an empty heap reads [heap[-1]], and an index
    from 64 on is outside the array as well: undefined behaviour in the
    source, an [ArrayBounds] abort here. *)
Definition Remove (s : Scheduler) (n : nat) : Result Scheduler :=
  if (heap_size s =? 0) || (kMaxEvents <=? n) then Fatal ArrayBounds else
  let s1 := set_heap_size s (heap_size s - 1) in
  let s2 := Swap s1 n (heap_size s1) in
  let p := Parent n in
  if above s2 n
  then Ok (sift_up (Swap s2 n p) p)
  else Ok (Heapify s2 n).

(** ** Public interface *)

Definition GetTimestampNow (s : Scheduler) : Z := timestamp_now s.
Definition GetTimestampTarget (s : Scheduler) : Z := key s 0.

(** The conversion of a [u64] to [int] keeps the low 32 bits, read as a
    signed number. *)
Definition to_int (x : Z) : Z :=
  let low := (x mod 2 ^ 32)%Z in
  if (low <? 2 ^ 31)%Z then low else (low - 2 ^ 32)%Z.

Definition GetRemainingCycleCount (s : Scheduler) : Z :=
  to_int (wrap64 (GetTimestampTarget s - GetTimestampNow s)).

Definition Add (s : Scheduler) (delay : Z) (cb : Callback)
  : Result (Scheduler * nat) :=
  let n := heap_size s in
  let s := set_heap_size s (heap_size s + 1) in
  _ ← Assert (heap_size s <=? kMaxEvents) MaxEvents;
  let event := heap s !!! n in
  let s := arm s event (wrap64 (GetTimestampNow s + delay)) cb in
  Ok (sift_up s n, event).

Definition Reset (s : Scheduler) : Result Scheduler :=
  let s := set_heap_size s 0 in
  let s := set_timestamp_now s 0 in
  '(s, _) ← Add s u64_max QueueEnd;
  Ok s.

(** The constructor: 64 value-initialised events, [heap[i]->handle = i],
    then [Reset].  [heap_size] and [timestamp_now] are not initialised
    before [Reset] writes them; any value will do. *)
Definition fresh_store : list Event :=
  map (fun i => mkEvent Empty i 0) (seq 0 kMaxEvents).

Definition construct : Result Scheduler :=
  Reset (mkScheduler fresh_store (seq 0 kMaxEvents) 0 0).

Definition Cancel (s : Scheduler) (event : nat) : Result Scheduler :=
  Remove s (handle (events s !!! event)).

(** [event->callback(0)] *)
Definition invoke (cb : Callback) (now cycles_late : Z)
    (tr : list Invocation) : Result (list Invocation) :=
  match cb with
  | Empty => Fatal BadFunctionCall
  | QueueEnd => _ ← Assert false EndOfQueue; Ok tr
  | Client id => Ok (tr ++ [mkInvocation id now cycles_late])
  end.

(** The body of the loop of [Step], with callbacks that make no call to
    the scheduler: the invocation is recorded and the state is as before
    when [Remove] runs.  [Callbacks.Step_body], further down, is the body
    with callbacks that call [Add] and [Cancel]; the two agree on callbacks
    without calls ([Callbacks.Step_body_agrees]). *)
Definition Step_body (m : Machine) : Result Machine :=
  let '(s, tr) := m in
  let event := heap s !!! 0 in
  let s := set_timestamp_now s (timestamp (events s !!! event)) in
  tr ← invoke (callback (events s !!! event)) (GetTimestampNow s) 0 tr;
  s ← Remove s (handle (events s !!! event));
  Ok (s, tr).

Definition due (s : Scheduler) (timestamp_next : Z) : bool :=
  (key s 0 <=? timestamp_next)%Z && (0 <? heap_size s).

(** The loop of [Step] ends because every turn takes one event off the
    heap: [Remove] leaves [heap_size] one lower, and the loops inside it
    leave it alone. *)
Lemma above_Parent_lt s n : above s n = true -> Parent n < n.
Proof.
  unfold above. intros [Hn _]%andb_prop.
  apply negb_true_iff, Nat.eqb_neq in Hn. unfold Parent.
  apply Nat.Div0.div_lt_upper_bound. lia.
Qed.

Lemma sift_up_heap_size s n : heap_size (sift_up s n) = heap_size s.
Proof.
  revert s. induction n as [n IH] using lt_wf_ind. intros s.
  rewrite sift_up_eq. destruct (above s n) eqn:E; [|reflexivity].
  rewrite IH by (eapply above_Parent_lt; eassumption). reflexivity.
Qed.

Lemma Heapify_rec_heap_size d s n : heap_size (Heapify_rec d s n) = heap_size s.
Proof.
  revert s n. induction d as [|d IH]; intros s n; [reflexivity|].
  cbn [Heapify_rec].
  assert (E1 : heap_size (if below s (LeftChild n) n
                          then Heapify_rec d (Swap s (LeftChild n) n) (LeftChild n)
                          else s) = heap_size s).
  { destruct (below s (LeftChild n) n); [rewrite IH|]; reflexivity. }
  destruct (below _ (RightChild n) n); [rewrite IH; cbn|]; exact E1.
Qed.

Lemma Heapify_heap_size s n : heap_size (Heapify s n) = heap_size s.
Proof. apply Heapify_rec_heap_size. Qed.

Lemma Remove_heap_size s n s' :
  Remove s n = Ok s' -> 0 < heap_size s /\ heap_size s' = heap_size s - 1.
Proof.
  unfold Remove. destruct (heap_size s =? 0) eqn:E0; [discriminate|].
  apply Nat.eqb_neq in E0. destruct (kMaxEvents <=? n); [discriminate|].
  cbn [orb]. destruct (above _ n); intros [= <-].
  - rewrite sift_up_heap_size. cbn. lia.
  - rewrite Heapify_heap_size. cbn. lia.
Qed.

Lemma Step_body_heap_size m m' :
  Step_body m = Ok m' -> heap_size m'.1 < heap_size m.1.
Proof.
  destruct m as [s tr]. unfold Step_body.
  destruct (invoke _ _ _ _) as [tr'|]; [|discriminate]. cbn.
  destruct (Remove _ _) as [s'|] eqn:ER; [|discriminate]. cbn.
  intros [= <-]. apply Remove_heap_size in ER. cbn in *. lia.
Qed.

Equations? Step (m : Machine) (timestamp_next : Z) : Result Machine
  by wf (heap_size m.1) lt :=
  Step m timestamp_next with inspect (due m.1 timestamp_next) := {
    | exist _ false _ => Ok m
    | exist _ true _ with inspect (Step_body m) := {
        | exist _ (Ok m') Hb => Step m' timestamp_next
        | exist _ (Fatal f) _ => Fatal f } }.
Proof. eapply Step_body_heap_size; eassumption. Qed.

Lemma Step_eq m timestamp_next :
  Step m timestamp_next =
  if due m.1 timestamp_next
  then m' ← Step_body m; Step m' timestamp_next
  else Ok m.
Proof.
  rewrite Step_equation_1.
  change (due m.1 timestamp_next)
    with (proj1_sig (inspect (due m.1 timestamp_next))) at 2.
  destruct (inspect (due m.1 timestamp_next)) as [[] E]; [|reflexivity].
  cbn [proj1_sig Step_unfold_clause_1].
  change (Step_body m) with (proj1_sig (inspect (Step_body m))) at 2.
  destruct (inspect (Step_body m)) as [[m'|f] E']; reflexivity.
Qed.

Definition AddCycles (m : Machine) (cycles : Z) : Result Machine :=
  let timestamp_next := wrap64 (timestamp_now m.1 + cycles) in
  '(s, tr) ← Step m timestamp_next;
  Ok (set_timestamp_now s timestamp_next, tr).

(** ** The calls of a client *)

Inductive Op : Type :=
| OpReset
| OpAdd (delay : Z) (id : nat)
| OpCancel (event : nat)
| OpAddCycles (cycles : Z).

Definition exec (op : Op) (m : Machine) : Result Machine :=
  match op with
  | OpReset => s ← Reset m.1; Ok (s, m.2)
  | OpAdd delay id => '(s, _) ← Add m.1 delay (Client id); Ok (s, m.2)
  | OpCancel event => s ← Cancel m.1 event; Ok (s, m.2)
  | OpAddCycles cycles => AddCycles m cycles
  end.

(** What the types and the data model ask of a caller: a [u64] delay, an
    [int] cycle count, and for [Cancel] an event that has neither fired nor
    been cancelled ("callers must not dereference an Event after it has
    fired or been cancelled"), that is, one whose handle is below
    [heap_size]. *)
Definition is_pending (s : Scheduler) (event : nat) : bool :=
  (event <? kMaxEvents) && (handle (events s !!! event) <? heap_size s).

Definition allowed (s : Scheduler) (op : Op) : bool :=
  match op with
  | OpReset => true
  | OpAdd delay _ => (0 <=? delay)%Z && (delay <? u64_modulus)%Z
  | OpCancel event => is_pending s event
  | OpAddCycles cycles => (- 2 ^ 31 <=? cycles)%Z && (cycles <? 2 ^ 31)%Z
  end.

(** The states a client can bring the scheduler to. *)
Inductive reachable : Machine -> Prop :=
| reach_new s :
    construct = Ok s -> reachable (s, [])
| reach_call m op m' :
    reachable m -> allowed m.1 op = true -> exec op m = Ok m' -> reachable m'.

(** What the types alone ask: [Cancel] may be given a pointer to any of the
    64 event objects, pending or not. *)
Definition typed (op : Op) : bool :=
  match op with
  | OpReset => true
  | OpAdd delay _ => (0 <=? delay)%Z && (delay <? u64_modulus)%Z
  | OpCancel event => event <? kMaxEvents
  | OpAddCycles cycles => (- 2 ^ 31 <=? cycles)%Z && (cycles <? 2 ^ 31)%Z
  end.

(** The states any sequence of calls that return can bring the scheduler
    to. *)
Inductive attainable : Machine -> Prop :=
| attain_new s :
    construct = Ok s -> attainable (s, [])
| attain_call m op m' :
    attainable m -> typed op = true -> exec op m = Ok m' -> attainable m'.

(** A sequence of calls, each allowed and none aborting. *)
Fixpoint run (ops : list Op) (m : Machine) : option Machine :=
  match ops with
  | [] => Some m
  | op :: ops' =>
      if allowed m.1 op
      then match exec op m with
           | Ok m' => run ops' m'
           | Fatal _ => None
           end
      else None
  end.

Definition session (ops : list Op) : option Machine :=
  match construct with
  | Ok s => run ops (s, [])
  | Fatal _ => None
  end.

(** ** Every function returns *)

(** [Heapify] obeys the recursive equation of the source: the counter of
    [Heapify_rec] never cuts a call the source would make. *)
Lemma below_size s c n : below s c n = true -> c < heap_size s.
Proof. unfold below. intros [H _]%andb_prop. apply Nat.ltb_lt, H. Qed.

Lemma below_outside s c n : heap_size s <= c -> below s c n = false.
Proof.
  intros H. unfold below.
  replace (c <? heap_size s) with false by (symmetry; apply Nat.ltb_ge; lia).
  reflexivity.
Qed.

Lemma Heapify_rec_leaf d s n : heap_size s <= n -> Heapify_rec d s n = s.
Proof.
  intros H. destruct d as [|d]; [reflexivity|]. cbn [Heapify_rec]. cbv zeta.
  rewrite (below_outside s (LeftChild n)) by (unfold LeftChild; lia).
  rewrite (below_outside s (RightChild n)) by (unfold RightChild; lia).
  reflexivity.
Qed.

Lemma Heapify_rec_enough d d' s n :
  heap_size s - n <= d -> heap_size s - n <= d' ->
  Heapify_rec d s n = Heapify_rec d' s n.
Proof.
  revert d' s n. induction d as [|d IH]; intros d' s n Hd Hd'.
  - rewrite (Heapify_rec_leaf d') by lia. reflexivity.
  - destruct d' as [|d'].
    + rewrite (Heapify_rec_leaf (S d)) by lia. reflexivity.
    + cbn [Heapify_rec].
      assert (E1 : (if below s (LeftChild n) n
                    then Heapify_rec d (Swap s (LeftChild n) n) (LeftChild n) else s)
                 = (if below s (LeftChild n) n
                    then Heapify_rec d' (Swap s (LeftChild n) n) (LeftChild n) else s)).
      { destruct (below s (LeftChild n) n) eqn:El; [|reflexivity].
        apply below_size in El.
        apply IH; cbn; unfold LeftChild in *; lia. }
      rewrite E1.
      set (s1 := if below s (LeftChild n) n then _ else s).
      assert (Hs1 : heap_size s1 = heap_size s).
      { subst s1. destruct (below s (LeftChild n) n);
          [rewrite Heapify_rec_heap_size|]; reflexivity. }
      destruct (below s1 (RightChild n) n) eqn:Er; [|reflexivity].
      apply below_size in Er.
      apply IH; cbn; unfold RightChild in *; lia.
Qed.

Lemma Heapify_eq s n :
  Heapify s n =
  let l := LeftChild n in
  let r := RightChild n in
  let s1 := if below s l n then Heapify (Swap s l n) l else s in
  if below s1 r n then Heapify (Swap s1 r n) r else s1.
Proof.
  unfold Heapify at 1.
  rewrite (Heapify_rec_enough _ (S (heap_size s - n))) by lia.
  cbn [Heapify_rec]. cbv zeta.
  assert (E1 : (if below s (LeftChild n) n
                then Heapify_rec (heap_size s - n) (Swap s (LeftChild n) n) (LeftChild n)
                else s)
             = (if below s (LeftChild n) n
                then Heapify (Swap s (LeftChild n) n) (LeftChild n) else s)).
  { destruct (below s (LeftChild n) n) eqn:El; [|reflexivity].
    apply below_size in El.
    apply Heapify_rec_enough; cbn; unfold LeftChild in *; lia. }
  rewrite E1.
  set (s1 := if below s (LeftChild n) n then _ else s).
  assert (Hs1 : heap_size s1 = heap_size s).
  { subst s1. destruct (below s (LeftChild n) n);
      [rewrite Heapify_heap_size|]; reflexivity. }
  destruct (below s1 (RightChild n) n) eqn:Er; [|reflexivity].
  apply below_size in Er.
  apply Heapify_rec_enough; cbn; unfold RightChild in *; lia.
Qed.

(** ** The array and the free store under [Swap] *)

(** What an event pointer leads to. *)
Definition ts_of (s : Scheduler) (p : nat) : Z := timestamp (events s !!! p).
Definition cb_of (s : Scheduler) (p : nat) : Callback := callback (events s !!! p).
Definition handle_of (s : Scheduler) (p : nat) : nat := handle (events s !!! p).

(** The transposition of two indices. *)
Definition transp (i j k : nat) : nat :=
  if decide (k = j) then i else if decide (k = i) then j else k.

Lemma transp_invol i j k : transp i j (transp i j k) = k.
Proof. unfold transp. repeat case_decide; congruence. Qed.

Lemma transp_lt i j k n : i < n -> j < n -> transp i j k < n <-> k < n.
Proof. unfold transp. repeat case_decide; lia. Qed.

Lemma transp_other i j k : k <> i -> k <> j -> transp i j k = k.
Proof. unfold transp. repeat case_decide; congruence. Qed.

Lemma transp_l i j : transp i j i = j.
Proof. unfold transp. repeat case_decide; congruence. Qed.

Lemma transp_r i j : transp i j j = i.
Proof. unfold transp. repeat case_decide; congruence. Qed.

Lemma set_handle_length ev p h : length (set_handle ev p h) = length ev.
Proof. apply length_insert. Qed.

Lemma set_handle_timestamp ev p h q :
  timestamp (set_handle ev p h !!! q) = timestamp (ev !!! q).
Proof.
  unfold set_handle. rewrite list_lookup_total_insert.
  case_decide as H; [destruct H as [-> _]|]; reflexivity.
Qed.

Lemma set_handle_callback ev p h q :
  callback (set_handle ev p h !!! q) = callback (ev !!! q).
Proof.
  unfold set_handle. rewrite list_lookup_total_insert.
  case_decide as H; [destruct H as [-> _]|]; reflexivity.
Qed.

Lemma set_handle_handle ev p h q :
  handle (set_handle ev p h !!! q) =
  if decide (p = q /\ p < length ev) then h else handle (ev !!! q).
Proof.
  unfold set_handle. rewrite list_lookup_total_insert.
  case_decide; reflexivity.
Qed.

Lemma Swap_ts_of s i j p : ts_of (Swap s i j) p = ts_of s p.
Proof. unfold ts_of, Swap. cbn. by rewrite !set_handle_timestamp. Qed.

Lemma Swap_cb_of s i j p : cb_of (Swap s i j) p = cb_of s p.
Proof. unfold cb_of, Swap. cbn. by rewrite !set_handle_callback. Qed.

Lemma Swap_heap_length s i j : length (heap (Swap s i j)) = length (heap s).
Proof. unfold Swap. cbn. by rewrite !length_insert. Qed.

Lemma Swap_events_length s i j : length (events (Swap s i j)) = length (events s).
Proof. unfold Swap. cbn. by rewrite !set_handle_length. Qed.

Lemma Swap_heap s i j k :
  i < length (heap s) -> j < length (heap s) ->
  heap (Swap s i j) !!! k = heap s !!! transp i j k.
Proof.
  intros Hi Hj. unfold Swap, transp. cbn.
  rewrite !list_lookup_total_insert, !length_insert.
  repeat case_decide; try reflexivity; try lia; try congruence.
  all: exfalso; naive_solver.
Qed.

Lemma key_ts_of s k : key s k = ts_of s (heap s !!! k).
Proof. reflexivity. Qed.

Lemma Swap_key s i j k :
  i < length (heap s) -> j < length (heap s) ->
  key (Swap s i j) k = key s (transp i j k).
Proof.
  intros Hi Hj. rewrite !key_ts_of, Swap_ts_of, Swap_heap by assumption.
  reflexivity.
Qed.

(** ** The shape of a scheduler state *)

(** The array and the event objects point at each other: [heap[i]->handle]
    is [i], and the event a pointer leads to sits at its own handle. *)
Record inv (s : Scheduler) : Prop := mkInv {
  inv_events : length (events s) = kMaxEvents;
  inv_heap : length (heap s) = kMaxEvents;
  inv_size : heap_size s <= kMaxEvents;
  inv_ptr : forall i, i < kMaxEvents -> heap s !!! i < kMaxEvents;
  inv_handle : forall i, i < kMaxEvents -> handle_of s (heap s !!! i) = i;
  inv_slot : forall p, p < kMaxEvents ->
    handle_of s p < kMaxEvents /\ heap s !!! handle_of s p = p
}.

Lemma Swap_handle_of s i j p :
  inv s -> i < kMaxEvents -> j < kMaxEvents -> p < kMaxEvents ->
  handle_of (Swap s i j) p = transp i j (handle_of s p).
Proof.
  intros [He Hh _ Hp Hhd Hsl] Hi Hj Hlt.
  destruct (Hsl p Hlt) as [_ Hback].
  pose proof (Hhd i Hi) as Hhi. pose proof (Hhd j Hj) as Hhj.
  pose proof (Hp i Hi) as Hpi. pose proof (Hp j Hj) as Hpj.
  unfold handle_of in *.
  change (events (Swap s i j)) with
    (set_handle (set_handle (events s) (heap (Swap s i j) !!! i) i)
                (heap (Swap s i j) !!! j) j).
  rewrite !Swap_heap, transp_l, transp_r by lia.
  rewrite !set_handle_handle, set_handle_length, He.
  set (hp := handle (events s !!! p)) in *.
  destruct (decide (hp = i)) as [Ei|Ei], (decide (hp = j)) as [Ej|Ej].
  - rewrite decide_True by (split; [congruence|lia]).
    unfold transp. repeat case_decide; congruence.
  - rewrite decide_True by (split; [congruence|lia]).
    unfold transp. repeat case_decide; congruence.
  - rewrite decide_False by (intros [E _]; subst hp; congruence).
    rewrite decide_True by (split; [congruence|lia]).
    unfold transp. repeat case_decide; congruence.
  - rewrite decide_False by (intros [E _]; subst hp; congruence).
    rewrite decide_False by (intros [E _]; subst hp; congruence).
    unfold transp. repeat case_decide; congruence.
Qed.

Lemma Swap_inv s i j :
  inv s -> i < kMaxEvents -> j < kMaxEvents -> inv (Swap s i j).
Proof.
  intros Hs Hi Hj. pose proof Hs as [He Hh Hsz Hp Hhd Hsl].
  assert (Hptr : forall k, k < kMaxEvents -> heap (Swap s i j) !!! k < kMaxEvents).
  { intros k Hk. rewrite Swap_heap by lia. apply Hp, transp_lt; assumption. }
  split.
  - rewrite Swap_events_length. exact He.
  - rewrite Swap_heap_length. exact Hh.
  - exact Hsz.
  - exact Hptr.
  - intros k Hk. rewrite Swap_handle_of by auto.
    rewrite Swap_heap by lia. rewrite Hhd by (apply transp_lt; assumption).
    apply transp_invol.
  - intros p Hlt. rewrite Swap_handle_of by auto.
    destruct (Hsl p Hlt) as [Hhp Hback]. split.
    + apply transp_lt; assumption.
    + rewrite Swap_heap by lia. rewrite transp_invol. exact Hback.
Qed.

(** An event is pending while its handle is below [heap_size]. *)
Definition pending (s : Scheduler) (p : nat) : Prop :=
  p < kMaxEvents /\ handle_of s p < heap_size s.

Lemma pending_at s i : inv s -> i < heap_size s -> pending s (heap s !!! i).
Proof.
  intros Hs Hi. pose proof (inv_size s Hs).
  split; [apply inv_ptr; [assumption|lia]|].
  rewrite inv_handle by (assumption || lia). exact Hi.
Qed.

Lemma pending_inv_at s p :
  inv s -> pending s p -> exists i, i < heap_size s /\ heap s !!! i = p.
Proof.
  intros Hs [Hp Hh]. exists (handle_of s p). split; [exact Hh|].
  apply inv_slot; assumption.
Qed.

Lemma Swap_pending s i j p :
  inv s -> i < heap_size s -> j < heap_size s ->
  pending (Swap s i j) p <-> pending s p.
Proof.
  intros Hs Hi Hj. pose proof (inv_size s Hs). unfold pending.
  split; intros [Hp Hh]; (split; [exact Hp|]).
  - rewrite Swap_handle_of in Hh by (assumption || lia).
    change (heap_size (Swap s i j)) with (heap_size s) in Hh.
    apply transp_lt in Hh; assumption.
  - rewrite Swap_handle_of by (assumption || lia).
    change (heap_size (Swap s i j)) with (heap_size s).
    apply transp_lt; assumption.
Qed.

(** ** The loop that moves an event up *)

Lemma Parent_lt n : 0 < n -> Parent n < n.
Proof. unfold Parent. lia. Qed.

Lemma Parent_le n : Parent n <= n.
Proof. unfold Parent. lia. Qed.

Lemma above_spec s n :
  above s n = true <-> n <> 0 /\ (key s n < key s (Parent n))%Z.
Proof.
  unfold above. rewrite andb_true_iff, negb_true_iff, Nat.eqb_neq, Z.ltb_lt.
  reflexivity.
Qed.

Lemma above_false s n :
  above s n = false <-> n = 0 \/ (key s (Parent n) <= key s n)%Z.
Proof.
  unfold above. rewrite andb_false_iff, negb_false_iff, Nat.eqb_eq, Z.ltb_ge.
  reflexivity.
Qed.

(** Whatever holds before the loop and survives one turn of it holds after
    it, at the index where the loop stops. *)
Lemma sift_up_rule (P : Scheduler -> nat -> Prop) :
  (forall s n, above s n = true -> P s n -> P (Swap s n (Parent n)) (Parent n)) ->
  forall n s, P s n ->
  exists m, m <= n /\ above (sift_up s n) m = false /\ P (sift_up s n) m.
Proof.
  intros Hstep n. induction n as [n IH] using lt_wf_ind. intros s HP.
  rewrite sift_up_eq. destruct (above s n) eqn:E.
  - destruct (IH (Parent n) (above_Parent_lt _ _ E) _ (Hstep _ _ E HP))
      as (m & Hm & Ha & HPm).
    exists m. split; [|split]; try assumption.
    pose proof (Parent_le n). lia.
  - exists n. split; [lia|]. split; assumption.
Qed.

Lemma sift_up_inv s n : inv s -> n < kMaxEvents -> inv (sift_up s n).
Proof.
  intros Hs Hn.
  destruct (sift_up_rule (fun s n => inv s /\ n < kMaxEvents)) with (n := n) (s := s)
    as (m & _ & _ & H & _); [|split; assumption|exact H].
  intros s' n' _ [H1 H2]. pose proof (Parent_le n').
  split; [apply Swap_inv|]; lia || assumption.
Qed.

Lemma sift_up_ts_of s n p : ts_of (sift_up s n) p = ts_of s p.
Proof.
  destruct (sift_up_rule (fun s' _ => ts_of s' p = ts_of s p)) with (n := n) (s := s)
    as (m & _ & _ & H); [|reflexivity|exact H].
  intros s' n' _ H. rewrite Swap_ts_of. exact H.
Qed.

Lemma sift_up_cb_of s n p : cb_of (sift_up s n) p = cb_of s p.
Proof.
  destruct (sift_up_rule (fun s' _ => cb_of s' p = cb_of s p)) with (n := n) (s := s)
    as (m & _ & _ & H); [|reflexivity|exact H].
  intros s' n' _ H. rewrite Swap_cb_of. exact H.
Qed.

Lemma sift_up_timestamp_now s n : timestamp_now (sift_up s n) = timestamp_now s.
Proof.
  destruct (sift_up_rule (fun s' _ => timestamp_now s' = timestamp_now s))
    with (n := n) (s := s) as (m & _ & _ & H); [|reflexivity|exact H].
  intros s' n' _ H. exact H.
Qed.

Lemma sift_up_pending s n p :
  inv s -> n < heap_size s -> pending (sift_up s n) p <-> pending s p.
Proof.
  intros Hs Hn.
  destruct (sift_up_rule (fun s' n' =>
      inv s' /\ n' < heap_size s' /\ (pending s' p <-> pending s p)))
    with (n := n) (s := s) as (m & _ & _ & _ & _ & H);
    [|split; [assumption|split; [assumption|reflexivity]]|exact H].
  intros s' n' _ (H1 & H2 & H3). pose proof (Parent_le n').
  pose proof (inv_size s' H1).
  split; [apply Swap_inv; lia || assumption|].
  split; [change (Parent n' < heap_size s'); lia|].
  rewrite Swap_pending by (assumption || lia). exact H3.
Qed.

(** ** The order of the heap *)

Definition edge (s : Scheduler) (j : nat) : Prop :=
  0 < j -> j < heap_size s -> (key s (Parent j) <= key s j)%Z.

Definition heap_ordered (s : Scheduler) : Prop := forall j, edge s j.

(** The state of the heap while the event at [n] moves up: every pair is
    in order but [n] and its parent, and the children of [n] are not below
    the parent of [n]. *)
Definition sift_inv (s : Scheduler) (n : nat) : Prop :=
  (forall j, j <> n -> edge s j) /\
  (forall j, 0 < n -> 0 < j -> j < heap_size s -> Parent j = n ->
     (key s (Parent n) <= key s j)%Z).

Lemma sift_inv_step s n :
  inv s -> n < kMaxEvents -> above s n = true -> sift_inv s n ->
  sift_inv (Swap s n (Parent n)) (Parent n).
Proof.
  intros Hs Hn Ha [F1 F2]. apply above_spec in Ha as [Hn0 F3].
  pose proof (inv_size s Hs) as Hsz. pose proof (inv_heap s Hs) as Hlen.
  assert (Hpn : Parent n < n) by (apply Parent_lt; lia).
  set (p := Parent n) in *.
  assert (K : forall k, key (Swap s n p) k = key s (transp n p k)).
  { intros k. apply Swap_key; lia. }
  change (heap_size (Swap s n p)) with (heap_size s).
  split.
  - intros j Hj Hj0 Hjs. change (heap_size (Swap s n p)) with (heap_size s) in Hjs.
    rewrite !K.
    destruct (decide (j = n)) as [->|Hjn].
    + fold p. rewrite transp_l, transp_r. lia.
    + rewrite (transp_other n p j) by assumption.
      destruct (decide (Parent j = n)) as [E|E].
      * rewrite E, transp_l. apply F2; (lia || assumption).
      * destruct (decide (Parent j = p)) as [E'|E'].
        -- rewrite E', transp_r. specialize (F1 j Hjn Hj0 Hjs). rewrite E' in F1. lia.
        -- rewrite transp_other by assumption. apply F1; assumption.
  - intros j Hp0 Hj0 Hjs Hpj.
    change (heap_size (Swap s n p)) with (heap_size s) in Hjs.
    rewrite !K.
    assert (Hpp : Parent p < p) by (apply Parent_lt; lia).
    rewrite (transp_other n p (Parent p)) by lia.
    pose proof (Parent_lt j Hj0) as Hpjlt. rewrite Hpj in Hpjlt.
    assert (Fp : (key s (Parent p) <= key s p)%Z) by (apply F1; lia).
    destruct (decide (j = n)) as [->|Hjn].
    + rewrite transp_l. exact Fp.
    + assert (j <> p) by (pose proof (Parent_lt j Hj0); lia).
      rewrite transp_other by assumption.
      specialize (F1 j Hjn Hj0 Hjs). rewrite Hpj in F1. lia.
Qed.

Lemma sift_inv_done s n :
  sift_inv s n -> above s n = false -> heap_ordered s.
Proof.
  intros [F1 _] Ha j. destruct (decide (j = n)) as [->|Hj]; [|apply F1, Hj].
  intros Hn0 _. apply above_false in Ha as [->|Ha]; [lia|exact Ha].
Qed.

Lemma sift_up_ordered s n :
  inv s -> n < kMaxEvents -> sift_inv s n -> heap_ordered (sift_up s n).
Proof.
  intros Hs Hn Hi.
  destruct (sift_up_rule (fun s' n' => inv s' /\ n' < kMaxEvents /\ sift_inv s' n'))
    with (n := n) (s := s) as (m & _ & Ha & _ & _ & H);
    [|split; [assumption|split; assumption]|eapply sift_inv_done; eassumption].
  intros s' n' Ha (H1 & H2 & H3). pose proof (Parent_le n').
  split; [apply Swap_inv; lia || assumption|].
  split; [lia|].
  apply sift_inv_step; assumption.
Qed.

(** ** The subtree below an index *)

Inductive sub (n : nat) : nat -> Prop :=
| sub_root : sub n n
| sub_left j : sub n j -> sub n (LeftChild j)
| sub_right j : sub n j -> sub n (RightChild j).

Lemma Parent_LeftChild n : Parent (LeftChild n) = n.
Proof. unfold Parent, LeftChild. lia. Qed.

Lemma Parent_RightChild n : Parent (RightChild n) = n.
Proof. unfold Parent, RightChild. lia. Qed.

Lemma child_cases j :
  0 < j -> j = LeftChild (Parent j) \/ j = RightChild (Parent j).
Proof. unfold Parent, LeftChild, RightChild. lia. Qed.

Lemma sub_ge n j : sub n j -> n <= j.
Proof. induction 1; unfold LeftChild, RightChild; lia. Qed.

Lemma sub_trans n m j : sub n m -> sub m j -> sub n j.
Proof. intros Hnm. induction 1; [assumption| |]; constructor; assumption. Qed.

Lemma sub_LeftChild n j : sub (LeftChild n) j -> sub n j.
Proof. apply sub_trans. constructor. constructor. Qed.

Lemma sub_RightChild n j : sub (RightChild n) j -> sub n j.
Proof. apply sub_trans. constructor. constructor. Qed.

Lemma sub_cases n j :
  sub n j -> j = n \/ sub (LeftChild n) j \/ sub (RightChild n) j.
Proof.
  induction 1 as [|j _ IH|j _ IH].
  - left. reflexivity.
  - right. destruct IH as [->|[IH|IH]].
    + left. constructor.
    + left. constructor. assumption.
    + right. constructor. assumption.
  - right. destruct IH as [->|[IH|IH]].
    + right. constructor.
    + left. constructor. assumption.
    + right. constructor. assumption.
Qed.

Lemma sub_Parent n j : sub n j -> j <> n -> sub n (Parent j).
Proof.
  destruct 1; intros Hne.
  - congruence.
  - rewrite Parent_LeftChild. assumption.
  - rewrite Parent_RightChild. assumption.
Qed.

Lemma sub_child n j : 0 < j -> sub n (Parent j) -> sub n j.
Proof.
  intros Hj H. destruct (child_cases j Hj) as [E|E]; rewrite E;
    constructor; assumption.
Qed.

Lemma sub_disjoint n j : sub (LeftChild n) j -> sub (RightChild n) j -> False.
Proof.
  intros Hl. induction Hl as [|j Hl IH|j Hl IH]; intros Hr.
  - apply sub_ge in Hr. unfold LeftChild, RightChild in Hr. lia.
  - inversion Hr as [E|k Hk E|k Hk E].
    + unfold LeftChild, RightChild in E. lia.
    + assert (k = j) by (unfold LeftChild in E; lia). subst k. auto.
    + unfold LeftChild, RightChild in E. lia.
  - inversion Hr as [E|k Hk E|k Hk E].
    + assert (j = n) by (unfold RightChild in E; lia). subst j.
      apply sub_ge in Hl. unfold LeftChild in Hl. lia.
    + unfold LeftChild, RightChild in E. lia.
    + assert (k = j) by (unfold RightChild in E; lia). subst k. auto.
Qed.

Lemma sub_all j : sub 0 j.
Proof.
  induction j as [j IH] using lt_wf_ind.
  destruct (decide (j = 0)) as [->|Hj]; [constructor|].
  apply sub_child; [lia|]. apply IH, Parent_lt. lia.
Qed.

(** Membership in a subtree is decided by walking up from [j]. *)
Lemma classic_sub n j : sub n j \/ ~ sub n j.
Proof.
  induction j as [j IH] using lt_wf_ind.
  destruct (decide (j = n)) as [->|Hne]; [left; constructor|].
  destruct (decide (j = 0)) as [->|Hj0].
  - right. intros H%sub_ge. lia.
  - destruct (IH (Parent j) ltac:(apply Parent_lt; lia)) as [H|H].
    + left. apply sub_child; [lia|exact H].
    + right. intros Hsub. apply H, sub_Parent; assumption.
Qed.

(** The order inside the subtree below [n]. *)
Definition heap_in (s : Scheduler) (n : nat) : Prop :=
  forall j, sub n j -> j <> n -> edge s j.

Lemma heap_in_root_min s n j :
  heap_in s n -> sub n j -> j < heap_size s -> (key s n <= key s j)%Z.
Proof.
  intros Hin Hsub. induction Hsub as [|j Hsub IH|j Hsub IH]; intros Hj.
  - lia.
  - assert (E : edge s (LeftChild j)).
    { apply Hin; [constructor; assumption|].
      apply sub_ge in Hsub. unfold LeftChild. lia. }
    unfold edge in E. rewrite Parent_LeftChild in E.
    unfold LeftChild in *. lia.
  - assert (E : edge s (RightChild j)).
    { apply Hin; [constructor; assumption|].
      apply sub_ge in Hsub. unfold RightChild. lia. }
    unfold edge in E. rewrite Parent_RightChild in E.
    unfold RightChild in *. lia.
Qed.

Lemma heap_ordered_in s : heap_ordered s <-> heap_in s 0.
Proof.
  split.
  - intros H j _ _. apply H.
  - intros H j Hj0. apply H; [apply sub_all|lia|assumption].
Qed.

Lemma heap_ordered_root_min s j :
  heap_ordered s -> j < heap_size s -> (key s 0 <= key s j)%Z.
Proof.
  intros H. apply heap_in_root_min; [apply heap_ordered_in, H|apply sub_all].
Qed.

(** Two states whose keys agree on a subtree are in order there together. *)
Lemma heap_in_agree s s' n :
  heap_size s' = heap_size s ->
  (forall j, sub n j -> key s' j = key s j) ->
  heap_in s n -> heap_in s' n.
Proof.
  intros Hsz Hk Hin j Hsub Hne Hj0 Hj. rewrite Hsz in Hj.
  rewrite !Hk by (try apply sub_Parent; assumption).
  apply Hin; assumption.
Qed.

Lemma heap_in_join s n :
  heap_in s (LeftChild n) -> heap_in s (RightChild n) ->
  edge s (LeftChild n) -> edge s (RightChild n) ->
  heap_in s n.
Proof.
  intros Hl Hr El Er j Hsub Hne.
  destruct (sub_cases _ _ Hsub) as [->|[H|H]]; [congruence| |].
  - destruct (decide (j = LeftChild n)) as [->|Hj]; [exact El|]. apply Hl; assumption.
  - destruct (decide (j = RightChild n)) as [->|Hj]; [exact Er|]. apply Hr; assumption.
Qed.

(** ** [Heapify] *)

Lemma below_spec s c n :
  below s c n = true <-> c < heap_size s /\ (key s c < key s n)%Z.
Proof. unfold below. rewrite andb_true_iff, Nat.ltb_lt, Z.ltb_lt. reflexivity. Qed.

Lemma below_false s c n :
  below s c n = false <-> heap_size s <= c \/ (key s n <= key s c)%Z.
Proof. unfold below. rewrite andb_false_iff, Nat.ltb_ge, Z.ltb_ge. reflexivity. Qed.

(** Whatever survives the swap of a parent with a child below it survives
    [Heapify]. *)
Lemma Heapify_rule (P : Scheduler -> Prop) :
  (forall s c n, below s c n = true -> n < c -> P s -> P (Swap s c n)) ->
  forall s n, P s -> P (Heapify s n).
Proof.
  intros Hstep s n. unfold Heapify. generalize (heap_size s - n) as d.
  intros d. revert s n. induction d as [|d IH]; intros s n HP; [exact HP|].
  cbn [Heapify_rec]. cbv zeta.
  set (s1 := if below s (LeftChild n) n then _ else s).
  assert (HP1 : P s1).
  { subst s1. destruct (below s (LeftChild n) n) eqn:E; [|exact HP].
    apply IH, Hstep; [exact E|unfold LeftChild; lia|exact HP]. }
  destruct (below s1 (RightChild n) n) eqn:E; [|exact HP1].
  apply IH, Hstep; [exact E|unfold RightChild; lia|exact HP1].
Qed.

Lemma Heapify_inv s n : inv s -> inv (Heapify s n).
Proof.
  apply Heapify_rule. intros s' c n' Hb Hlt Hs.
  apply below_size in Hb. pose proof (inv_size s' Hs).
  apply Swap_inv; lia || assumption.
Qed.

Lemma Heapify_ts_of s n p : ts_of (Heapify s n) p = ts_of s p.
Proof.
  apply (Heapify_rule (fun s' => ts_of s' p = ts_of s p)); [|reflexivity].
  intros s' c n' _ _ H. rewrite Swap_ts_of. exact H.
Qed.

Lemma Heapify_cb_of s n p : cb_of (Heapify s n) p = cb_of s p.
Proof.
  apply (Heapify_rule (fun s' => cb_of s' p = cb_of s p)); [|reflexivity].
  intros s' c n' _ _ H. rewrite Swap_cb_of. exact H.
Qed.

Lemma Heapify_timestamp_now s n : timestamp_now (Heapify s n) = timestamp_now s.
Proof.
  apply (Heapify_rule (fun s' => timestamp_now s' = timestamp_now s)); [|reflexivity].
  intros s' c n' _ _ H. exact H.
Qed.

Lemma Heapify_pending s n p :
  inv s -> pending (Heapify s n) p <-> pending s p.
Proof.
  intros Hs.
  apply (Heapify_rule (fun s' => inv s' /\ (pending s' p <-> pending s p)));
    [|split; [assumption|reflexivity]].
  intros s' c n' Hb Hlt [H1 H2]. apply below_size in Hb.
  pose proof (inv_size s' H1).
  split; [apply Swap_inv; lia || assumption|].
  rewrite Swap_pending by (assumption || lia). exact H2.
Qed.

Lemma heap_in_LeftChild s n : heap_in s n -> heap_in s (LeftChild n).
Proof.
  intros H j Hsub Hne. apply H; [apply sub_LeftChild, Hsub|].
  apply sub_ge in Hsub. unfold LeftChild in Hsub. lia.
Qed.

Lemma heap_in_RightChild s n : heap_in s n -> heap_in s (RightChild n).
Proof.
  intros H j Hsub Hne. apply H; [apply sub_RightChild, Hsub|].
  apply sub_ge in Hsub. unfold RightChild in Hsub. lia.
Qed.

(** What [Heapify] achieves at [n] when the two subtrees below [n] are in
    order: the subtree below [n] is in order, nothing outside it has moved,
    and a lower bound of the subtree is a lower bound of its new root. *)
Definition Heapify_post (s s' : Scheduler) (n : nat) : Prop :=
  heap_in s' n /\
  (forall j, ~ sub n j -> key s' j = key s j) /\
  (forall m, n < heap_size s ->
     (forall j, sub n j -> j < heap_size s -> (m <= key s j)%Z) ->
     (m <= key s' n)%Z).

Lemma Heapify_sound s n :
  inv s -> heap_in s (LeftChild n) -> heap_in s (RightChild n) ->
  Heapify_post s (Heapify s n) n.
Proof.
  remember (heap_size s - n) as k eqn:Hk. revert s n Hk.
  induction k as [k IH] using lt_wf_ind. intros s n Hk Hs Hl Hr.
  pose proof (inv_size s Hs) as Hsz. pose proof (inv_heap s Hs) as Hlen.
  rewrite Heapify_eq. cbv zeta.
  set (l := LeftChild n) in *. set (r := RightChild n) in *.
  assert (Hnl : n < l) by (unfold l, LeftChild; lia).
  assert (Hlr : r = l + 1) by (unfold l, r, LeftChild, RightChild; lia).
  assert (Pl : Parent l = n) by apply Parent_LeftChild.
  assert (Pr : Parent r = n) by apply Parent_RightChild.
  assert (Snl : ~ sub l n) by (intros H%sub_ge; lia).
  assert (Snr : ~ sub r n) by (intros H%sub_ge; lia).
  assert (Slr : ~ sub l r) by (intros H; eapply sub_disjoint; [exact H|constructor]).
  assert (Srl : ~ sub r l) by (intros H%sub_ge; lia).
  assert (Dlr : forall j, sub l j -> ~ sub r j)
    by (intros j H1 H2; eapply sub_disjoint; eassumption).
  assert (Drl : forall j, sub r j -> ~ sub l j)
    by (intros j H1 H2; eapply sub_disjoint; eassumption).
  assert (Out : forall j, ~ sub n j -> j <> n /\ ~ sub l j /\ ~ sub r j).
  { intros j Hj. split; [intros ->; apply Hj; constructor|].
    split; intros H; apply Hj; [apply sub_LeftChild|apply sub_RightChild]; exact H. }
  destruct (below s l n) eqn:Bl.
  - (* the left child moves up *)
    apply below_spec in Bl as [Hlhs Kl].
    set (s1 := Swap s l n).
    assert (K1 : forall j, key s1 j = key s (transp l n j))
      by (intros j; apply Swap_key; lia).
    assert (Hs1 : inv s1) by (apply Swap_inv; lia || assumption).
    assert (K1o : forall j, j <> l -> j <> n -> key s1 j = key s j)
      by (intros j ? ?; rewrite K1, transp_other; auto).
    assert (K1l : key s1 l = key s n) by (rewrite K1, transp_l; reflexivity).
    assert (K1n : key s1 n = key s l) by (rewrite K1, transp_r; reflexivity).
    destruct (IH (heap_size s1 - l) ltac:(subst k; cbn; lia) s1 l eq_refl Hs1)
      as (A1 & A2 & A3).
    { apply (heap_in_agree s); [reflexivity| |apply heap_in_LeftChild, Hl].
      intros j Hj%sub_ge. apply K1o; unfold LeftChild in Hj; lia. }
    { apply (heap_in_agree s); [reflexivity| |apply heap_in_RightChild, Hl].
      intros j Hj%sub_ge. apply K1o; unfold RightChild in Hj; lia. }
    set (s2 := Heapify s1 l) in *.
    assert (Hs2 : inv s2) by apply Heapify_inv, Hs1.
    assert (Z2 : heap_size s2 = heap_size s) by exact (Heapify_heap_size s1 l).
    assert (K2n : key s2 n = key s l) by (rewrite A2, K1n; auto).
    assert (K2R : forall j, sub r j -> key s2 j = key s j).
    { intros j Hj. rewrite A2 by auto. apply sub_ge in Hj. apply K1o; lia. }
    assert (A3l : (key s l <= key s2 l)%Z).
    { apply A3; [exact Hlhs|]. intros j Hj Hjs.
      destruct (decide (j = l)) as [->|Hjl]; [lia|].
      apply sub_ge in Hj as Hge. rewrite K1o by lia.
      apply heap_in_root_min; assumption. }
    destruct (below s2 r n) eqn:Br.
    + (* then the right child moves up as well *)
      apply below_spec in Br as [Hrhs Kr]. rewrite Z2 in Hrhs.
      rewrite K2n, K2R in Kr by constructor.
      set (s3 := Swap s2 r n).
      assert (K3 : forall j, key s3 j = key s2 (transp r n j)).
      { intros j. apply Swap_key; rewrite (inv_heap s2 Hs2); lia. }
      assert (Hs3 : inv s3) by (apply Swap_inv; lia || assumption).
      assert (K3o : forall j, j <> r -> j <> n -> key s3 j = key s2 j)
        by (intros j ? ?; rewrite K3, transp_other; auto).
      destruct (IH (heap_size s3 - r) ltac:(subst k; change (heap_size s3) with (heap_size s2); lia) s3 r eq_refl Hs3)
        as (B1 & B2 & B3).
      { apply (heap_in_agree s); [exact Z2| |apply heap_in_LeftChild, Hr].
        intros j Hj. apply sub_ge in Hj as Hge. unfold LeftChild in Hge.
        rewrite K3o by lia. apply K2R, sub_LeftChild, Hj. }
      { apply (heap_in_agree s); [exact Z2| |apply heap_in_RightChild, Hr].
        intros j Hj. apply sub_ge in Hj as Hge. unfold RightChild in Hge.
        rewrite K3o by lia. apply K2R, sub_RightChild, Hj. }
      set (s4 := Heapify s3 r) in *.
      assert (Z4 : heap_size s4 = heap_size s2) by exact (Heapify_heap_size s3 r).
      assert (K4n : key s4 n = key s r).
      { rewrite B2 by auto. rewrite K3, transp_r. apply K2R. constructor. }
      assert (K4L : forall j, sub l j -> key s4 j = key s2 j).
      { intros j Hj. rewrite B2 by auto. apply sub_ge in Hj as Hge.
        apply K3o; [|lia]. intros ->. contradiction. }
      split; [|split].
      * apply heap_in_join.
        -- apply (heap_in_agree s2); [exact Z4|exact K4L|exact A1].
        -- exact B1.
        -- intros _ _. fold l. rewrite Pl, K4n, K4L by constructor. lia.
        -- intros _ _. fold r. rewrite Pr, K4n. apply B3; [change (r < heap_size s2); lia|].
           intros j Hj Hjs. destruct (decide (j = r)) as [->|Hjr].
           ++ rewrite K3, transp_l, K2n. lia.
           ++ apply sub_ge in Hj as Hge. rewrite K3o, K2R by (lia || assumption).
              change (heap_size s3) with (heap_size s2) in Hjs.
              apply heap_in_root_min; [assumption..|lia].
      * intros j Hj. destruct (Out j Hj) as (Hjn & Hjl & Hjr).
        rewrite B2 by assumption.
        assert (j <> l) by (intros ->; apply Hjl; constructor).
        assert (j <> r) by (intros ->; apply Hjr; constructor).
        rewrite K3o, A2, K1o by assumption. reflexivity.
      * intros m Hn Hm. rewrite K4n. apply Hm; [|exact Hrhs].
        apply sub_RightChild. constructor.
    + (* the right child stays *)
      apply below_false in Br. rewrite Z2, K2n in Br.
      split; [|split].
      * apply heap_in_join.
        -- exact A1.
        -- apply (heap_in_agree s); [exact Z2|exact K2R|exact Hr].
        -- intros _ _. fold l. rewrite Pl, K2n. exact A3l.
        -- intros _ Hrs. fold r in Hrs |- *. rewrite Pr, K2n.
           rewrite Z2 in Hrs. destruct Br as [Br|Br]; [lia|exact Br].
      * intros j Hj. destruct (Out j Hj) as (Hjn & Hjl & Hjr).
        assert (j <> l) by (intros ->; apply Hjl; constructor).
        rewrite A2, K1o by assumption. reflexivity.
      * intros m Hn Hm. rewrite K2n. apply Hm; [|exact Hlhs].
        apply sub_LeftChild. constructor.
  - (* the left child stays *)
    apply below_false in Bl.
    destruct (below s r n) eqn:Br.
    + apply below_spec in Br as [Hrhs Kr].
      assert (Kl : (key s n <= key s l)%Z) by (destruct Bl as [Bl|Bl]; [lia|exact Bl]).
      set (s3 := Swap s r n).
      assert (K3 : forall j, key s3 j = key s (transp r n j))
        by (intros j; apply Swap_key; lia).
      assert (Hs3 : inv s3) by (apply Swap_inv; lia || assumption).
      assert (K3o : forall j, j <> r -> j <> n -> key s3 j = key s j)
        by (intros j ? ?; rewrite K3, transp_other; auto).
      destruct (IH (heap_size s3 - r) ltac:(subst k; change (heap_size s3) with (heap_size s); lia) s3 r eq_refl Hs3)
        as (B1 & B2 & B3).
      { apply (heap_in_agree s); [reflexivity| |apply heap_in_LeftChild, Hr].
        intros j Hj%sub_ge. apply K3o; unfold LeftChild in Hj; lia. }
      { apply (heap_in_agree s); [reflexivity| |apply heap_in_RightChild, Hr].
        intros j Hj%sub_ge. apply K3o; unfold RightChild in Hj; lia. }
      set (s4 := Heapify s3 r) in *.
      assert (Z4 : heap_size s4 = heap_size s) by exact (Heapify_heap_size s3 r).
      assert (K4n : key s4 n = key s r).
      { rewrite B2 by auto. rewrite K3, transp_r. reflexivity. }
      assert (K4L : forall j, sub l j -> key s4 j = key s j).
      { intros j Hj. rewrite B2 by auto. apply sub_ge in Hj as Hge.
        apply K3o; [|lia]. intros ->. contradiction. }
      split; [|split].
      * apply heap_in_join.
        -- apply (heap_in_agree s); [exact Z4|exact K4L|exact Hl].
        -- exact B1.
        -- intros _ _. fold l. rewrite Pl, K4n, K4L by constructor. lia.
        -- intros _ _. fold r. rewrite Pr, K4n. apply B3; [change (r < heap_size s); lia|].
           intros j Hj Hjs. destruct (decide (j = r)) as [->|Hjr].
           ++ rewrite K3, transp_l. lia.
           ++ apply sub_ge in Hj as Hge. rewrite K3o by lia.
              change (heap_size s3) with (heap_size s) in Hjs.
              apply heap_in_root_min; [assumption..|lia].
      * intros j Hj. destruct (Out j Hj) as (Hjn & Hjl & Hjr).
        rewrite B2 by assumption.
        assert (j <> r) by (intros ->; apply Hjr; constructor).
        rewrite K3o by assumption. reflexivity.
      * intros m Hn Hm. rewrite K4n. apply Hm; [|exact Hrhs].
        apply sub_RightChild. constructor.
    + apply below_false in Br.
      split; [|split].
      * apply heap_in_join; [exact Hl|exact Hr| |].
        -- intros _ Hls. fold l in Hls |- *. rewrite Pl.
           destruct Bl as [Bl|Bl]; [lia|exact Bl].
        -- intros _ Hrs. fold r in Hrs |- *. rewrite Pr.
           destruct Br as [Br|Br]; [lia|exact Br].
      * reflexivity.
      * intros m Hn Hm. apply Hm; [constructor|exact Hn].
Qed.

(** ** [Remove] *)

Lemma heap_in_agree_below s s' n :
  heap_size s' <= heap_size s ->
  (forall j, sub n j -> j < heap_size s' -> key s' j = key s j) ->
  heap_in s n -> heap_in s' n.
Proof.
  intros Hsz Hk Hin j Hsub Hne Hj0 Hj.
  pose proof (Parent_lt j Hj0).
  rewrite !Hk by (try apply sub_Parent; assumption || lia).
  apply Hin; assumption || lia.
Qed.

Lemma set_heap_size_inv s k : inv s -> k <= kMaxEvents -> inv (set_heap_size s k).
Proof. intros [] Hk. split; assumption. Qed.

(** The state [Remove] works on after [Swap(n, --heap_size)]. *)
Definition unlink (s : Scheduler) (n : nat) : Scheduler :=
  Swap (set_heap_size s (heap_size s - 1)) n (heap_size s - 1).

Lemma Remove_eq s n :
  0 < heap_size s -> n < kMaxEvents ->
  Remove s n =
  Ok (if above (unlink s n) n then sift_up (unlink s n) n else Heapify (unlink s n) n).
Proof.
  intros Hs Hn. unfold Remove.
  replace (heap_size s =? 0) with false by (symmetry; apply Nat.eqb_neq; lia).
  replace (kMaxEvents <=? n) with false by (symmetry; apply Nat.leb_gt; lia).
  cbn [orb]. cbv zeta.
  change (Swap (set_heap_size s (heap_size s - 1)) n
            (heap_size (set_heap_size s (heap_size s - 1))))
    with (unlink s n).
  destruct (above (unlink s n) n) eqn:E; [|reflexivity].
  rewrite (sift_up_eq (unlink s n) n), E. reflexivity.
Qed.

Section Unlink.
Variables (s : Scheduler) (n : nat).
Hypothesis Hs : inv s.
Hypothesis Hn : n < heap_size s.

Let last := heap_size s - 1.

Lemma unlink_heap_size : heap_size (unlink s n) = heap_size s - 1.
Proof. reflexivity. Qed.

Lemma unlink_inv : inv (unlink s n).
Proof.
  pose proof (inv_size s Hs).
  apply Swap_inv; [apply set_heap_size_inv| |]; assumption || lia.
Qed.

Lemma unlink_key k : key (unlink s n) k = key s (transp n last k).
Proof.
  pose proof (inv_size s Hs). pose proof (inv_heap s Hs) as Hlen.
  unfold unlink. rewrite Swap_key; [reflexivity|cbn; lia..].
Qed.

Lemma unlink_key_other k : k < last -> k <> n -> key (unlink s n) k = key s k.
Proof. intros H1 H2. rewrite unlink_key, transp_other; [reflexivity|lia..]. Qed.

Lemma unlink_key_n : key (unlink s n) n = key s last.
Proof. rewrite unlink_key, transp_l. reflexivity. Qed.

Lemma unlink_ts_of p : ts_of (unlink s n) p = ts_of s p.
Proof. unfold unlink. rewrite Swap_ts_of. reflexivity. Qed.

Lemma unlink_cb_of p : cb_of (unlink s n) p = cb_of s p.
Proof. unfold unlink. rewrite Swap_cb_of. reflexivity. Qed.

Lemma unlink_pending p :
  pending (unlink s n) p <-> pending s p /\ p <> heap s !!! n.
Proof.
  pose proof (inv_size s Hs) as Hsz. unfold pending.
  rewrite unlink_heap_size.
  split.
  - intros [Hp Hh]. unfold unlink in Hh.
    rewrite Swap_handle_of in Hh
      by (try apply set_heap_size_inv; assumption || lia).
    change (handle_of (set_heap_size s (heap_size s - 1)) p)
      with (handle_of s p) in Hh.
    unfold transp in Hh. repeat case_decide; (split; [split; [assumption|lia]|]).
    all: intros ->; rewrite inv_handle in *; assumption || lia.
  - intros [[Hp Hh] Hne]. split; [assumption|]. unfold unlink.
    rewrite Swap_handle_of by (try apply set_heap_size_inv; assumption || lia).
    change (handle_of (set_heap_size s (heap_size s - 1)) p) with (handle_of s p).
    assert (handle_of s p <> n).
    { intros E. apply Hne. rewrite <- E. symmetry. apply inv_slot; assumption. }
    unfold transp. repeat case_decide; lia.
Qed.

Hypothesis Ho : heap_ordered s.

Lemma unlink_last_stays : n = last -> above (unlink s n) n = false.
Proof.
  intros E. apply above_false.
  destruct (decide (n = 0)) as [?|Hn0]; [left; assumption|right].
  rewrite !unlink_key. subst n. unfold transp.
  repeat case_decide; try lia; apply Ho; lia.
Qed.

Lemma unlink_sift_inv : above (unlink s n) n = true -> sift_inv (unlink s n) n.
Proof.
  intros Ha.
  assert (Hnl : n < last).
  { destruct (decide (n = last)) as [E|]; [|lia].
    rewrite unlink_last_stays in Ha by assumption. discriminate. }
  apply above_spec in Ha as [Hn0 Ha].
  pose proof (Parent_lt n ltac:(lia)) as Hpn.
  rewrite unlink_key_n, unlink_key_other in Ha by lia.
  assert (En : (key s (Parent n) <= key s n)%Z) by (apply Ho; lia).
  split.
  - intros j Hj Hj0 Hjs. rewrite unlink_heap_size in Hjs. fold last in Hjs.
    pose proof (Parent_lt j Hj0).
    rewrite (unlink_key_other j) by lia.
    assert (Ej : (key s (Parent j) <= key s j)%Z) by (apply Ho; lia).
    destruct (decide (Parent j = n)) as [E|E].
    + rewrite E in *. rewrite unlink_key_n. lia.
    + rewrite unlink_key_other by lia. exact Ej.
  - intros j _ Hj0 Hjs E. rewrite unlink_heap_size in Hjs. fold last in Hjs.
    pose proof (Parent_lt j Hj0).
    rewrite !unlink_key_other by lia.
    assert (Ej : (key s (Parent j) <= key s j)%Z) by (apply Ho; lia).
    rewrite E in Ej. lia.
Qed.

Lemma unlink_Heapify_ordered :
  above (unlink s n) n = false -> heap_ordered (Heapify (unlink s n) n).
Proof.
  intros Ha.
  destruct (decide (n = last)) as [E|Hne].
  { unfold Heapify. rewrite Heapify_rec_leaf by (rewrite unlink_heap_size; lia).
    intros j Hj0 Hjs. rewrite unlink_heap_size in Hjs. fold last in Hjs.
    pose proof (Parent_lt j Hj0).
    rewrite !unlink_key_other by lia. apply Ho; lia. }
  assert (Hnl : n < last) by lia.
  assert (Hin : forall m, heap_in s m) by (intros m j _ _; apply Ho).
  destruct (Heapify_sound (unlink s n) n unlink_inv) as (H1 & H2 & H3).
  { apply (heap_in_agree_below s); [rewrite unlink_heap_size; lia| |apply Hin].
    intros j Hj%sub_ge Hjs. rewrite unlink_heap_size in Hjs. fold last in Hjs.
    apply unlink_key_other; unfold LeftChild in *; lia. }
  { apply (heap_in_agree_below s); [rewrite unlink_heap_size; lia| |apply Hin].
    intros j Hj%sub_ge Hjs. rewrite unlink_heap_size in Hjs. fold last in Hjs.
    apply unlink_key_other; unfold RightChild in *; lia. }
  intros j Hj0 Hjs. rewrite Heapify_heap_size, unlink_heap_size in Hjs.
  fold last in Hjs. pose proof (Parent_lt j Hj0) as Hpj.
  destruct (decide (j = n)) as [->|Hjn].
  - rewrite H2 by (intros H%sub_ge; lia).
    rewrite unlink_key_other by lia.
    apply H3; [rewrite unlink_heap_size; exact Hnl|].
    intros i Hi His. rewrite unlink_heap_size in His. fold last in His.
    apply above_false in Ha as [?|Ha]; [lia|].
    rewrite unlink_key_n, unlink_key_other in Ha by lia.
    destruct (decide (i = n)) as [->|Hin']; [rewrite unlink_key_n; exact Ha|].
    rewrite unlink_key_other by lia.
    assert ((key s (Parent n) <= key s n)%Z) by (apply Ho; lia).
    assert ((key s n <= key s i)%Z)
      by (apply (heap_in_root_min s n i); [apply Hin|assumption|lia]).
    lia.
  - destruct (classic_sub n j) as [Hsub|Hsub].
    + apply H1; [exact Hsub|exact Hjn| exact Hj0|].
      rewrite Heapify_heap_size, unlink_heap_size. exact Hjs.
    + assert (~ sub n (Parent j)) by (intros H; apply Hsub, sub_child; assumption).
      rewrite !H2 by assumption.
      assert (Parent j <> n) by (intros E; apply H; rewrite E; constructor).
      rewrite !unlink_key_other by lia. apply Ho; lia.
Qed.

End Unlink.

(** ** Well-formed states and what the operations do to them *)

(** The values of the [u64] members are in range. *)
Definition in_range (s : Scheduler) : Prop :=
  (0 <= timestamp_now s < u64_modulus)%Z /\
  (forall p, p < kMaxEvents -> (0 <= ts_of s p < u64_modulus)%Z).

(** A pending event carries a callback of a client, or it is the event of
    [Reset], at the largest timestamp. *)
Definition armed (s : Scheduler) : Prop :=
  forall p, pending s p ->
    (exists id, cb_of s p = Client id) \/
    (cb_of s p = QueueEnd /\ ts_of s p = u64_max).

Record wf (s : Scheduler) : Prop := mkWf {
  wf_inv : inv s;
  wf_ordered : heap_ordered s;
  wf_range : in_range s;
  wf_armed : armed s
}.

Lemma wrap64_range x : (0 <= wrap64 x < u64_modulus)%Z.
Proof. unfold wrap64, u64_modulus. apply Z.mod_pos_bound. lia. Qed.

Lemma wrap64_small x : (0 <= x < u64_modulus)%Z -> wrap64 x = x.
Proof. unfold wrap64. apply Z.mod_small. Qed.

(** *** [Remove] and [Cancel] *)

Record Remove_post (s : Scheduler) (gone : nat) (s' : Scheduler) : Prop := {
  rm_inv : inv s';
  rm_ordered : heap_ordered s';
  rm_size : heap_size s' = heap_size s - 1;
  rm_now : timestamp_now s' = timestamp_now s;
  rm_ts : forall p, ts_of s' p = ts_of s p;
  rm_cb : forall p, cb_of s' p = cb_of s p;
  rm_pending : forall p, pending s' p <-> pending s p /\ p <> gone
}.

Lemma Remove_sound s n :
  inv s -> heap_ordered s -> n < heap_size s ->
  exists s', Remove s n = Ok s' /\ Remove_post s (heap s !!! n) s'.
Proof.
  intros Hs Ho Hn. pose proof (inv_size s Hs) as Hsz.
  rewrite Remove_eq by lia. eexists. split; [reflexivity|].
  pose proof (unlink_inv s n Hs Hn) as Hu.
  destruct (above (unlink s n) n) eqn:Ha.
  - assert (Hnl : n < heap_size (unlink s n)).
    { rewrite unlink_heap_size.
      destruct (decide (n = heap_size s - 1)) as [E|]; [|lia].
      rewrite unlink_last_stays in Ha by assumption. discriminate. }
    split.
    + apply sift_up_inv; [assumption|lia].
    + apply sift_up_ordered; [assumption|lia|]. apply unlink_sift_inv; assumption.
    + rewrite sift_up_heap_size. reflexivity.
    + rewrite sift_up_timestamp_now. reflexivity.
    + intros p. rewrite sift_up_ts_of. apply unlink_ts_of.
    + intros p. rewrite sift_up_cb_of. apply unlink_cb_of.
    + intros p. rewrite sift_up_pending by assumption.
      apply unlink_pending; assumption.
  - split.
    + apply Heapify_inv; assumption.
    + apply unlink_Heapify_ordered; assumption.
    + rewrite Heapify_heap_size. reflexivity.
    + rewrite Heapify_timestamp_now. reflexivity.
    + intros p. rewrite Heapify_ts_of. apply unlink_ts_of.
    + intros p. rewrite Heapify_cb_of. apply unlink_cb_of.
    + intros p. rewrite Heapify_pending by assumption.
      apply unlink_pending; assumption.
Qed.

Lemma Remove_post_wf s gone s' : wf s -> Remove_post s gone s' -> wf s'.
Proof.
  intros [Hi Ho [Hr1 Hr2] Ha] [].
  split; try assumption.
  - split; [congruence|]. intros p Hp. rewrite rm_ts0. apply Hr2, Hp.
  - intros p Hp%rm_pending0. rewrite rm_ts0, rm_cb0. apply Ha, Hp.
Qed.

Lemma Cancel_sound s e :
  inv s -> heap_ordered s -> pending s e ->
  exists s', Cancel s e = Ok s' /\ Remove_post s e s'.
Proof.
  intros Hs Ho [He Hh]. unfold Cancel. fold (handle_of s e).
  destruct (Remove_sound s (handle_of s e) Hs Ho Hh) as (s' & E & Hpost).
  exists s'. split; [exact E|].
  replace (heap s !!! handle_of s e) with e in Hpost; [exact Hpost|].
  symmetry. apply inv_slot; assumption.
Qed.

(** *** [Add] *)

Lemma arm_ts_of s e t cb p :
  ts_of (arm s e t cb) p =
  if decide (e = p /\ e < length (events s)) then t else ts_of s p.
Proof.
  unfold ts_of, arm. cbn. rewrite list_lookup_total_insert.
  case_decide; reflexivity.
Qed.

Lemma arm_cb_of s e t cb p :
  cb_of (arm s e t cb) p =
  if decide (e = p /\ e < length (events s)) then cb else cb_of s p.
Proof.
  unfold cb_of, arm. cbn. rewrite list_lookup_total_insert.
  case_decide; reflexivity.
Qed.

Lemma arm_handle_of s e t cb p : handle_of (arm s e t cb) p = handle_of s p.
Proof.
  unfold handle_of, arm. cbn. rewrite list_lookup_total_insert.
  case_decide as H; [destruct H as [-> _]|]; reflexivity.
Qed.

Lemma arm_inv s e t cb : inv s -> inv (arm s e t cb).
Proof.
  intros [He Hh Hsz Hp Hhd Hsl]. split; try assumption.
  - cbn. rewrite length_insert. exact He.
  - intros i Hi. rewrite arm_handle_of. apply Hhd, Hi.
  - intros p Hlt. rewrite arm_handle_of. apply Hsl, Hlt.
Qed.

Record Add_post (s : Scheduler) (t : Z) (cb : Callback)
    (s' : Scheduler) (event : nat) : Prop := {
  add_inv : inv s';
  add_ordered : heap_ordered s';
  add_size : heap_size s' = heap_size s + 1;
  add_now : timestamp_now s' = timestamp_now s;
  add_event : event = heap s !!! heap_size s;
  add_fresh : event < kMaxEvents /\ ~ pending s event;
  add_ts : ts_of s' event = t;
  add_cb : cb_of s' event = cb;
  add_ts_other : forall p, p <> event -> ts_of s' p = ts_of s p;
  add_cb_other : forall p, p <> event -> cb_of s' p = cb_of s p;
  add_pending : forall p, pending s' p <-> pending s p \/ p = event
}.

Lemma Add_sound s delay cb :
  inv s -> heap_ordered s -> heap_size s < kMaxEvents ->
  exists s' event,
    Add s delay cb = Ok (s', event) /\
    Add_post s (wrap64 (timestamp_now s + delay)) cb s' event.
Proof.
  intros Hs Ho Hlt. unfold Add. cbn [heap_size set_heap_size].
  replace (heap_size s + 1 <=? kMaxEvents) with true
    by (symmetry; apply Nat.leb_le; lia).
  cbn [Assert mbind Result_bind]. do 2 eexists. split; [reflexivity|].
  set (n := heap_size s). set (s1 := set_heap_size s (n + 1)).
  set (event := heap s1 !!! n).
  set (t := wrap64 _). set (s2 := arm s1 event t cb).
  assert (Hev : event < kMaxEvents) by (apply (inv_ptr s Hs); exact Hlt).
  assert (Hhe : handle_of s event = n) by (apply (inv_handle s Hs); exact Hlt).
  assert (Hs1 : inv s1) by (apply set_heap_size_inv; [assumption|lia]).
  assert (Hs2 : inv s2) by (apply arm_inv; assumption).
  assert (Hn2 : n < heap_size s2) by (cbn; lia).
  assert (Hlen : event < length (events s1)) by (cbn; rewrite (inv_events s Hs); exact Hev).
  assert (Hkey : forall j, j < n -> key s2 j = key s j).
  { intros j Hj. rewrite !key_ts_of. unfold s2. rewrite arm_ts_of.
    rewrite decide_False; [reflexivity|]. intros [E _].
    assert (handle_of s (heap s !!! j) = j) by (apply (inv_handle s Hs); lia).
    change (heap (arm s1 event t cb)) with (heap s) in E.
    change (heap s1 !!! j) with (heap s !!! j) in E.
    rewrite <- E in H. lia. }
  split.
  - apply sift_up_inv; [assumption|lia].
  - apply sift_up_ordered; [assumption|lia|]. split.
    + intros j Hj Hj0 Hjs. change (heap_size s2) with (n + 1) in Hjs.
      pose proof (Parent_lt j Hj0).
      rewrite !Hkey by lia. apply Ho; [assumption|fold n; lia].
    + intros j _ Hj0 Hjs E. change (heap_size s2) with (n + 1) in Hjs.
      pose proof (Parent_lt j Hj0). lia.
  - rewrite sift_up_heap_size. reflexivity.
  - rewrite sift_up_timestamp_now. reflexivity.
  - reflexivity.
  - split; [exact Hev|]. intros [_ H]. fold n in H. lia.
  - rewrite sift_up_ts_of. unfold s2. rewrite arm_ts_of.
    rewrite decide_True; [reflexivity|split; [reflexivity|exact Hlen]].
  - rewrite sift_up_cb_of. unfold s2. rewrite arm_cb_of.
    rewrite decide_True; [reflexivity|split; [reflexivity|exact Hlen]].
  - intros p Hp. rewrite sift_up_ts_of. unfold s2. rewrite arm_ts_of.
    rewrite decide_False; [reflexivity|]. intros [E _]. congruence.
  - intros p Hp. rewrite sift_up_cb_of. unfold s2. rewrite arm_cb_of.
    rewrite decide_False; [reflexivity|]. intros [E _]. congruence.
  - intros p. rewrite sift_up_pending by assumption.
    unfold pending. unfold s2. rewrite arm_handle_of.
    change (handle_of s1 p) with (handle_of s p).
    change (heap_size (arm s1 event t cb)) with (n + 1). fold n.
    split.
    + intros [Hp Hh]. destruct (decide (handle_of s p = n)) as [E|E].
      * right. rewrite <- (proj2 (inv_slot s Hs p Hp)). rewrite E. reflexivity.
      * left. split; [assumption|lia].
    + intros [[Hp Hh]| ->]; [split; [assumption|lia]|].
      split; [assumption|]. rewrite Hhe. lia.
Qed.

(** *** [Step] *)

(** The invocation [i] is the one the pending event [p] of [s] causes: its
    callback runs while [timestamp_now] is the timestamp of the event. *)
Definition fires (s : Scheduler) (p : nat) (i : Invocation) : Prop :=
  cb_of s p = Client (inv_callback i) /\
  inv_now i = ts_of s p /\
  inv_cycles_late i = 0%Z.

Record drained (s : Scheduler) (deadline : Z) (s' : Scheduler)
    (ps : list nat) (fired : list Invocation) : Prop := {
  dr_wf : wf s';
  dr_nodup : NoDup ps;
  dr_due : forall p, p ∈ ps <-> pending s p /\ (ts_of s p <= deadline)%Z;
  dr_fired : Forall2 (fires s) ps fired;
  dr_sorted : StronglySorted Z.le (ts_of s <$> ps);
  dr_left : forall p, pending s' p <-> pending s p /\ (deadline < ts_of s p)%Z;
  dr_ts : forall p, ts_of s' p = ts_of s p;
  dr_cb : forall p, cb_of s' p = cb_of s p
}.

Lemma pending_key s p :
  inv s -> pending s p -> exists i, i < heap_size s /\ ts_of s p = key s i.
Proof.
  intros Hs Hp. destruct (pending_inv_at s p Hs Hp) as (i & Hi & E).
  exists i. split; [exact Hi|]. rewrite key_ts_of, E. reflexivity.
Qed.

Lemma pending_root_min s p :
  inv s -> heap_ordered s -> pending s p -> (key s 0 <= ts_of s p)%Z.
Proof.
  intros Hs Ho Hp. destruct (pending_key s p Hs Hp) as (i & Hi & ->).
  apply heap_ordered_root_min; assumption.
Qed.

Lemma due_spec s deadline :
  due s deadline = true <-> (key s 0 <= deadline)%Z /\ 0 < heap_size s.
Proof. unfold due. rewrite andb_true_iff, Z.leb_le, Nat.ltb_lt. reflexivity. Qed.

Lemma due_false s deadline :
  due s deadline = false <-> (deadline < key s 0)%Z \/ heap_size s = 0.
Proof.
  unfold due. rewrite andb_false_iff, Z.leb_gt, Nat.ltb_ge. lia.
Qed.

Lemma set_timestamp_now_wf s t :
  wf s -> (0 <= t < u64_modulus)%Z -> wf (set_timestamp_now s t).
Proof.
  intros [[] Ho [Hr1 Hr2] Ha] Ht. split.
  - split; assumption.
  - exact Ho.
  - split; [exact Ht|exact Hr2].
  - exact Ha.
Qed.

(** One turn of the loop: the root fires and leaves the heap. *)
Lemma Step_body_sound s tr id :
  wf s -> 0 < heap_size s -> cb_of s (heap s !!! 0) = Client id ->
  exists s',
    Step_body (s, tr) =
      Ok (s', tr ++ [mkInvocation id (key s 0) 0]) /\
    wf s' /\
    Remove_post (set_timestamp_now s (key s 0)) (heap s !!! 0) s'.
Proof.
  intros Hw Hsz Hcb. pose proof Hw as [Hs Ho [Hr1 Hr2] Ha].
  unfold Step_body.
  set (e := heap s !!! 0) in *.
  set (s1 := set_timestamp_now s (timestamp (events s !!! e))).
  change (callback (events s1 !!! e)) with (cb_of s e). rewrite Hcb.
  cbn [invoke mbind Result_bind].
  assert (He : e < kMaxEvents) by (apply (inv_ptr s Hs); unfold kMaxEvents; lia).
  assert (Hw1 : wf s1) by (apply set_timestamp_now_wf; [assumption|apply Hr2, He]).
  change (handle (events s1 !!! e)) with (handle_of s e).
  assert (Hh : handle_of s e = 0)
    by (apply (inv_handle s Hs); unfold kMaxEvents; lia).
  rewrite Hh.
  destruct (Remove_sound s1 0 (wf_inv _ Hw1) (wf_ordered _ Hw1) Hsz)
    as (s' & E & Hpost).
  rewrite E. cbn [mbind Result_bind]. exists s'.
  split; [reflexivity|]. split.
  - eapply Remove_post_wf; eassumption.
  - exact Hpost.
Qed.

(** The loop of [Step] on a well-formed state: it stops at the assertion
    of the event of [Reset] when that event is due, and otherwise drains
    the events that are due. *)
Definition queue_end_due (s : Scheduler) (deadline : Z) : Prop :=
  exists p, pending s p /\ (ts_of s p <= deadline)%Z /\ cb_of s p = QueueEnd.

Lemma Step_cases s tr deadline :
  wf s ->
  (Step (s, tr) deadline = Fatal EndOfQueue /\ queue_end_due s deadline) \/
  (exists s' ps fired,
    Step (s, tr) deadline = Ok (s', tr ++ fired) /\
    drained s deadline s' ps fired /\
    (timestamp_now s' <= Z.max (timestamp_now s) deadline)%Z).
Proof.
  remember (heap_size s) as k eqn:Hk. revert s tr Hk.
  induction k as [k IH] using lt_wf_ind. intros s tr Hk Hw.
  pose proof Hw as [Hs Ho Hr Ha].
  rewrite Step_eq. cbn [fst]. destruct (due s deadline) eqn:Hd.
  - apply due_spec in Hd as [Hroot Hsz].
    set (e := heap s !!! 0).
    assert (Hpe : pending s e) by (apply pending_at; assumption).
    assert (Hte : ts_of s e = key s 0) by reflexivity.
    destruct (Ha e Hpe) as [[id Hcb]|[Hcb _]].
    2:{ left. split; [|exists e; split; [exact Hpe|split; [lia|exact Hcb]]].
        unfold Step_body. fold e.
        change (callback (events (set_timestamp_now s
                  (timestamp (events s !!! e))) !!! e)) with (cb_of s e).
        rewrite Hcb. reflexivity. }
    destruct (Step_body_sound s tr id Hw Hsz Hcb) as (s1 & E & Hw1 & H1).
    rewrite E. cbn [mbind Result_bind].
    destruct H1 as [_ _ Z1 N1 T1 C1 P1].
    change (ts_of (set_timestamp_now s (key s 0))) with (ts_of s) in T1.
    change (cb_of (set_timestamp_now s (key s 0))) with (cb_of s) in C1.
    change (pending (set_timestamp_now s (key s 0))) with (pending s) in P1.
    change (heap_size (set_timestamp_now s (key s 0))) with (heap_size s) in Z1.
    change (timestamp_now (set_timestamp_now s (key s 0))) with (key s 0) in N1.
    fold e in P1.
    destruct (IH (heap_size s1) ltac:(lia) s1
                (tr ++ [mkInvocation id (key s 0) 0]) eq_refl Hw1)
      as [[E' (p & Hp & Ht & Hc)]|(s' & ps & fired & E' & D & Hnow)].
    { left. split; [exact E'|]. exists p.
      rewrite T1 in Ht. rewrite C1 in Hc. apply P1 in Hp. tauto. }
    right. exists s', (e :: ps), (mkInvocation id (key s 0) 0 :: fired).
    split; [rewrite E', <- app_assoc; reflexivity|].
    destruct D as [Dw Dn Dd Df Ds Dl Dt Dc]. split; [split|].
    + exact Dw.
    + constructor; [|exact Dn]. intros [Hin _]%Dd. apply P1 in Hin. tauto.
    + intros p. rewrite elem_of_cons, Dd, P1, T1. split.
      * intros [->|[[Hp _] Ht]]; (split; [assumption|lia]).
      * intros [Hp Ht]. destruct (decide (p = e)); [left; assumption|right; tauto].
    + constructor.
      * split; [exact Hcb|split; reflexivity].
      * eapply Forall2_impl; [exact Df|]. intros p i (F1 & F2 & F3).
        rewrite C1 in F1. rewrite T1 in F2. split; [|split]; assumption.
    + assert (Eq : ts_of s <$> ps = ts_of s1 <$> ps).
      { apply list_fmap_ext. intros _ p _. symmetry. apply T1. }
      rewrite fmap_cons, Eq. constructor; [exact Ds|].
      apply Forall_fmap, Forall_forall. intros p [[Hp _]%P1 _]%Dd.
      cbn. rewrite Hte, T1. apply pending_root_min; assumption.
    + intros p. rewrite Dl, P1, T1. split; [tauto|].
      intros [Hp Ht]. split; [split; [exact Hp|]|exact Ht].
      intros ->. lia.
    + intros p. rewrite Dt. apply T1.
    + intros p. rewrite Dc. apply C1.
    + rewrite N1 in Hnow. lia.
  - right. exists s, [], []. rewrite app_nil_r. split; [reflexivity|].
    apply due_false in Hd.
    assert (Hnone : forall p, pending s p -> (deadline < ts_of s p)%Z).
    { intros p Hp. destruct Hd as [Hd|Hd].
      - pose proof (pending_root_min s p Hs Ho Hp). lia.
      - destruct Hp as [_ Hp]. lia. }
    split; [split|lia].
    + exact Hw.
    + constructor.
    + intros p. rewrite elem_of_nil. split; [tauto|].
      intros [Hp Ht]. specialize (Hnone p Hp). lia.
    + constructor.
    + constructor.
    + intros p. split; [|tauto]. intros Hp. split; [exact Hp|apply Hnone, Hp].
    + reflexivity.
    + reflexivity.
Qed.

(** *** [AddCycles] *)

Lemma AddCycles_cases s tr cycles :
  wf s ->
  let deadline := wrap64 (timestamp_now s + cycles) in
  (AddCycles (s, tr) cycles = Fatal EndOfQueue /\ queue_end_due s deadline) \/
  (exists s' ps fired,
    AddCycles (s, tr) cycles = Ok (s', tr ++ fired) /\
    drained s deadline s' ps fired /\
    timestamp_now s' = deadline).
Proof.
  intros Hw deadline. unfold AddCycles. cbn [fst]. fold deadline.
  destruct (Step_cases s tr deadline Hw)
    as [[E Hq]|(s' & ps & fired & E & D & _)]; rewrite E.
  - left. split; [reflexivity|exact Hq].
  - right. exists (set_timestamp_now s' deadline), ps, fired.
    split; [reflexivity|]. split; [|reflexivity].
    destruct D. split; try assumption.
    apply set_timestamp_now_wf; [assumption|apply wrap64_range].
Qed.

(** *** The constructor and [Reset] *)

Lemma Add_full s delay cb :
  kMaxEvents <= heap_size s -> Add s delay cb = Fatal MaxEvents.
Proof.
  intros H. unfold Add. cbn [heap_size set_heap_size].
  replace (heap_size s + 1 <=? kMaxEvents) with false
    by (symmetry; apply Nat.leb_gt; lia).
  reflexivity.
Qed.

Lemma Reset_sound s :
  inv s -> (forall p, p < kMaxEvents -> (0 <= ts_of s p < u64_modulus)%Z) ->
  exists s', Reset s = Ok s' /\ wf s' /\ heap_size s' = 1 /\ timestamp_now s' = 0%Z.
Proof.
  intros Hs Hr. unfold Reset.
  set (s0 := set_timestamp_now (set_heap_size s 0) 0).
  assert (Hs0 : inv s0).
  { destruct Hs. split; try assumption. cbn. lia. }
  assert (Ho0 : heap_ordered s0) by (intros j _ Hj; cbn in Hj; lia).
  destruct (Add_sound s0 u64_max QueueEnd Hs0 Ho0 ltac:(cbn; unfold kMaxEvents; lia))
    as (s' & e & E & []).
  rewrite E. cbn [mbind Result_bind]. exists s'.
  split; [reflexivity|]. split; [|split; [exact add_size0|exact add_now0]].
  split; [assumption..| |].
  - split; [rewrite add_now0; cbn; unfold u64_modulus; lia|].
    intros p Hp. destruct (decide (p = e)) as [->|Hne].
    + rewrite add_ts0. apply wrap64_range.
    + rewrite add_ts_other0 by assumption. apply Hr, Hp.
  - intros p [Hp| ->]%add_pending0.
    + destruct Hp as [_ Hp]. cbn in Hp. lia.
    + right. split; [assumption|]. rewrite add_ts0. reflexivity.
Qed.

Definition initial : Scheduler :=
  mkScheduler fresh_store (seq 0 kMaxEvents) 0 0.

Lemma initial_event p :
  p < kMaxEvents -> events initial !!! p = mkEvent Empty p 0.
Proof.
  intros Hp. cbn [events initial]. unfold fresh_store.
  change (((fun i => mkEvent Empty i 0) <$> seq 0 kMaxEvents) !!! p = mkEvent Empty p 0).
  rewrite (list_lookup_total_fmap (fun i => mkEvent Empty i 0))
    by (rewrite length_seq; exact Hp).
  rewrite lookup_total_seq_lt by exact Hp. reflexivity.
Qed.

Lemma initial_inv : inv initial.
Proof.
  assert (Hh : forall i, i < kMaxEvents -> heap initial !!! i = i).
  { intros i Hi. cbn [heap initial]. rewrite lookup_total_seq_lt by exact Hi.
    reflexivity. }
  split.
  - reflexivity.
  - reflexivity.
  - cbn. lia.
  - intros i Hi. rewrite Hh by assumption. exact Hi.
  - intros i Hi. unfold handle_of. rewrite Hh, initial_event by assumption.
    reflexivity.
  - intros p Hp. unfold handle_of. rewrite initial_event by assumption.
    cbn [handle]. split; [exact Hp|apply Hh, Hp].
Qed.

Lemma construct_sound :
  exists s, construct = Ok s /\ wf s /\ heap_size s = 1 /\ timestamp_now s = 0%Z.
Proof.
  apply (Reset_sound initial initial_inv).
  intros p Hp. unfold ts_of. rewrite initial_event by assumption.
  cbn. unfold u64_modulus. lia.
Qed.

(** *** Every reachable state is well-formed *)

Lemma is_pending_spec s e : is_pending s e = true <-> pending s e.
Proof.
  unfold is_pending, pending, handle_of.
  rewrite andb_true_iff, !Nat.ltb_lt. reflexivity.
Qed.

Lemma exec_wf op m m' :
  wf m.1 -> allowed m.1 op = true -> exec op m = Ok m' -> wf m'.1.
Proof.
  destruct m as [s tr]. cbn [fst snd]. intros Hw Hal.
  pose proof Hw as [Hs Ho [Hr1 Hr2] Ha].
  destruct op as [|delay id|e|cycles]; cbn [exec fst snd].
  - destruct (Reset_sound s Hs Hr2) as (s' & E & Hw' & _). rewrite E.
    intros [= <-]. exact Hw'.
  - destruct (decide (heap_size s < kMaxEvents)) as [Hlt|Hge].
    + destruct (Add_sound s delay (Client id) Hs Ho Hlt) as (s' & ev & E & []).
      rewrite E. intros [= <-]. cbn [fst]. split; [assumption..| |].
      * split; [congruence|]. intros p Hp.
        destruct (decide (p = ev)) as [->|Hne].
        -- rewrite add_ts0. apply wrap64_range.
        -- rewrite add_ts_other0 by assumption. apply Hr2, Hp.
      * intros p [Hp| ->]%add_pending0.
        -- destruct (decide (p = ev)) as [->|Hne]; [tauto|].
           rewrite add_ts_other0, add_cb_other0 by assumption. apply Ha, Hp.
        -- left. exists id. assumption.
    + rewrite Add_full by lia. discriminate.
  - cbn [allowed] in Hal. apply is_pending_spec in Hal.
    destruct (Cancel_sound s e Hs Ho Hal) as (s' & E & Hpost). rewrite E.
    intros [= <-]. eapply Remove_post_wf; eassumption.
  - destruct (AddCycles_cases s tr cycles Hw)
      as [[E _]|(s' & ps & fired & E & D & _)]; rewrite E; [discriminate|].
    intros [= <-]. apply D.
Qed.

Lemma reachable_wf m : reachable m -> wf m.1.
Proof.
  induction 1 as [s E|m op m' _ IH Hal E].
  - destruct construct_sound as (s' & E' & Hw & _).
    rewrite E in E'. injection E' as ->. exact Hw.
  - eapply exec_wf; eassumption.
Qed.

Lemma run_reachable ops m m' : reachable m -> run ops m = Some m' -> reachable m'.
Proof.
  revert m. induction ops as [|op ops IH]; intros m Hm; cbn [run].
  - intros [= <-]. exact Hm.
  - destruct (allowed m.1 op) eqn:Hal; [|discriminate].
    destruct (exec op m) as [m1|] eqn:E; [|discriminate].
    apply IH. eapply reach_call; eassumption.
Qed.

Lemma session_reachable ops m : session ops = Some m -> reachable m.
Proof.
  unfold session. destruct construct as [s|] eqn:E; [|discriminate].
  apply run_reachable. apply reach_new, E.
Qed.

(** *** What a call does to the trace and to the pending callbacks *)

Definition has_callback (s : Scheduler) (c : Callback) : Prop :=
  exists p, pending s p /\ cb_of s p = c.

Lemma Forall2_fires_callback s ps fired i :
  (forall p, p ∈ ps -> pending s p) -> Forall2 (fires s) ps fired ->
  i ∈ fired -> has_callback s (Client (inv_callback i)).
Proof.
  intros Hps HF Hi. apply list_elem_of_lookup in Hi as [k Hk].
  destruct (Forall2_lookup_r _ _ _ _ _ HF Hk) as (p & Hp & F1 & _).
  exists p. split; [|exact F1]. apply Hps. eapply list_elem_of_lookup_2, Hp.
Qed.

Lemma Forall2_fires_now s ps fired :
  Forall2 (fires s) ps fired -> inv_now <$> fired = ts_of s <$> ps.
Proof.
  induction 1 as [|p i ps fired (_ & F2 & _) _ IH]; [reflexivity|].
  rewrite !fmap_cons, IH, F2. reflexivity.
Qed.

Lemma exec_effect op m m' :
  wf m.1 -> allowed m.1 op = true -> exec op m = Ok m' ->
  exists fired,
    m'.2 = m.2 ++ fired /\
    (forall i, i ∈ fired -> has_callback m.1 (Client (inv_callback i))) /\
    (forall id, has_callback m'.1 (Client id) ->
       has_callback m.1 (Client id) \/ exists delay, op = OpAdd delay id).
Proof.
  destruct m as [s tr]. cbn [fst snd]. intros Hw Hal.
  pose proof Hw as [Hs Ho [Hr1 Hr2] Ha].
  destruct op as [|delay id|e|cycles]; cbn [exec fst snd].
  - unfold Reset.
    set (s0 := set_timestamp_now (set_heap_size s 0) 0).
    assert (Hs0 : inv s0) by (destruct Hs; split; try assumption; cbn; lia).
    assert (Ho0 : heap_ordered s0) by (intros j _ Hj; cbn in Hj; lia).
    destruct (Add_sound s0 u64_max QueueEnd Hs0 Ho0 ltac:(cbn; unfold kMaxEvents; lia))
      as (s' & ev & E & []).
    rewrite E. cbn [mbind Result_bind]. intros [= <-]. cbn [fst snd]. exists [].
    rewrite app_nil_r. split; [reflexivity|]. split.
    + intros i Hi. apply elem_of_nil in Hi. contradiction.
    + intros id (p & [Hp| ->]%add_pending0 & Hc).
      * destruct Hp as [_ Hp]. cbn in Hp. lia.
      * congruence.
  - destruct (decide (heap_size s < kMaxEvents)) as [Hlt|Hge];
      [|rewrite Add_full by lia; discriminate].
    destruct (Add_sound s delay (Client id) Hs Ho Hlt) as (s' & ev & E & []).
    rewrite E. intros [= <-]. cbn [fst snd]. exists []. rewrite app_nil_r.
    split; [reflexivity|]. split.
    + intros i Hi. apply elem_of_nil in Hi. contradiction.
    + intros id' (p & Hp%add_pending0 & Hc).
      destruct (decide (p = ev)) as [->|Hne].
      * right. exists delay. congruence.
      * left. exists p. rewrite add_cb_other0 in Hc by assumption. tauto.
  - cbn [allowed] in Hal. apply is_pending_spec in Hal.
    destruct (Cancel_sound s e Hs Ho Hal) as (s' & E & []). rewrite E.
    intros [= <-]. cbn [fst snd]. exists []. rewrite app_nil_r.
    split; [reflexivity|]. split.
    + intros i Hi. apply elem_of_nil in Hi. contradiction.
    + intros id (p & Hp%rm_pending0 & Hc). left. exists p.
      rewrite rm_cb0 in Hc. tauto.
  - destruct (AddCycles_cases s tr cycles Hw)
      as [[E _]|(s' & ps & fired & E & D & _)]; rewrite E; [discriminate|].
    intros [= <-]. cbn [fst snd]. exists fired. split; [reflexivity|]. destruct D. split.
    + intros i Hi. eapply Forall2_fires_callback; [|eassumption..].
      intros p Hp%dr_due0. tauto.
    + intros id (p & Hp%dr_left0 & Hc). left. exists p.
      rewrite dr_cb0 in Hc. tauto.
Qed.

(** A callback that no pending event carries does not run, whatever the
    client calls next, as long as it is not added again. *)
Lemma run_never_fires id ops : forall m m',
  wf m.1 -> ~ has_callback m.1 (Client id) ->
  (forall delay, OpAdd delay id ∉ ops) ->
  run ops m = Some m' ->
  exists fired, m'.2 = m.2 ++ fired /\ id ∉ inv_callback <$> fired.
Proof.
  induction ops as [|op ops IH]; intros m m' Hw Hno Hops; cbn [run].
  - intros [= <-]. exists []. rewrite app_nil_r. split; [reflexivity|].
    apply not_elem_of_nil.
  - destruct (allowed m.1 op) eqn:Hal; [|discriminate].
    destruct (exec op m) as [m1|] eqn:E; [|discriminate]. intros Hrun.
    destruct (exec_effect op m m1 Hw Hal E) as (f1 & E1 & Hf1 & Hcb).
    destruct (IH m1 m') as (f2 & E2 & Hf2).
    + eapply exec_wf; eassumption.
    + intros [H|[delay ->]]%Hcb; [exact (Hno H)|].
      apply (Hops delay). left.
    + intros delay Hin. apply (Hops delay). right. exact Hin.
    + exact Hrun.
    + exists (f1 ++ f2). split; [rewrite E2, E1, app_assoc; reflexivity|].
      rewrite fmap_app, elem_of_app. intros [Hin|Hin]; [|exact (Hf2 Hin)].
      apply list_elem_of_fmap in Hin as (i & -> & Hi). exact (Hno (Hf1 i Hi)).
Qed.

(** *** Calls of any client *)

(** The array, the event objects and the order of the heap: what holds
    whatever the client does with the pointers it was given. *)
Definition shaped (s : Scheduler) : Prop := inv s /\ heap_ordered s.

Lemma wf_shaped s : wf s -> shaped s.
Proof. intros []. split; assumption. Qed.

(** [Remove] at an index that is not in the heap: the last event leaves the
    heap instead, and may come back in on the way up from [n]. *)
Lemma Remove_stale_shaped s n :
  shaped s -> 0 < heap_size s -> heap_size s <= n < kMaxEvents ->
  exists s', Remove s n = Ok s' /\ shaped s' /\ heap_size s' = heap_size s - 1.
Proof.
  intros [Hs Ho] Hsz Hn. pose proof (inv_size s Hs) as Hle.
  pose proof (inv_heap s Hs) as Hlen.
  rewrite Remove_eq by lia. eexists. split; [reflexivity|].
  set (u := unlink s n).
  assert (Hu : inv u)
    by (apply Swap_inv; [apply set_heap_size_inv| |]; assumption || lia).
  assert (K : forall k, k < heap_size s - 1 -> key u k = key s k).
  { intros k Hk. unfold u, unlink. rewrite Swap_key by (cbn; lia).
    rewrite transp_other by lia. reflexivity. }
  assert (E : forall j, j <> n -> edge u j).
  { intros j _ Hj0 Hjs. change (heap_size u) with (heap_size s - 1) in Hjs.
    pose proof (Parent_lt j Hj0). rewrite !K by lia. apply Ho; lia. }
  destruct (above u n) eqn:Ha.
  - split; [split|rewrite sift_up_heap_size; reflexivity].
    + apply sift_up_inv; [assumption|lia].
    + apply sift_up_ordered; [assumption|lia|]. split; [exact E|].
      intros j _ Hj0 Hjs Hp. change (heap_size u) with (heap_size s - 1) in Hjs.
      pose proof (Parent_lt j Hj0). lia.
  - unfold Heapify.
    rewrite Heapify_rec_leaf by (change (heap_size u) with (heap_size s - 1); lia).
    split; [split; [exact Hu|]|reflexivity].
    intros j. destruct (decide (j = n)) as [->|Hj]; [|apply E, Hj].
    intros _ Hjs. change (heap_size u) with (heap_size s - 1) in Hjs. lia.
Qed.

Lemma Cancel_shaped s e s' :
  shaped s -> e < kMaxEvents -> Cancel s e = Ok s' -> shaped s'.
Proof.
  intros Hsh He E. pose proof Hsh as [Hs Ho].
  unfold Cancel in E. fold (handle_of s e) in E.
  destruct (inv_slot s Hs e He) as [Hh _].
  destruct (Remove_heap_size _ _ _ E) as [Hsz _].
  destruct (decide (handle_of s e < heap_size s)) as [Hlt|Hge].
  - destruct (Remove_sound s _ Hs Ho Hlt) as (s1 & E1 & []).
    rewrite E in E1. injection E1 as <-. split; assumption.
  - destruct (Remove_stale_shaped s (handle_of s e) Hsh Hsz ltac:(lia))
      as (s1 & E1 & Hsh1 & _).
    rewrite E in E1. injection E1 as <-. exact Hsh1.
Qed.

Lemma Add_shaped s delay cb s' event :
  shaped s -> Add s delay cb = Ok (s', event) -> shaped s'.
Proof.
  intros [Hs Ho] E.
  destruct (decide (heap_size s < kMaxEvents)) as [Hlt|Hge];
    [|rewrite Add_full in E by lia; discriminate].
  destruct (Add_sound s delay cb Hs Ho Hlt) as (s1 & e1 & E1 & []).
  rewrite E in E1. injection E1 as <- <-. split; assumption.
Qed.

Lemma Reset_shaped s s' : inv s -> Reset s = Ok s' -> shaped s'.
Proof.
  intros Hs. unfold Reset.
  set (s0 := set_timestamp_now (set_heap_size s 0) 0).
  assert (Hs0 : shaped s0).
  { split; [destruct Hs; split; try assumption; cbn; lia|].
    intros j _ Hj. cbn in Hj. lia. }
  destruct (Add s0 u64_max QueueEnd) as [[s1 e]|] eqn:E; [|discriminate].
  cbn [mbind Result_bind]. intros [= <-]. eapply Add_shaped; eassumption.
Qed.

Lemma Step_body_shaped m m' : shaped m.1 -> Step_body m = Ok m' -> shaped m'.1.
Proof.
  destruct m as [s tr]. cbn [fst]. intros [Hs Ho]. unfold Step_body.
  set (e := heap s !!! 0).
  set (s1 := set_timestamp_now s (timestamp (events s !!! e))).
  destruct (invoke _ _ _ _) as [tr'|]; [|discriminate]. cbn [mbind Result_bind].
  destruct (Remove s1 _) as [s2|] eqn:E; [|discriminate].
  cbn [mbind Result_bind]. intros [= <-]. cbn [fst].
  destruct (Remove_heap_size _ _ _ E) as [Hsz _].
  change (heap_size s1) with (heap_size s) in Hsz.
  change (handle (events s1 !!! e)) with (handle_of s e) in E.
  assert (Hh : handle_of s e = 0)
    by (apply (inv_handle s Hs); unfold kMaxEvents; lia).
  rewrite Hh in E.
  assert (Hs1 : inv s1) by (destruct Hs; split; assumption).
  destruct (Remove_sound s1 0 Hs1 Ho Hsz) as (s3 & E3 & []).
  rewrite E in E3. injection E3 as <-. split; assumption.
Qed.

Lemma Step_shaped m deadline m' :
  shaped m.1 -> Step m deadline = Ok m' -> shaped m'.1.
Proof.
  remember (heap_size m.1) as k eqn:Hk. revert m Hk.
  induction k as [k IH] using lt_wf_ind. intros m Hk Hsh.
  rewrite Step_eq. destruct (due m.1 deadline); [|intros [= <-]; exact Hsh].
  destruct (Step_body m) as [m1|] eqn:E; [|discriminate].
  cbn [mbind Result_bind].
  apply (IH (heap_size m1.1)); [|reflexivity|].
  - subst k. eapply Step_body_heap_size, E.
  - eapply Step_body_shaped; eassumption.
Qed.

Lemma exec_shaped op m m' :
  shaped m.1 -> typed op = true -> exec op m = Ok m' -> shaped m'.1.
Proof.
  destruct m as [s tr]. cbn [fst snd]. intros Hsh Hty.
  destruct op as [|delay id|e|cycles]; cbn [exec fst snd].
  - destruct (Reset s) as [s1|] eqn:E; [|discriminate]. intros [= <-].
    eapply Reset_shaped; [apply Hsh|exact E].
  - destruct (Add s delay (Client id)) as [[s1 e]|] eqn:E; [|discriminate].
    intros [= <-]. eapply Add_shaped; eassumption.
  - destruct (Cancel s e) as [s1|] eqn:E; [|discriminate]. intros [= <-].
    cbn [typed] in Hty. apply Nat.ltb_lt in Hty.
    eapply Cancel_shaped; eassumption.
  - unfold AddCycles. cbn [fst].
    destruct (Step (s, tr) _) as [[s1 tr1]|] eqn:E; [|discriminate].
    intros [= <-]. apply Step_shaped in E; [|exact Hsh].
    destruct E as [[] Ho]. split; [split|]; assumption.
Qed.

Lemma attainable_shaped m : attainable m -> shaped m.1.
Proof.
  induction 1 as [s E|m op m' _ IH Hty E].
  - destruct construct_sound as (s' & E' & Hw & _).
    rewrite E in E'. injection E' as ->. apply wf_shaped, Hw.
  - eapply exec_shaped; eassumption.
Qed.

Lemma allowed_typed s op : allowed s op = true -> typed op = true.
Proof.
  destruct op; cbn [allowed typed]; try (intros H; exact H).
  unfold is_pending. intros [H _]%andb_prop. exact H.
Qed.

Lemma reachable_attainable m : reachable m -> attainable m.
Proof.
  induction 1 as [s E|m op m' _ IH Hal E].
  - apply attain_new, E.
  - eapply attain_call; [exact IH|eapply allowed_typed, Hal|exact E].
Qed.

(** *** The capacity assertion *)

Lemma Step_body_abort m f : Step_body m = Fatal f -> f <> MaxEvents.
Proof.
  destruct m as [s tr]. unfold Step_body.
  destruct (callback _); cbn [invoke Assert mbind Result_bind].
  - intros [= <-]. discriminate.
  - intros [= <-]. discriminate.
  - unfold Remove. destruct (_ || _); [intros [= <-]; discriminate|].
    cbv zeta. destruct (above _ _); discriminate.
Qed.

Lemma Step_abort m deadline f : Step m deadline = Fatal f -> f <> MaxEvents.
Proof.
  remember (heap_size m.1) as k eqn:Hk. revert m Hk.
  induction k as [k IH] using lt_wf_ind. intros m Hk.
  rewrite Step_eq. destruct (due m.1 deadline); [|discriminate].
  destruct (Step_body m) as [m1|f1] eqn:E; cbn [mbind Result_bind].
  - apply (IH (heap_size m1.1)); [|reflexivity].
    subst k. eapply Step_body_heap_size, E.
  - intros [= <-]. eapply Step_body_abort, E.
Qed.

Lemma Add_room s delay cb :
  heap_size s < kMaxEvents -> exists r, Add s delay cb = Ok r.
Proof.
  intros H. unfold Add. cbn [heap_size set_heap_size].
  replace (heap_size s + 1 <=? kMaxEvents) with true
    by (symmetry; apply Nat.leb_le; lia).
  eexists. reflexivity.
Qed.

Lemma exec_MaxEvents op m :
  exec op m = Fatal MaxEvents ->
  kMaxEvents <= heap_size m.1 /\ exists delay id, op = OpAdd delay id.
Proof.
  destruct m as [s tr]. destruct op as [|delay id|e|cycles]; cbn [exec fst snd].
  - unfold Reset.
    destruct (Add_room (set_timestamp_now (set_heap_size s 0) 0) u64_max QueueEnd)
      as [[s1 e1] E]; [cbn; unfold kMaxEvents; lia|].
    rewrite E. discriminate.
  - destruct (decide (heap_size s < kMaxEvents)) as [Hlt|Hge].
    + destruct (Add_room s delay (Client id) Hlt) as [[s1 e1] E]. rewrite E.
      discriminate.
    + intros _. split; [lia|eauto].
  - unfold Cancel, Remove. destruct (_ || _); [discriminate|].
    cbv zeta. destruct (above _ _); discriminate.
  - unfold AddCycles.
    destruct (Step (s, tr) _) as [[s1 tr1]|f] eqn:E; [discriminate|].
    cbn [mbind Result_bind]. intros [= ->]. apply Step_abort in E. congruence.
Qed.

(** *** The number of pending events *)

#[global] Instance pending_dec s p : Decision (pending s p).
Proof. unfold pending. apply _. Defined.

Lemma pending_count s :
  inv s -> length (filter (pending s) (seq 0 kMaxEvents)) = heap_size s.
Proof.
  intros Hs. pose proof (inv_size s Hs) as Hsz.
  transitivity (length ((fun i => heap s !!! i) <$> seq 0 (heap_size s)));
    [|rewrite length_fmap, length_seq; reflexivity].
  apply Permutation_length, NoDup_Permutation.
  - apply NoDup_filter, NoDup_seq.
  - apply NoDup_fmap_2_strong; [|apply NoDup_seq].
    intros i j [_ Hi]%elem_of_seq [_ Hj]%elem_of_seq E.
    rewrite <- (inv_handle s Hs i), <- (inv_handle s Hs j) by lia.
    rewrite E. reflexivity.
  - intros p. rewrite list_elem_of_filter, elem_of_seq, list_elem_of_fmap. split.
    + intros [Hp _]. destruct (pending_inv_at s p Hs Hp) as (i & Hi & E).
      exists i. split; [congruence|]. apply elem_of_seq. lia.
    + intros (i & -> & [_ Hi]%elem_of_seq).
      pose proof (pending_at s i Hs ltac:(lia)) as Hp.
      split; [exact Hp|]. destruct Hp. lia.
Qed.

(** *** [AddCycles] below the timestamp of the event of [Reset] *)

Lemma AddCycles_drains s tr cycles :
  wf s ->
  let deadline := wrap64 (timestamp_now s + cycles) in
  (deadline < u64_max)%Z ->
  exists s' ps fired,
    AddCycles (s, tr) cycles = Ok (s', tr ++ fired) /\
    drained s deadline s' ps fired /\
    timestamp_now s' = deadline.
Proof.
  intros Hw deadline Hd.
  destruct (AddCycles_cases s tr cycles Hw) as [[_ (p & Hp & Ht & Hc)]|H];
    [|exact H].
  destruct (wf_armed s Hw p Hp) as [[id Hid]|[_ Hmax]]; [congruence|].
  fold deadline in Ht. lia.
Qed.

(** ** The properties of the specification *)

Definition delays_then_advance (delays : list Z) (cycles : Z) : list Op :=
  ((fun d => OpAdd d (Z.to_nat d)) <$> delays) ++ [OpAddCycles cycles].

Definition trace_of (ops : list Op) : option (list Invocation) :=
  snd <$> session ops.

(** C2.  After any sequence of calls that return -- [Add] (which returns
    only while fewer than 64 events are pending) and [Cancel] of any event
    pointer, and [AddCycles] and [Reset] as well -- the heap array is a
    min-heap: an index below [heap_size] with a child below [heap_size] has
    a timestamp at most the child's. *)
Theorem heap_property_holds :
  forall m i j,
    attainable m -> i < heap_size m.1 -> j < heap_size m.1 ->
    j = LeftChild i \/ j = RightChild i ->
    (key m.1 i <= key m.1 j)%Z.
Proof.
  intros m i j Hr Hi Hj Hc. apply attainable_shaped in Hr as [_ Ho].
  assert (E : Parent j = i)
    by (destruct Hc as [-> | ->]; [apply Parent_LeftChild|apply Parent_RightChild]).
  rewrite <- E. apply Ho; [|exact Hj].
  destruct Hc as [-> | ->]; unfold LeftChild, RightChild; lia.
Qed.

Lemma heap_property_holds_witness :
  exists m,
    session [OpAdd 5 5; OpAdd 3 3; OpAdd 8 8; OpAdd 1 1; OpCancel 2] = Some m /\
    heap_size m.1 = 4 /\ (key m.1 1 <= key m.1 3)%Z.
Proof.
  eexists. split; [vm_compute; reflexivity|]. split; [reflexivity|].
  apply heap_property_holds.
  - apply reachable_attainable.
    apply (session_reachable [OpAdd 5 5; OpAdd 3 3; OpAdd 8 8; OpAdd 1 1; OpCancel 2]).
    vm_compute. reflexivity.
  - vm_compute. lia.
  - vm_compute. lia.
  - left. reflexivity.
Defined.



(** C9.  After the constructor and after every call that returns, of
    [Add], [Cancel], [AddCycles] or [Reset], [heap[i]->handle] is [i] for
    each of the 64 slots; so the handle of a pending event leads back to
    that event, and [Cancel] takes exactly that event out of the pending
    ones, with one [Remove] at its handle. *)
Theorem handle_tracks_index :
  forall m,
    attainable m ->
    (forall i, i < kMaxEvents -> handle (deref m.1 i) = i) /\
    (forall e, pending m.1 e ->
       heap m.1 !!! handle (events m.1 !!! e) = e /\
       exists s', Cancel m.1 e = Ok s' /\
                  forall p, pending s' p <-> pending m.1 p /\ p <> e).
Proof.
  intros m [Hs Ho]%attainable_shaped. split.
  - intros i Hi. apply (inv_handle _ Hs), Hi.
  - intros e Hp. split; [apply (inv_slot _ Hs), Hp|].
    destruct (Cancel_sound _ e Hs Ho Hp) as (s' & E & []).
    exists s'. split; assumption.
Qed.

Lemma handle_tracks_index_witness :
  exists m,
    session [OpAdd 5 5; OpAdd 3 3; OpAdd 8 8; OpAddCycles 4; OpCancel 3] = Some m /\
    (forall i, i < kMaxEvents -> handle (deref m.1 i) = i).
Proof.
  eexists. split; [vm_compute; reflexivity|].
  apply handle_tracks_index.
  apply reachable_attainable.
  apply (session_reachable
           [OpAdd 5 5; OpAdd 3 3; OpAdd 8 8; OpAddCycles 4; OpCancel 3]).
  vm_compute. reflexivity.
Defined.

End Sched.

(** * The memory accessors of the PPU *)

Module Ppu.

#[local] Open Scope Z_scope.
#[local] Ltac Zify.zify_post_hook ::= Z.to_euclidean_division_equations.

(** ** Data model *)

(** The template parameter [T] of the accessors. *)
Inductive Width : Type := U8 | U16 | U32.

Definition size_of (T : Width) : nat :=
  match T with U8 => 1%nat | U16 => 2%nat | U32 => 4%nat end.

(** The three [u8] arrays as they are at one moment. *)
Definition Memory : Type := (list Z * list Z * list Z)%type.

(** The part of [struct PPU] the accessors touch: [mmio.dispcnt.mode] and
    the arrays [pram], [oam] and [vram], and the memory each [Sync()] so
    far has found, oldest first. *)
Record PPU : Type := mkPPU {
  mode : Z;
  pram : list Z;
  oam : list Z;
  vram : list Z;
  syncs : list Memory
}.

Definition pram_size : nat := Z.to_nat 0x00400.
Definition oam_size : nat := Z.to_nat 0x00400.
Definition vram_size : nat := Z.to_nat 0x18000.

(** The arrays have the sizes of their declarations. *)
Definition sized (s : PPU) : Prop :=
  length (pram s) = pram_size /\
  length (oam s) = oam_size /\
  length (vram s) = vram_size.

Definition memory (s : PPU) : Memory := (pram s, oam s, vram s).

(** Modelled from the spec: [read<T>] and [write<T>] of
    [nba/common/punning.hpp], which is not among the sources.  The spec
    calls the accessors "read/write at 8/16/32-bit width": a [T]-sized
    copy between a value and the bytes at [offset], least significant byte
    first.  A copy that leaves the array is undefined behaviour in C++;
    here it has no result. *)
Fixpoint load (n : nat) (mem : list Z) (i : nat) : Z :=
  match n with
  | O => 0
  | S n' => mem !!! i + 256 * load n' mem (S i)
  end.

Fixpoint store (n : nat) (mem : list Z) (i : nat) (value : Z) : list Z :=
  match n with
  | O => mem
  | S n' => store n' (<[i := value mod 256]> mem) (S i) (value / 256)
  end.

Definition in_bounds (mem : list Z) (offset : Z) (T : Width) : bool :=
  (0 <=? offset) && (offset + Z.of_nat (size_of T) <=? Z.of_nat (length mem)).

Definition read (T : Width) (mem : list Z) (offset : Z) : option Z :=
  if in_bounds mem offset T
  then Some (load (size_of T) mem (Z.to_nat offset))
  else None.

Definition write (T : Width) (mem : list Z) (offset : Z) (value : Z)
  : option (list Z) :=
  if in_bounds mem offset T
  then Some (store (size_of T) mem (Z.to_nat offset) value)
  else None.

(** Modelled from the spec: [PPU::Sync], declared in the header and defined
    in a file that is not among the sources.  The spec has it make "the
    renderer/composer ... catch up to now"; what it can take into account
    is the memory at the moment of the call, which is what is recorded. *)
Definition Sync (s : PPU) : PPU :=
  mkPPU (mode s) (pram s) (oam s) (vram s) (syncs s ++ [memory s]).

Definition set_pram (s : PPU) (m : list Z) : PPU :=
  mkPPU (mode s) m (oam s) (vram s) (syncs s).
Definition set_oam (s : PPU) (m : list Z) : PPU :=
  mkPPU (mode s) (pram s) m (vram s) (syncs s).
Definition set_vram (s : PPU) (m : list Z) : PPU :=
  mkPPU (mode s) (pram s) (oam s) m (syncs s).

(** ** The accessors *)

Definition ReadPRAM (T : Width) (s : PPU) (address : Z) : option Z :=
  read T (pram s) (Z.land address 0x3FF).

Definition WritePRAM (T : Width) (s : PPU) (address value : Z) : option PPU :=
  m ← match T with
      | U8 => write U16 (pram s) (Z.land address 0x3FE) (value * 0x0101)
      | _ => write T (pram s) (Z.land address 0x3FF) value
      end;
  Some (Sync (set_pram s m)).

(** [address &= 0x1FFFF; if (address >= 0x18000) address &= ~0x8000;] *)
Definition vram_offset (address : Z) : Z :=
  let address := Z.land address 0x1FFFF in
  if 0x18000 <=? address
  then Z.land address (Z.lnot 0x8000)
  else address.

Definition ReadVRAM (T : Width) (s : PPU) (address : Z) : option Z :=
  read T (vram s) (vram_offset address).

Definition WriteVRAM (T : Width) (s : PPU) (address value : Z) : option PPU :=
  let address := vram_offset address in
  m ← match T with
      | U8 =>
          let limit := if 3 <=? mode s then 0x14000 else 0x10000 in
          if address <? limit
          then write U16 (vram s) (Z.land address (Z.lnot 1)) (value * 0x0101)
          else Some (vram s)
      | _ => write T (vram s) address value
      end;
  Some (Sync (set_vram s m)).

Definition ReadOAM (T : Width) (s : PPU) (address : Z) : option Z :=
  read T (oam s) (Z.land address 0x3FF).

Definition WriteOAM (T : Width) (s : PPU) (address value : Z) : option PPU :=
  match T with
  | U8 => Some s
  | _ => m ← write T (oam s) (Z.land address 0x3FF) value; Some (set_oam s m)
  end.

(** The three regions, for statements about all of them. *)
Inductive Region : Type := Palette | Video | Object.

Definition Read (r : Region) : Width -> PPU -> Z -> option Z :=
  match r with Palette => ReadPRAM | Video => ReadVRAM | Object => ReadOAM end.

Definition Write (r : Region) : Width -> PPU -> Z -> Z -> option PPU :=
  match r with Palette => WritePRAM | Video => WriteVRAM | Object => WriteOAM end.

(** A PPU with all memory cleared, in a given video mode. *)
Definition cleared (video_mode : Z) : PPU :=
  mkPPU video_mode (replicate pram_size 0) (replicate oam_size 0)
        (replicate vram_size 0) [].

(** ** Masks as arithmetic *)

Lemma land_3FF a : Z.land a 0x3FF = a mod 0x400.
Proof. change 0x3FF with (Z.ones 10). rewrite Z.land_ones by lia. reflexivity. Qed.

Lemma land_1FFFF a : Z.land a 0x1FFFF = a mod 0x20000.
Proof. change 0x1FFFF with (Z.ones 17). rewrite Z.land_ones by lia. reflexivity. Qed.

Lemma clear_bit0 a : Z.land a (Z.lnot 1) = a - a mod 2.
Proof.
  rewrite <- Z.ldiff_land. change 1 with (Z.ones 1).
  rewrite Z.ldiff_ones_r by lia.
  rewrite Z.shiftl_mul_pow2, Z.shiftr_div_pow2 by lia.
  change (2 ^ 1) with 2. pose proof (Z.div_mod a 2). lia.
Qed.

Lemma land_3FE a : Z.land a 0x3FE = a mod 0x400 - a mod 2.
Proof.
  change 0x3FE with (Z.land 0x3FF (Z.lnot 1)).
  rewrite Z.land_assoc, land_3FF, clear_bit0.
  lia.
Qed.

Lemma low_bits_disjoint y c n :
  0 <= n -> 0 <= y < 2 ^ n -> Z.land c (Z.ones n) = 0 -> Z.land c y = 0.
Proof.
  intros Hn Hy Hc.
  rewrite <- (Z.mod_small y (2 ^ n)) by lia.
  rewrite <- Z.land_ones by lia.
  rewrite (Z.land_comm y), Z.land_assoc, Hc. reflexivity.
Qed.

Lemma add_disjoint a b : Z.land a b = 0 -> a + b = Z.lor a b.
Proof.
  intros H. rewrite Z.add_nocarry_lxor by exact H. apply Z.lxor_lor, H.
Qed.

(** Clearing bit 15 of an address in the upper quarter of the 128 KiB
    window moves it down by 0x8000. *)
Lemma clear_bit15 x :
  0x18000 <= x < 0x20000 -> Z.land x (Z.lnot 0x8000) = x - 0x8000.
Proof.
  intros Hx. set (y := x - 0x18000).
  assert (Hy : 0 <= y < 2 ^ 15) by (subst y; change (2 ^ 15) with 0x8000; lia).
  assert (E : Z.land y (Z.lnot 0x8000) = y).
  { rewrite <- (Z.mod_small y (2 ^ 15)) at 1 by lia.
    rewrite <- Z.land_ones by lia.
    rewrite <- Z.land_assoc.
    change (Z.land (Z.ones 15) (Z.lnot 0x8000)) with (Z.ones 15).
    rewrite Z.land_ones by lia. apply Z.mod_small. lia. }
  assert (G : Z.land (0x18000 + y) (Z.lnot 0x8000) = 0x10000 + y).
  { rewrite (add_disjoint 0x18000 y)
      by (apply (low_bits_disjoint y 0x18000 15); [lia|exact Hy|reflexivity]).
    rewrite Z.land_lor_distr_l, E.
    change (Z.land 0x18000 (Z.lnot 0x8000)) with 0x10000.
    symmetry. apply add_disjoint.
    apply (low_bits_disjoint y 0x10000 15); [lia|exact Hy|reflexivity]. }
  replace x with (0x18000 + y) at 1 by (subst y; lia).
  rewrite G. subst y. lia.
Qed.

Lemma vram_offset_low a :
  a mod 0x20000 < 0x18000 -> vram_offset a = a mod 0x20000.
Proof.
  intros H. unfold vram_offset. rewrite land_1FFFF.
  replace (0x18000 <=? a mod 0x20000) with false
    by (symmetry; apply Z.leb_gt; lia).
  reflexivity.
Qed.

Lemma vram_offset_mirror a :
  0x18000 <= a mod 0x20000 -> vram_offset a = a mod 0x20000 - 0x8000.
Proof.
  intros H. unfold vram_offset. rewrite land_1FFFF.
  replace (0x18000 <=? a mod 0x20000) with true
    by (symmetry; apply Z.leb_le; lia).
  apply clear_bit15. pose proof (Z.mod_pos_bound a 0x20000). lia.
Qed.

Lemma vram_offset_range a : 0 <= vram_offset a < 0x18000.
Proof.
  pose proof (Z.mod_pos_bound a 0x20000 ltac:(lia)).
  destruct (Z_lt_le_dec (a mod 0x20000) 0x18000).
  - rewrite vram_offset_low by lia. lia.
  - rewrite vram_offset_mirror by lia. lia.
Qed.

(** ** Loads and stores *)

Lemma length_store n mem i v : length (store n mem i v) = length mem.
Proof.
  revert mem i v. induction n as [|n IH]; intros mem i v; cbn [store];
    [reflexivity|].
  rewrite IH, length_insert. reflexivity.
Qed.

Lemma store_outside n mem i v j :
  (j < i \/ i + n <= j)%nat -> store n mem i v !!! j = mem !!! j.
Proof.
  revert mem i v. induction n as [|n IH]; intros mem i v Hj; cbn [store];
    [reflexivity|].
  rewrite IH by lia. apply list_lookup_total_insert_ne. lia.
Qed.

Lemma load_store n mem i v :
  (i + n <= length mem)%nat ->
  load n (store n mem i v) i = v mod 256 ^ Z.of_nat n.
Proof.
  revert mem i v. induction n as [|n IH]; intros mem i v Hb; cbn [load store].
  - rewrite Z.mod_1_r. reflexivity.
  - rewrite store_outside by lia.
    rewrite list_lookup_total_insert_eq by lia.
    rewrite IH by (rewrite length_insert; lia).
    rewrite Nat2Z.inj_succ, Z.pow_succ_r by lia.
    rewrite Z.rem_mul_r by lia. reflexivity.
Qed.

Lemma in_bounds_spec mem offset T :
  in_bounds mem offset T = true <->
  0 <= offset /\ offset + Z.of_nat (size_of T) <= Z.of_nat (length mem).
Proof.
  unfold in_bounds. rewrite andb_true_iff, Z.leb_le, Z.leb_le. reflexivity.
Qed.

Lemma read_is_Some T mem offset :
  is_Some (read T mem offset) <->
  0 <= offset /\ offset + Z.of_nat (size_of T) <= Z.of_nat (length mem).
Proof.
  unfold read. rewrite <- in_bounds_spec.
  destruct (in_bounds mem offset T); split; intros H; try done.
  all: by destruct H.
Qed.

Lemma write_is_Some T mem offset v :
  is_Some (write T mem offset v) <->
  0 <= offset /\ offset + Z.of_nat (size_of T) <= Z.of_nat (length mem).
Proof.
  unfold write. rewrite <- in_bounds_spec.
  destruct (in_bounds mem offset T); split; intros H; try done.
  all: by destruct H.
Qed.

Lemma write_inside T mem offset v :
  0 <= offset -> offset + Z.of_nat (size_of T) <= Z.of_nat (length mem) ->
  write T mem offset v = Some (store (size_of T) mem (Z.to_nat offset) v).
Proof.
  intros H1 H2. unfold write.
  rewrite (proj2 (in_bounds_spec mem offset T)) by (split; assumption).
  reflexivity.
Qed.

Lemma read_inside T mem offset :
  0 <= offset -> offset + Z.of_nat (size_of T) <= Z.of_nat (length mem) ->
  read T mem offset = Some (load (size_of T) mem (Z.to_nat offset)).
Proof.
  intros H1 H2. unfold read.
  rewrite (proj2 (in_bounds_spec mem offset T)) by (split; assumption).
  reflexivity.
Qed.

Lemma write_length T mem offset v mem' :
  write T mem offset v = Some mem' -> length mem' = length mem.
Proof.
  unfold write. destruct (in_bounds mem offset T); [|discriminate].
  intros [= <-]. apply length_store.
Qed.

(** A byte written twice over a 16-bit word: both bytes of the word hold
    it, and no other byte changes. *)
Lemma store_replicated mem i v j :
  (i + 2 <= length mem)%nat -> 0 <= v < 256 ->
  store 2 mem i (v * 0x0101) !!! j =
  if decide (j = i \/ j = S i) then v else mem !!! j.
Proof.
  intros Hb Hv. cbn [store].
  rewrite !list_lookup_total_insert, !length_insert.
  assert (E0 : (v * 0x0101) mod 256 = v) by lia.
  assert (E1 : (v * 0x0101 / 256) mod 256 = v) by lia.
  rewrite E0, E1.
  repeat case_decide; try reflexivity; exfalso; lia.
Qed.

Lemma cleared_sized video_mode : sized (cleared video_mode).
Proof.
  unfold sized, cleared. cbn [pram oam vram].
  rewrite !length_replicate. auto.
Qed.

(** ** What a write does *)

Lemma WritePRAM_Some T s address value s' :
  WritePRAM T s address value = Some s' ->
  exists m,
    s' = Sync (set_pram s m) /\
    match T with
    | U8 => write U16 (pram s) (Z.land address 0x3FE) (value * 0x0101)
    | _ => write T (pram s) (Z.land address 0x3FF) value
    end = Some m.
Proof.
  unfold WritePRAM. destruct (match T with U8 => _ | _ => _ end) as [m|];
    [|discriminate].
  intros [= <-]. exists m. split; reflexivity.
Qed.

Lemma WriteVRAM_Some T s address value s' :
  WriteVRAM T s address value = Some s' ->
  exists m,
    s' = Sync (set_vram s m) /\
    match T with
    | U8 =>
        if vram_offset address <? (if 3 <=? mode s then 0x14000 else 0x10000)
        then write U16 (vram s) (Z.land (vram_offset address) (Z.lnot 1))
               (value * 0x0101)
        else Some (vram s)
    | _ => write T (vram s) (vram_offset address) value
    end = Some m.
Proof.
  unfold WriteVRAM. cbv zeta.
  destruct (match T with U8 => _ | _ => _ end) as [m|]; [|discriminate].
  intros [= <-]. exists m. split; reflexivity.
Qed.

Lemma WriteOAM_Some T s address value s' :
  WriteOAM T s address value = Some s' ->
  syncs s' = syncs s /\
  match T with
  | U8 => s' = s
  | _ => exists m, s' = set_oam s m /\
                   write T (oam s) (Z.land address 0x3FF) value = Some m
  end.
Proof.
  destruct T; cbn [WriteOAM].
  - intros [= <-]. split; reflexivity.
  - destruct (write U16 _ _ _) as [m|]; [|discriminate]. intros [= <-].
    split; [reflexivity|]. exists m. split; reflexivity.
  - destruct (write U32 _ _ _) as [m|]; [|discriminate]. intros [= <-].
    split; [reflexivity|]. exists m. split; reflexivity.
Qed.

(** An 8-bit write to video memory at or beyond the limit of the mode
    stores nothing. *)
Lemma WriteVRAM_U8_beyond s address value :
  (if 3 <=? mode s then 0x14000 else 0x10000) <= vram_offset address ->
  WriteVRAM U8 s address value = Some (Sync (set_vram s (vram s))).
Proof.
  intros H. unfold WriteVRAM. cbv zeta.
  replace (vram_offset address <? _) with false
    by (symmetry; apply Z.ltb_ge; exact H).
  reflexivity.
Qed.

(** An 8-bit write to video memory below the limit of the mode stores the
    byte in both halves of its 16-bit word. *)
Lemma WriteVRAM_U8_below s address value :
  sized s ->
  vram_offset address < (if 3 <=? mode s then 0x14000 else 0x10000) ->
  WriteVRAM U8 s address value =
  Some (Sync (set_vram s
    (store 2 (vram s)
       (Z.to_nat (vram_offset address - vram_offset address mod 2))
       (value * 0x0101)))).
Proof.
  intros (_ & _ & Hv) H. unfold WriteVRAM. cbv zeta.
  replace (vram_offset address <? _) with true
    by (symmetry; apply Z.ltb_lt; exact H).
  pose proof (vram_offset_range address).
  rewrite clear_bit0.
  rewrite write_inside; [reflexivity|lia|].
  rewrite Hv. unfold vram_size. cbn [size_of].
  destruct (3 <=? mode s); lia.
Qed.

(** ** The properties of the specification *)

(** The claim C3 as the specification words it: each write through the
    accessors of the three regions, at each width, makes one call of
    [Sync], which finds the memory as it was before the write. *)
Definition sync_before_store : Prop :=
  forall r T s address value s',
    sized s -> Write r T s address value = Some s' ->
    syncs s' = syncs s ++ [memory s].

(** C3, counterexample.  A 16-bit write of 1 to the cleared palette makes
    one call of [Sync], which finds the 1 in place; a 16-bit write to the
    object-attribute memory makes none. *)
Lemma sync_before_store_fails :
  ~ sync_before_store /\
  (fun s' => (fun m => m.1.1 !!! 0%nat) <$> syncs s') <$>
    WritePRAM U16 (cleared 0) 0 1 = Some [1] /\
  (fun s' => length (syncs s')) <$> WriteOAM U16 (cleared 0) 0 1 = Some 0%nat.
Proof.
  split; [|split; vm_compute; reflexivity].
  intros H.
  assert (E : WriteOAM U16 (cleared 0) 0 1 =
              Some (set_oam (cleared 0) (store 2 (oam (cleared 0)) 0 1)))
    by reflexivity.
  specialize (H Object U16 (cleared 0) 0 1 _ (cleared_sized 0) E).
  apply (f_equal length) in H. rewrite length_app in H.
  change (0 = 0 + 1)%nat in H. lia.
Qed.

Lemma vram_offset_of_mirror address :
  0x18000 <= Z.land address 0x1FFFF ->
  vram_offset address = Z.land address 0x1FFFF - 0x8000 /\
  vram_offset (Z.land address (Z.lnot 0x8000)) = Z.land address 0x1FFFF - 0x8000.
Proof.
  intros H. pose proof (Z.mod_pos_bound address 0x20000 ltac:(lia)) as Hm.
  rewrite land_1FFFF in H |- *. split; [apply vram_offset_mirror, H|].
  assert (E : Z.land (Z.land address (Z.lnot 0x8000)) 0x1FFFF =
              address mod 0x20000 - 0x8000).
  { rewrite <- Z.land_assoc, (Z.land_comm (Z.lnot 0x8000)), Z.land_assoc.
    rewrite land_1FFFF. apply clear_bit15. lia. }
  rewrite land_1FFFF in E. rewrite vram_offset_low; rewrite E; [reflexivity|lia].
Qed.

Lemma read_U8 mem offset :
  0 <= offset < Z.of_nat (length mem) ->
  read U8 mem offset = Some (mem !!! Z.to_nat offset).
Proof.
  intros H. rewrite read_inside by (cbn [size_of]; lia).
  cbn [size_of load]. f_equal. lia.
Qed.

(** The value a store has put at an offset reads back from there. *)
Lemma read_store T mem offset value :
  0 <= offset -> offset + Z.of_nat (size_of T) <= Z.of_nat (length mem) ->
  0 <= value < 256 ^ Z.of_nat (size_of T) ->
  read T (store (size_of T) mem (Z.to_nat offset) value) offset = Some value.
Proof.
  intros H1 H2 Hv.
  rewrite read_inside by (rewrite ?length_store; assumption).
  rewrite load_store by lia. rewrite Z.mod_small by exact Hv. reflexivity.
Qed.

(** The byte an 8-bit write has put in both halves of a word reads back
    from either. *)
Lemma read_store_replicated mem word value x :
  0 <= word -> word + 2 <= Z.of_nat (length mem) -> 0 <= value < 256 ->
  x = word \/ x = word + 1 ->
  read U8 (store 2 mem (Z.to_nat word) (value * 0x0101)) x = Some value.
Proof.
  intros H1 H2 Hv Hx.
  rewrite read_U8 by (rewrite length_store; lia).
  rewrite store_replicated by lia.
  rewrite decide_True; [reflexivity|]. lia.
Qed.

(** The bytes of a value of width [T] at [offset] lie inside an array of
    [size] bytes. *)
Definition fits (T : Width) (offset size : Z) : Prop :=
  offset + Z.of_nat (size_of T) <= size.

(** C3, amended.  A write through [WritePRAM] or [WriteVRAM], at any
    width, of a value of that width to an offset that fits the array (an
    8-bit write always does) returns, having made exactly one call of
    [Sync], after the store: the memory that call finds is the memory the
    write leaves, and the value reads back from it at the offset of the
    write; for an 8-bit write to video memory at or beyond the limit of
    the mode, which stores nothing, it is the memory from before.  A write
    through [WriteOAM] returns without a call of [Sync]. *)
Theorem Sync_follows_the_store :
  forall T s address value,
    sized s -> 0 <= value < 256 ^ Z.of_nat (size_of T) ->
    (T = U8 \/ fits T (Z.land address 0x3FF) 0x400 ->
     exists s' found,
       WritePRAM T s address value = Some s' /\
       syncs s' = syncs s ++ [found] /\ found = memory s' /\
       read T found.1.1 (Z.land address 0x3FF) = Some value) /\
    (T = U8 \/ fits T (vram_offset address) 0x18000 ->
     exists s' found,
       WriteVRAM T s address value = Some s' /\
       syncs s' = syncs s ++ [found] /\ found = memory s' /\
       (T <> U8 \/
        vram_offset address < (if 3 <=? mode s then 0x14000 else 0x10000) ->
        read T found.2 (vram_offset address) = Some value) /\
       (T = U8 ->
        (if 3 <=? mode s then 0x14000 else 0x10000) <= vram_offset address ->
        found.2 = vram s)) /\
    (T = U8 \/ fits T (Z.land address 0x3FF) 0x400 ->
     exists s',
       WriteOAM T s address value = Some s' /\ syncs s' = syncs s).
Proof.
  intros T s address value (Hp & Ho & Hv) Hval. unfold fits.
  pose proof (Z.mod_pos_bound address 0x400 ltac:(lia)) as Hb.
  pose proof (vram_offset_range address) as Hr.
  pose proof (land_3FF address) as E3FF.
  pose proof (land_3FE address) as E3FE.
  assert (Lp : Z.of_nat (length (pram s)) = 0x400) by (rewrite Hp; reflexivity).
  assert (Lo : Z.of_nat (length (oam s)) = 0x400) by (rewrite Ho; reflexivity).
  assert (Lv : Z.of_nat (length (vram s)) = 0x18000) by (rewrite Hv; reflexivity).
  split; [|split].
  - intros Hfit.
    assert (Hw : exists m,
      match T with
      | U8 => write U16 (pram s) (Z.land address 0x3FE) (value * 0x0101)
      | _ => write T (pram s) (Z.land address 0x3FF) value
      end = Some m /\
      read T m (Z.land address 0x3FF) = Some value).
    { destruct T.
      - eexists. split; [apply write_inside; cbn [size_of]; lia|].
        cbn [size_of]. apply read_store_replicated; cbn [size_of] in *; lia.
      - destruct Hfit as [|Hfit]; [discriminate|].
        eexists. split; [apply write_inside; lia|]. apply read_store; lia.
      - destruct Hfit as [|Hfit]; [discriminate|].
        eexists. split; [apply write_inside; lia|]. apply read_store; lia. }
    destruct Hw as (m & Hw & Hread).
    exists (Sync (set_pram s m)), (memory (Sync (set_pram s m))).
    split; [unfold WritePRAM; rewrite Hw; reflexivity|].
    split; [reflexivity|]. split; [reflexivity|exact Hread].
  - intros Hfit.
    assert (Hw : exists m,
      match T with
      | U8 =>
          if vram_offset address <? (if 3 <=? mode s then 0x14000 else 0x10000)
          then write U16 (vram s) (Z.land (vram_offset address) (Z.lnot 1))
                 (value * 0x0101)
          else Some (vram s)
      | _ => write T (vram s) (vram_offset address) value
      end = Some m /\
      (T <> U8 \/
       vram_offset address < (if 3 <=? mode s then 0x14000 else 0x10000) ->
       read T m (vram_offset address) = Some value) /\
      (T = U8 ->
       (if 3 <=? mode s then 0x14000 else 0x10000) <= vram_offset address ->
       m = vram s)).
    { destruct T.
      - set (limit := if 3 <=? mode s then 0x14000 else 0x10000).
        assert (Hl : limit <= 0x14000) by (subst limit; destruct (3 <=? mode s); lia).
        destruct (vram_offset address <? limit) eqn:El.
        + apply Z.ltb_lt in El. rewrite clear_bit0.
          eexists. split; [apply write_inside; cbn [size_of]; lia|].
          split; [|intros _ ?; lia]. intros _.
          apply read_store_replicated; cbn [size_of] in *; lia.
        + apply Z.ltb_ge in El. eexists. split; [reflexivity|].
          split; [intros [?|?]; [congruence|lia]|reflexivity].
      - destruct Hfit as [|Hfit]; [discriminate|].
        eexists. split; [apply write_inside; lia|].
        split; [intros _; apply read_store; lia|discriminate].
      - destruct Hfit as [|Hfit]; [discriminate|].
        eexists. split; [apply write_inside; lia|].
        split; [intros _; apply read_store; lia|discriminate]. }
    destruct Hw as (m & Hw & Hread & Hsame).
    exists (Sync (set_vram s m)), (memory (Sync (set_vram s m))).
    split; [unfold WriteVRAM; cbv zeta; rewrite Hw; reflexivity|].
    split; [reflexivity|]. split; [reflexivity|]. split; assumption.
  - intros Hfit. destruct T.
    + exists s. split; reflexivity.
    + destruct Hfit as [|Hfit]; [discriminate|].
      eexists. unfold WriteOAM. rewrite write_inside by lia.
      split; reflexivity.
    + destruct Hfit as [|Hfit]; [discriminate|].
      eexists. unfold WriteOAM. rewrite write_inside by lia.
      split; reflexivity.
Qed.

Lemma Sync_follows_the_store_witness :
  (exists s' found,
     WriteVRAM U8 (cleared 4) 0x06012345 0xAB = Some s' /\
     syncs s' = syncs (cleared 4) ++ [found] /\
     (U8 <> U8 \/
      vram_offset 0x06012345 <
        (if 3 <=? mode (cleared 4) then 0x14000 else 0x10000) ->
      read U8 found.2 (vram_offset 0x06012345) = Some 0xAB)) /\
  (exists s' found,
     WritePRAM U8 (cleared 4) 0x05000123 0xAB = Some s' /\
     syncs s' = syncs (cleared 4) ++ [found] /\
     read U8 found.1.1 (Z.land 0x05000123 0x3FF) = Some 0xAB) /\
  (exists s',
     WriteOAM U32 (cleared 4) 0x07000010 0xDEADBEEF = Some s' /\
     syncs s' = syncs (cleared 4)).
Proof.
  split; [|split].
  - destruct (Sync_follows_the_store U8 (cleared 4) 0x06012345 0xAB)
      as (_ & H & _); [apply cleared_sized|cbn; lia|].
    destruct H as (s' & found & H1 & H2 & _ & H3 & _); [left; reflexivity|].
    exists s', found. split; [exact H1|]. split; [exact H2|exact H3].
  - destruct (Sync_follows_the_store U8 (cleared 4) 0x05000123 0xAB)
      as (H & _); [apply cleared_sized|cbn; lia|].
    destruct H as (s' & found & H1 & H2 & _ & H3); [left; reflexivity|].
    exists s', found. split; [exact H1|]. split; [exact H2|exact H3].
  - destruct (Sync_follows_the_store U32 (cleared 4) 0x07000010 0xDEADBEEF)
      as (_ & _ & H); [apply cleared_sized|cbn; lia|].
    apply H. right. vm_compute. discriminate.
Defined.

(** The claim C4 as the specification words it. *)
Definition mirror_claim : Prop :=
  forall s address value s',
    sized s -> 0 <= value < 256 ->
    0x18000 <= Z.land address 0x1FFFF ->
    WriteVRAM U8 s address value = Some s' ->
    (3 <= mode s ->
     ReadVRAM U8 s' (Z.land address (Z.lnot 0x8000)) = Some value) /\
    (mode s < 3 ->
     ReadVRAM U8 s' (Z.land address (Z.lnot 0x8000)) =
     ReadVRAM U8 s (Z.land address (Z.lnot 0x8000))).

(** C4, counterexample.  In the bitmap mode 3, the byte 0xAB written to
    0x1C000 is not read back from 0x14000: the cleared memory still reads
    0 there. *)
Lemma mirror_claim_fails :
  ~ mirror_claim /\
  (s' ← WriteVRAM U8 (cleared 3) 0x1C000 0xAB;
   ReadVRAM U8 s' (Z.land 0x1C000 (Z.lnot 0x8000))) = Some 0.
Proof.
  split; [|vm_compute; reflexivity].
  intros H.
  destruct (H (cleared 3) 0x1C000 0xAB
              (Sync (set_vram (cleared 3) (vram (cleared 3))))
              (cleared_sized 3)) as [H3 _].
  - lia.
  - vm_compute. discriminate.
  - apply WriteVRAM_U8_beyond. vm_compute. discriminate.
  - specialize (H3 ltac:(vm_compute; discriminate)).
    vm_compute in H3. discriminate.
Qed.

(** C4, amended.  An 8-bit write to an address of the upper mirrored
    sub-range (masked address from 0x18000 to 0x1FFFF) returns.  In a
    bitmap mode (3 and up) the byte is read back at the address with the
    mirror bit cleared when the masked address is below 0x1C000; from
    0x1C000 on the write is discarded, video memory is unchanged and the
    read returns the prior byte.  In the other modes the write is
    discarded throughout the sub-range. *)
Theorem mirrored_byte_write :
  forall s address value,
    sized s -> 0 <= value < 256 ->
    0x18000 <= Z.land address 0x1FFFF ->
    let mirror := Z.land address (Z.lnot 0x8000) in
    exists s',
      WriteVRAM U8 s address value = Some s' /\
      (3 <= mode s -> Z.land address 0x1FFFF < 0x1C000 ->
       ReadVRAM U8 s' mirror = Some value) /\
      (3 <= mode s -> 0x1C000 <= Z.land address 0x1FFFF ->
       vram s' = vram s /\ ReadVRAM U8 s' mirror = ReadVRAM U8 s mirror) /\
      (mode s < 3 ->
       vram s' = vram s /\ ReadVRAM U8 s' mirror = ReadVRAM U8 s mirror).
Proof.
  intros s address value Hs Hv Hm mirror.
  destruct (vram_offset_of_mirror address Hm) as [Eo Eom].
  pose proof (Z.mod_pos_bound address 0x20000 ltac:(lia)) as Hb.
  rewrite land_1FFFF in *. set (m := address mod 0x20000) in *.
  destruct Hs as (Hp & Ho & Hvr).
  set (limit := if 3 <=? mode s then 0x14000 else 0x10000).
  destruct (Z_lt_le_dec (vram_offset address) limit) as [Hlt|Hge].
  - (* stored: only in a bitmap mode, below 0x1C000 *)
    assert (Hmode : 3 <= mode s /\ m < 0x1C000).
    { subst limit. destruct (3 <=? mode s) eqn:E; [apply Z.leb_le in E|]; lia. }
    eexists. split; [apply WriteVRAM_U8_below; [repeat split; assumption|exact Hlt]|].
    split; [|split; intros; lia].
    intros _ _. unfold ReadVRAM, mirror. rewrite Eom.
    cbn [vram Sync set_vram].
    rewrite read_U8 by (rewrite length_store, Hvr; unfold vram_size; lia).
    rewrite Eo. f_equal.
    rewrite store_replicated by (rewrite ?Hvr; unfold vram_size; lia).
    rewrite decide_True; [reflexivity|lia].
  - (* discarded *)
    eexists. split; [apply WriteVRAM_U8_beyond; exact Hge|].
    split; [|split; intros; split; reflexivity].
    intros H3 Hlow. exfalso. subst limit.
    replace (3 <=? mode s) with true in Hge by (symmetry; apply Z.leb_le; lia).
    lia.
Qed.

Lemma mirrored_byte_write_witness :
  exists s',
    WriteVRAM U8 (cleared 4) 0x18001 0xAB = Some s' /\
    (3 <= mode (cleared 4) -> Z.land 0x18001 0x1FFFF < 0x1C000 ->
     ReadVRAM U8 s' (Z.land 0x18001 (Z.lnot 0x8000)) = Some 0xAB) /\
    (3 <= mode (cleared 4) -> 0x1C000 <= Z.land 0x18001 0x1FFFF ->
     vram s' = vram (cleared 4) /\
     ReadVRAM U8 s' (Z.land 0x18001 (Z.lnot 0x8000)) =
     ReadVRAM U8 (cleared 4) (Z.land 0x18001 (Z.lnot 0x8000))) /\
    (mode (cleared 4) < 3 ->
     vram s' = vram (cleared 4) /\
     ReadVRAM U8 s' (Z.land 0x18001 (Z.lnot 0x8000)) =
     ReadVRAM U8 (cleared 4) (Z.land 0x18001 (Z.lnot 0x8000))).
Proof.
  apply (mirrored_byte_write (cleared 4) 0x18001 0xAB).
  - apply cleared_sized.
  - lia.
  - vm_compute. discriminate.
Defined.

(** C7.  An 8-bit write to the palette returns, having stored the byte in
    both bytes of the 16-bit word at offset [address & 0x3FE]: an 8-bit
    read at either byte of the word, and so at [address], returns it; the
    bytes outside the word read as before. *)
Theorem palette_byte_write_fills_word :
  forall s address value,
    sized s -> 0 <= value < 256 ->
    let word := Z.land address 0x3FE in
    exists s',
      WritePRAM U8 s address value = Some s' /\
      ReadPRAM U8 s' word = Some value /\
      ReadPRAM U8 s' (word + 1) = Some value /\
      ReadPRAM U8 s' address = Some value /\
      (forall x, Z.land x 0x3FF <> word -> Z.land x 0x3FF <> word + 1 ->
                 ReadPRAM U8 s' x = ReadPRAM U8 s x).
Proof.
  intros s address value (Hp & _ & _) Hv word.
  pose proof (Z.mod_pos_bound address 0x400 ltac:(lia)) as Hb.
  assert (Ew : word = address mod 0x400 - address mod 2) by apply land_3FE.
  assert (Hw : 0 <= word /\ word + 2 <= 0x400) by lia.
  unfold WritePRAM. fold word.
  rewrite write_inside by (rewrite ?Hp; unfold pram_size; cbn [size_of]; lia).
  cbn [mbind option_bind]. eexists. split; [reflexivity|].
  assert (R : forall x,
    ReadPRAM U8 (Sync (set_pram s (store 2 (pram s) (Z.to_nat word) (value * 0x0101)))) x =
    Some (if decide (Z.land x 0x3FF = word \/ Z.land x 0x3FF = word + 1)
          then value else pram s !!! Z.to_nat (Z.land x 0x3FF))).
  { intros x. unfold ReadPRAM. cbn [pram Sync set_pram size_of].
    pose proof (Z.mod_pos_bound x 0x400 ltac:(lia)) as Hx.
    rewrite land_3FF in *.
    rewrite read_U8 by (rewrite length_store, Hp; unfold pram_size; lia).
    rewrite store_replicated by (rewrite ?Hp; unfold pram_size; lia).
    f_equal. repeat case_decide; try reflexivity; exfalso; lia. }
  split; [|split; [|split]].
  - rewrite R, decide_True; [reflexivity|]. left. rewrite land_3FF. lia.
  - rewrite R, decide_True; [reflexivity|]. right. rewrite land_3FF. lia.
  - rewrite R, decide_True; [reflexivity|]. rewrite land_3FF. lia.
  - intros x H1 H2. rewrite R, decide_False by tauto.
    unfold ReadPRAM. pose proof (Z.mod_pos_bound x 0x400 ltac:(lia)) as Hx.
    rewrite land_3FF in *.
    rewrite read_U8 by (rewrite Hp; unfold pram_size; lia). reflexivity.
Qed.

Lemma palette_byte_write_fills_word_witness :
  exists s',
    WritePRAM U8 (cleared 0) 0x05000123 0x5A = Some s' /\
    ReadPRAM U8 s' (Z.land 0x05000123 0x3FE) = Some 0x5A /\
    ReadPRAM U8 s' (Z.land 0x05000123 0x3FE + 1) = Some 0x5A /\
    ReadPRAM U8 s' 0x05000123 = Some 0x5A /\
    (forall x, Z.land x 0x3FF <> Z.land 0x05000123 0x3FE ->
               Z.land x 0x3FF <> Z.land 0x05000123 0x3FE + 1 ->
               ReadPRAM U8 s' x = ReadPRAM U8 (cleared 0) x).
Proof.
  apply (palette_byte_write_fills_word (cleared 0) 0x05000123 0x5A).
  - apply cleared_sized.
  - lia.
Defined.

(** C8.  An 8-bit write to the object-attribute memory returns the state
    it was given: that memory, the other two, and the record of [Sync]
    calls are what they were, and so is every later read.  A 16- or
    32-bit write returns exactly when the offset and the width fit the
    array, and has then stored its value: it reads back, the bytes outside
    the written ones are as before, and the other two memories, the video
    mode and the record of [Sync] calls are untouched; the memory has
    changed unless it held the value already. *)
Theorem object_byte_write_is_discarded :
  (forall s address value, WriteOAM U8 s address value = Some s) /\
  (forall s address value s' T x,
     WriteOAM U8 s address value = Some s' -> ReadOAM T s' x = ReadOAM T s x) /\
  (forall T s address value,
     T <> U8 -> sized s ->
     let offset := Z.land address 0x3FF in
     (is_Some (WriteOAM T s address value) <-> fits T offset 0x400) /\
     (fits T offset 0x400 ->
      exists s',
        WriteOAM T s address value = Some s' /\
        ReadOAM T s' address = Some (value mod 256 ^ Z.of_nat (size_of T)) /\
        oam s' = store (size_of T) (oam s) (Z.to_nat offset) value /\
        (forall j : nat,
           Z.of_nat j < offset \/ offset + Z.of_nat (size_of T) <= Z.of_nat j ->
           oam s' !!! j = oam s !!! j) /\
        (ReadOAM T s address <> Some (value mod 256 ^ Z.of_nat (size_of T)) ->
         oam s' <> oam s) /\
        pram s' = pram s /\ vram s' = vram s /\
        mode s' = mode s /\ syncs s' = syncs s)).
Proof.
  split; [|split].
  - reflexivity.
  - intros s address value s' T x [= <-]. reflexivity.
  - intros T s address value HT (_ & Ho & _) offset. unfold fits.
    pose proof (Z.mod_pos_bound address 0x400 ltac:(lia)) as Hb.
    assert (E3FF : offset = address mod 0x400) by apply land_3FF.
    assert (Lo : Z.of_nat (length (oam s)) = 0x400) by (rewrite Ho; reflexivity).
    assert (EW : WriteOAM T s address value =
                 m ← write T (oam s) offset value; Some (set_oam s m))
      by (destruct T; [congruence|reflexivity..]).
    split.
    + rewrite EW. split.
      * intros [s' H]. destruct (write T (oam s) offset value) as [m|] eqn:Em;
          [|discriminate].
        assert (Hs : is_Some (write T (oam s) offset value)) by (rewrite Em; eauto).
        apply write_is_Some in Hs. lia.
      * intros Hfit. rewrite write_inside by lia. eexists. reflexivity.
    + intros Hfit. rewrite EW, write_inside by lia. cbn [mbind option_bind].
      eexists. split; [reflexivity|]. cbn [oam pram vram mode syncs set_oam].
      assert (Hread :
        ReadOAM T (set_oam s (store (size_of T) (oam s) (Z.to_nat offset) value))
          address = Some (value mod 256 ^ Z.of_nat (size_of T))).
      { unfold ReadOAM. cbn [oam set_oam]. fold offset.
        rewrite read_inside by (rewrite ?length_store; lia).
        rewrite load_store by lia. reflexivity. }
      split; [exact Hread|]. split; [reflexivity|]. split.
      * intros j Hj. apply store_outside. lia.
      * split; [|repeat split; reflexivity].
        intros Hne Heq. apply Hne. rewrite <- Hread.
        unfold ReadOAM. cbn [oam set_oam]. rewrite Heq. reflexivity.
Qed.

Lemma object_byte_write_is_discarded_witness :
  exists s',
    WriteOAM U16 (cleared 0) 8 0xBEEF = Some s' /\
    ReadOAM U16 s' 8 = Some (0xBEEF mod 256 ^ Z.of_nat (size_of U16)) /\
    oam s' <> oam (cleared 0) /\
    pram s' = pram (cleared 0) /\ vram s' = vram (cleared 0).
Proof.
  destruct (proj2 (proj2 object_byte_write_is_discarded) U16 (cleared 0) 8 0xBEEF)
    as [_ H]; [discriminate|apply cleared_sized|].
  destruct H as (s' & H1 & H2 & _ & _ & H3 & H4 & H5 & _).
  - vm_compute. discriminate.
  - exists s'. split; [exact H1|]. split; [exact H2|].
    split; [|split; assumption].
    apply H3. vm_compute. discriminate.
Defined.

(** The incoming address is a multiple of the access width. *)
Definition aligned (T : Width) (address : Z) : Prop :=
  address mod Z.of_nat (size_of T) = 0.

(** C10.  A read or write through the accessors of any of the three
    regions, at any width, with an address aligned to the width, returns:
    the bytes it touches lie inside the array ([read] and [write] return
    exactly when the offset and the width fit the array).  A 32-bit access
    with the masked offset 0x3FE in the palette or the object-attribute
    memory, or 0x17FFE in video memory, does not fit and has no result. *)
Theorem aligned_access_stays_in_bounds :
  (forall r T s address value,
     sized s -> aligned T address ->
     is_Some (Read r T s address) /\ is_Some (Write r T s address value)) /\
  (forall T mem offset value,
     (is_Some (read T mem offset) <->
      0 <= offset /\ offset + Z.of_nat (size_of T) <= Z.of_nat (length mem)) /\
     (is_Some (write T mem offset value) <->
      0 <= offset /\ offset + Z.of_nat (size_of T) <= Z.of_nat (length mem))) /\
  (forall s value,
     sized s ->
     ReadPRAM U32 s 0x3FE = None /\ WritePRAM U32 s 0x3FE value = None /\
     ReadOAM U32 s 0x3FE = None /\ WriteOAM U32 s 0x3FE value = None /\
     ReadVRAM U32 s 0x17FFE = None /\ WriteVRAM U32 s 0x17FFE value = None).
Proof.
  split; [|split].
  - intros r T s address value (Hp & Ho & Hv) Ha. unfold aligned in Ha.
    pose proof (Z.mod_pos_bound address 0x400 ltac:(lia)) as Hb.
    pose proof (Z.mod_pos_bound address 0x20000 ltac:(lia)) as Hb'.
    pose proof (vram_offset_range address) as Hr.
    assert (Hva : vram_offset address mod Z.of_nat (size_of T) = 0).
    { destruct (Z_lt_le_dec (address mod 0x20000) 0x18000).
      - rewrite vram_offset_low by lia. destruct T; cbn [size_of] in *; lia.
      - rewrite vram_offset_mirror by lia. destruct T; cbn [size_of] in *; lia. }
    destruct r; cbn [Read Write]; split.
    + unfold ReadPRAM. apply read_is_Some. rewrite land_3FF, Hp.
      unfold pram_size. destruct T; cbn [size_of] in *; lia.
    + unfold WritePRAM.
      assert (H : is_Some (match T with
                | U8 => write U16 (pram s) (Z.land address 0x3FE) (value * 0x0101)
                | _ => write T (pram s) (Z.land address 0x3FF) value
                end)).
      { destruct T; apply write_is_Some; rewrite ?land_3FE, ?land_3FF, Hp;
          unfold pram_size; cbn [size_of] in *; lia. }
      destruct H as [m ->]. cbn. eauto.
    + unfold ReadVRAM. apply read_is_Some. rewrite Hv.
      unfold vram_size. destruct T; cbn [size_of] in *; lia.
    + destruct T.
      * destruct (Z_lt_le_dec (vram_offset address)
                    (if 3 <=? mode s then 0x14000 else 0x10000)).
        -- rewrite WriteVRAM_U8_below by (repeat split; assumption). eauto.
        -- rewrite WriteVRAM_U8_beyond by assumption. eauto.
      * unfold WriteVRAM. cbv zeta.
        rewrite write_inside by (rewrite ?Hv; unfold vram_size; cbn [size_of] in *; lia).
        cbn. eauto.
      * unfold WriteVRAM. cbv zeta.
        rewrite write_inside by (rewrite ?Hv; unfold vram_size; cbn [size_of] in *; lia).
        cbn. eauto.
    + unfold ReadOAM. apply read_is_Some. rewrite land_3FF, Ho.
      unfold oam_size. destruct T; cbn [size_of] in *; lia.
    + destruct T; cbn [WriteOAM]; [eauto| |].
      all: rewrite write_inside
             by (rewrite ?land_3FF, ?Ho; unfold oam_size; cbn [size_of] in *; lia).
      all: cbn; eauto.
  - intros T mem offset value. split; [apply read_is_Some|apply write_is_Some].
  - intros s value (Hp & Ho & Hv).
    assert (Np : in_bounds (pram s) (Z.land 0x3FE 0x3FF) U32 = false).
    { unfold in_bounds. rewrite Hp. reflexivity. }
    assert (No : in_bounds (oam s) (Z.land 0x3FE 0x3FF) U32 = false).
    { unfold in_bounds. rewrite Ho. reflexivity. }
    assert (Nv : in_bounds (vram s) (vram_offset 0x17FFE) U32 = false).
    { unfold in_bounds. rewrite Hv. reflexivity. }
    unfold ReadPRAM, WritePRAM, ReadOAM, WriteOAM, ReadVRAM, WriteVRAM, read, write.
    cbv zeta. rewrite Np, No, Nv. repeat split; reflexivity.
Qed.

Lemma aligned_access_stays_in_bounds_witness :
  is_Some (Read Video U32 (cleared 4) 0x0601FFFC) /\
  is_Some (Write Video U32 (cleared 4) 0x0601FFFC 0xCAFEF00D).
Proof.
  apply (proj1 aligned_access_stays_in_bounds).
  - apply cleared_sized.
  - reflexivity.
Defined.

End Ppu.

(** * More about the scheduler *)

Module SchedMore.

Import Sched.

#[local] Ltac Zify.zify_post_hook ::= Z.to_euclidean_division_equations.

(** ** The nearest pending event *)

Lemma root_is_earliest s :
  shaped s -> 0 < heap_size s ->
  pending s (heap s !!! 0) /\
  forall p, pending s p -> (GetTimestampTarget s <= ts_of s p)%Z.
Proof.
  intros [Hs Ho] Hsz. split; [apply pending_at; assumption|].
  intros p Hp. apply pending_root_min; assumption.
Qed.

(** X1.  While events are pending, [GetTimestampTarget] is the timestamp of
    a pending event and no pending event has an earlier one. *)
Theorem target_is_earliest_pending :
  forall m,
    attainable m -> 0 < heap_size m.1 ->
    (exists p, pending m.1 p /\ ts_of m.1 p = GetTimestampTarget m.1) /\
    (forall p, pending m.1 p -> (GetTimestampTarget m.1 <= ts_of m.1 p)%Z).
Proof.
  intros m Hm%attainable_shaped Hsz.
  destruct (root_is_earliest _ Hm Hsz) as [H0 Hmin]. split; [|exact Hmin].
  exists (heap m.1 !!! 0). split; [exact H0|reflexivity].
Qed.

Lemma target_is_earliest_pending_witness :
  exists m,
    session [OpAdd 9 1; OpAdd 4 2; OpAdd 6 3] = Some m /\
    GetTimestampTarget m.1 = 4%Z /\
    (forall p, pending m.1 p -> (GetTimestampTarget m.1 <= ts_of m.1 p)%Z).
Proof.
  eexists. split; [vm_compute; reflexivity|]. split; [reflexivity|].
  apply target_is_earliest_pending.
  - apply reachable_attainable.
    apply (session_reachable [OpAdd 9 1; OpAdd 4 2; OpAdd 6 3]).
    vm_compute. reflexivity.
  - vm_compute. lia.
Defined.

(** The target after an [Add]. *)
Lemma Add_target s delay cb s' event :
  shaped s -> Add s delay cb = Ok (s', event) ->
  GetTimestampTarget s' =
  if heap_size s =? 0
  then wrap64 (timestamp_now s + delay)
  else Z.min (GetTimestampTarget s) (wrap64 (timestamp_now s + delay)).
Proof.
  intros Hsh E. pose proof Hsh as [Hs Ho].
  destruct (decide (heap_size s < kMaxEvents)) as [Hlt|Hge];
    [|rewrite Add_full in E by lia; discriminate].
  destruct (Add_sound s delay cb Hs Ho Hlt) as (s1 & e1 & E1 & Hpost).
  rewrite E in E1. injection E1 as <- <-. destruct Hpost.
  set (t := wrap64 _) in *.
  destruct (root_is_earliest s' (conj add_inv0 add_ordered0) ltac:(lia))
    as [H0 Hmin].
  assert (Hnew : (GetTimestampTarget s' <= t)%Z).
  { rewrite <- add_ts0. apply Hmin, add_pending0. right. reflexivity. }
  assert (Hroot : ts_of s' (heap s' !!! 0) = GetTimestampTarget s') by reflexivity.
  destruct (heap_size s =? 0) eqn:Ez.
  - apply Nat.eqb_eq in Ez.
    apply add_pending0 in H0 as [[_ H0]|H0]; [lia|].
    rewrite <- Hroot, H0. exact add_ts0.
  - apply Nat.eqb_neq in Ez.
    destruct (root_is_earliest s Hsh ltac:(lia)) as [Hp0 Hmin0].
    assert (Hold : (GetTimestampTarget s' <= GetTimestampTarget s)%Z).
    { destruct (decide (heap s !!! 0 = event)) as [Ee|Ee].
      - destruct add_fresh0 as [_ Hf]. rewrite <- Ee in Hf. contradiction.
      - change (GetTimestampTarget s) with (ts_of s (heap s !!! 0)).
        rewrite <- add_ts_other0 by assumption.
        apply Hmin, add_pending0. left. exact Hp0. }
    apply add_pending0 in H0 as [H0|H0].
    + assert ((GetTimestampTarget s <= GetTimestampTarget s')%Z).
      { rewrite <- Hroot.
        destruct (decide (heap s' !!! 0 = event)) as [Ee|Ee].
        - destruct add_fresh0 as [_ Hf]. rewrite <- Ee in Hf. contradiction.
        - rewrite add_ts_other0 by assumption. apply Hmin0, H0. }
      lia.
    + rewrite <- Hroot, H0, add_ts0 in *. lia.
Qed.

(** X2.  After an [Add] that returns, [GetTimestampTarget] is the smaller
    of the target before and the timestamp of the new event, [now + delay]
    in [u64] arithmetic; it is the new timestamp when nothing was
    pending. *)
Theorem Add_moves_target_to_minimum :
  forall m delay id m',
    attainable m -> exec (OpAdd delay id) m = Ok m' ->
    GetTimestampTarget m'.1 =
    if heap_size m.1 =? 0
    then wrap64 (timestamp_now m.1 + delay)
    else Z.min (GetTimestampTarget m.1) (wrap64 (timestamp_now m.1 + delay)).
Proof.
  intros [s tr] delay id m' Hm%attainable_shaped. cbn [exec fst snd].
  destruct (Add s delay (Client id)) as [[s1 e]|] eqn:E; [|discriminate].
  intros [= <-]. cbn [fst]. eapply Add_target; eassumption.
Qed.

Lemma Add_moves_target_to_minimum_witness :
  exists m m',
    session [OpAdd 9 1; OpAdd 4 2] = Some m /\
    exec (OpAdd 6 3) m = Ok m' /\
    GetTimestampTarget m'.1 =
    if heap_size m.1 =? 0
    then wrap64 (timestamp_now m.1 + 6)
    else Z.min (GetTimestampTarget m.1) (wrap64 (timestamp_now m.1 + 6)).
Proof.
  eexists. eexists. split; [vm_compute; reflexivity|].
  split; [vm_compute; reflexivity|].
  apply (Add_moves_target_to_minimum _ 6 3).
  - apply reachable_attainable.
    apply (session_reachable [OpAdd 9 1; OpAdd 4 2]). vm_compute. reflexivity.
  - vm_compute. reflexivity.
Defined.

(** X3.  The deadline query: when an [Add] with a delay below [2^31]
    schedules the event that is now the nearest (its timestamp does not
    wrap and is at most the target before), [GetRemainingCycleCount]
    returns that delay. *)
Theorem remaining_count_after_Add :
  forall m delay id m',
    reachable m -> exec (OpAdd delay id) m = Ok m' ->
    (0 <= delay < 2 ^ 31)%Z ->
    (timestamp_now m.1 + delay < u64_modulus)%Z ->
    (heap_size m.1 = 0 \/
     (timestamp_now m.1 + delay <= GetTimestampTarget m.1)%Z) ->
    GetRemainingCycleCount m'.1 = delay.
Proof.
  intros [s tr] delay id m' Hm. pose proof (reachable_wf _ Hm) as Hw.
  cbn [fst] in Hw. pose proof Hw as [Hs Ho [Hnow _] _].
  cbn [exec fst snd].
  destruct (Add s delay (Client id)) as [[s1 e]|] eqn:E; [|discriminate].
  intros [= <-] Hd Hov Hnear. cbn [fst] in *.
  pose proof (Add_target _ _ _ _ _ (conj Hs Ho) E) as Ht.
  destruct (decide (heap_size s < kMaxEvents)) as [Hlt|Hge];
    [|rewrite Add_full in E by lia; discriminate].
  destruct (Add_sound s delay (Client id) Hs Ho Hlt) as (s2 & e2 & E2 & Hpost).
  rewrite E in E2. injection E2 as <- <-. destruct Hpost.
  rewrite wrap64_small in Ht by lia.
  unfold GetRemainingCycleCount, GetTimestampNow. rewrite add_now0.
  assert (Et : GetTimestampTarget s1 = (timestamp_now s + delay)%Z).
  { rewrite Ht. destruct (heap_size s =? 0) eqn:Ez; [reflexivity|].
    apply Nat.eqb_neq in Ez. destruct Hnear as [|Hnear]; [lia|]. lia. }
  rewrite Et.
  replace (timestamp_now s + delay - timestamp_now s)%Z with delay by lia.
  rewrite wrap64_small by (unfold u64_modulus; lia).
  unfold to_int. cbv zeta. rewrite Z.mod_small by lia.
  destruct (delay <? 2 ^ 31)%Z eqn:El; [reflexivity|].
  apply Z.ltb_ge in El. lia.
Qed.

Lemma remaining_count_after_Add_witness :
  exists m m',
    session [OpAdd 30 1; OpAddCycles 7] = Some m /\
    exec (OpAdd 10 2) m = Ok m' /\
    GetRemainingCycleCount m'.1 = 10%Z.
Proof.
  eexists. eexists. split; [vm_compute; reflexivity|].
  match goal with |- exec _ ?M = _ /\ _ => pose (m0 := M) end.
  split; [vm_compute; reflexivity|].
  apply (remaining_count_after_Add m0 10 2).
  - apply (session_reachable [OpAdd 30 1; OpAddCycles 7]). vm_compute. reflexivity.
  - vm_compute. reflexivity.
  - lia.
  - vm_compute. reflexivity.
  - right. vm_compute. discriminate.
Defined.

(** ** [Reset] *)

(** X4.  [Reset] returns from every attainable state, whatever was
    pending: afterwards the time is 0 and exactly one event is pending, at
    the root, with the largest [u64] timestamp and the callback that
    asserts the end of the queue.  The remaining cycle count is then -1,
    the low 32 bits of [2^64 - 1] read as an [int]. *)
Theorem Reset_restarts_the_timeline :
  forall m,
    attainable m ->
    exists s',
      Reset m.1 = Ok s' /\
      heap_size s' = 1 /\
      GetTimestampNow s' = 0%Z /\
      (forall p, pending s' p <-> p = heap s' !!! 0) /\
      GetTimestampTarget s' = u64_max /\
      cb_of s' (heap s' !!! 0) = QueueEnd /\
      GetRemainingCycleCount s' = (-1)%Z.
Proof.
  intros [s tr] [Hs _]%attainable_shaped. cbn [fst] in *. unfold Reset.
  set (s0 := set_timestamp_now (set_heap_size s 0) 0).
  assert (Hs0 : inv s0).
  { destruct Hs. split; try assumption. cbn. lia. }
  assert (Ho0 : heap_ordered s0) by (intros j _ Hj; cbn in Hj; lia).
  destruct (Add_sound s0 u64_max QueueEnd Hs0 Ho0 ltac:(cbn; unfold kMaxEvents; lia))
    as (s' & e & E & []).
  rewrite E. cbn [mbind Result_bind]. exists s'.
  assert (Hroot : heap s' !!! 0 = e).
  { assert (Hp : pending s' e) by (apply add_pending0; right; reflexivity).
    destruct Hp as [He Hh].
    destruct (inv_slot s' add_inv0 e He) as [_ Hslot].
    replace (handle_of s' e) with 0 in Hslot; [exact Hslot|].
    rewrite add_size0 in Hh. cbn in Hh. lia. }
  assert (Hts : GetTimestampTarget s' = u64_max).
  { change (GetTimestampTarget s') with (ts_of s' (heap s' !!! 0)).
    rewrite Hroot, add_ts0. reflexivity. }
  split; [reflexivity|]. split; [exact add_size0|].
  split; [exact add_now0|]. split; [|split; [exact Hts|split]].
  - intros p. rewrite Hroot, add_pending0. split; [|tauto].
    intros [[_ Hp]|Hp]; [cbn in Hp; lia|exact Hp].
  - rewrite Hroot. exact add_cb0.
  - unfold GetRemainingCycleCount, GetTimestampNow.
    rewrite Hts, add_now0. reflexivity.
Qed.

Lemma Reset_restarts_the_timeline_witness :
  exists m,
    session [OpAdd 9 1; OpAdd 4 2; OpAddCycles 5; OpAdd 6 3] = Some m /\
    exists s', Reset m.1 = Ok s' /\ heap_size s' = 1 /\ GetTimestampNow s' = 0%Z.
Proof.
  eexists. split; [vm_compute; reflexivity|].
  match goal with |- exists _, Reset ?M.1 = _ /\ _ => pose (m0 := M) end.
  destruct (Reset_restarts_the_timeline m0) as (s' & E & Hsz & Hnow & _).
  - apply reachable_attainable.
    apply (session_reachable [OpAdd 9 1; OpAdd 4 2; OpAddCycles 5; OpAdd 6 3]).
    vm_compute. reflexivity.
  - exists s'. split; [exact E|]. split; assumption.
Defined.

(** ** Advancing time *)

Lemma drained_not_queue_end s deadline s' ps fired :
  drained s deadline s' ps fired -> ~ queue_end_due s deadline.
Proof.
  intros [] (p & Hp & Ht & Hcb).
  assert (Hin : p ∈ ps) by (apply dr_due0; split; assumption).
  apply list_elem_of_lookup in Hin as [i Hi].
  destruct (Forall2_lookup_l _ _ _ _ _ dr_fired0 Hi) as (x & _ & Hf & _).
  rewrite Hcb in Hf. discriminate.
Qed.

(** ** The slot of a removed event *)

(** The pointer just above the heap. *)
Definition parked (s : Scheduler) (e : nat) : Prop :=
  inv s /\ heap s !!! heap_size s = e.

Lemma Swap_parked s i j e :
  i < heap_size s -> j < heap_size s -> parked s e -> parked (Swap s i j) e.
Proof.
  intros Hi Hj [Hs He]. pose proof (inv_size s Hs). pose proof (inv_heap s Hs).
  split; [apply Swap_inv; [assumption|lia..]|].
  change (heap_size (Swap s i j)) with (heap_size s).
  rewrite Swap_heap by lia. rewrite transp_other by lia. exact He.
Qed.

Lemma sift_up_parked s n e :
  n < heap_size s -> parked s e -> parked (sift_up s n) e.
Proof.
  intros Hn Hp.
  destruct (sift_up_rule (fun s n => n < heap_size s /\ parked s e)) with (n := n) (s := s)
    as (m & _ & _ & _ & H); [|split; assumption|exact H].
  clear. intros s n Ha [Hn Hp]. pose proof (Parent_le n).
  split; [change (heap_size (Swap s n (Parent n))) with (heap_size s); lia|].
  apply Swap_parked; [lia..|exact Hp].
Qed.

Lemma Heapify_parked s n e : parked s e -> parked (Heapify s n) e.
Proof.
  apply (Heapify_rule (fun s => parked s e)). intros s' c n' Hb Hlt Hp.
  apply below_size in Hb. apply Swap_parked; [lia..|exact Hp].
Qed.

Lemma Remove_parked s n s' :
  inv s -> heap_ordered s -> n < heap_size s -> Remove s n = Ok s' ->
  parked s' (heap s !!! n).
Proof.
  intros Hs Ho Hn. pose proof (inv_size s Hs) as Hsz. pose proof (inv_heap s Hs).
  rewrite Remove_eq by lia. intros [= <-].
  assert (Hu : parked (unlink s n) (heap s !!! n)).
  { split; [apply unlink_inv; assumption|].
    rewrite unlink_heap_size. unfold unlink.
    rewrite Swap_heap by (cbn; lia). rewrite transp_r. reflexivity. }
  destruct (above (unlink s n) n) eqn:Ha.
  - apply sift_up_parked; [|exact Hu]. rewrite unlink_heap_size.
    destruct (decide (n = heap_size s - 1)) as [E|]; [|lia].
    rewrite unlink_last_stays in Ha by assumption. discriminate.
  - apply Heapify_parked, Hu.
Qed.

(** X7.  The object of a cancelled event is the next one handed out: after
    [Cancel] of a pending event, the following [Add] returns the same
    pointer. *)
Theorem Add_reuses_cancelled_slot :
  forall m event delay cb,
    attainable m -> pending m.1 event ->
    exists s1 s2,
      Cancel m.1 event = Ok s1 /\ Add s1 delay cb = Ok (s2, event).
Proof.
  intros [s tr] e delay cb [Hs Ho]%attainable_shaped Hp. cbn [fst] in *.
  destruct (Cancel_sound s e Hs Ho Hp) as (s1 & E1 & Hpost).
  pose proof Hp as [He Hh].
  assert (Hpark : parked s1 (heap s !!! handle_of s e))
    by (eapply Remove_parked; [exact Hs|exact Ho|exact Hh|exact E1]).
  rewrite (proj2 (inv_slot s Hs e He)) in Hpark.
  destruct Hpost. pose proof (inv_size s Hs).
  destruct (Add_sound s1 delay cb rm_inv0 rm_ordered0 ltac:(lia))
    as (s2 & e2 & E2 & []).
  exists s1, s2. split; [exact E1|]. rewrite E2.
  destruct Hpark as [_ Hpark]. congruence.
Qed.

Lemma Add_reuses_cancelled_slot_witness :
  exists m,
    session [OpAdd 9 1; OpAdd 4 2; OpAdd 6 3] = Some m /\
    exists s1 s2, Cancel m.1 2 = Ok s1 /\ Add s1 7 (Client 4) = Ok (s2, 2).
Proof.
  eexists. split; [vm_compute; reflexivity|].
  match goal with |- exists _ _, Cancel ?M.1 _ = _ /\ _ => pose (m0 := M) end.
  apply (Add_reuses_cancelled_slot m0 2 7 (Client 4)).
  - apply reachable_attainable.
    apply (session_reachable [OpAdd 9 1; OpAdd 4 2; OpAdd 6 3]).
    vm_compute. reflexivity.
  - split; vm_compute; lia.
Defined.

(** X8.  [Cancel] undoes [Add]: cancelling the event an [Add] has just
    returned gives back the number and the set of pending events, their
    timestamps and callbacks, and the time. *)
Theorem Cancel_undoes_Add :
  forall m delay cb s1 event,
    attainable m -> Add m.1 delay cb = Ok (s1, event) ->
    exists s2,
      Cancel s1 event = Ok s2 /\
      heap_size s2 = heap_size m.1 /\
      GetTimestampNow s2 = GetTimestampNow m.1 /\
      (forall p, pending s2 p <-> pending m.1 p) /\
      (forall p, pending m.1 p ->
                 ts_of s2 p = ts_of m.1 p /\ cb_of s2 p = cb_of m.1 p).
Proof.
  intros [s tr] delay cb s1 e [Hs Ho]%attainable_shaped E. cbn [fst] in *.
  destruct (decide (heap_size s < kMaxEvents)) as [Hlt|Hge];
    [|rewrite Add_full in E by lia; discriminate].
  destruct (Add_sound s delay cb Hs Ho Hlt) as (s1' & e' & E' & Hadd).
  rewrite E in E'. injection E' as <- <-. destruct Hadd.
  destruct (Cancel_sound s1 e add_inv0 add_ordered0) as (s2 & E2 & []).
  { apply add_pending0. right. reflexivity. }
  exists s2. split; [exact E2|]. split; [lia|].
  split; [unfold GetTimestampNow; congruence|]. split.
  - intros p. rewrite rm_pending0, add_pending0. split; [tauto|].
    intros Hp. split; [left; exact Hp|]. intros ->. apply add_fresh0, Hp.
  - intros p Hp. assert (p <> e) by (intros ->; apply add_fresh0, Hp).
    rewrite rm_ts0, rm_cb0, add_ts_other0, add_cb_other0 by assumption.
    split; reflexivity.
Qed.

Lemma Cancel_undoes_Add_witness :
  exists m,
    session [OpAdd 9 1; OpAdd 4 2; OpAdd 6 3] = Some m /\
    exists s1,
      Add m.1 2 (Client 4) = Ok (s1, 4) /\
      exists s2, Cancel s1 4 = Ok s2 /\ heap_size s2 = heap_size m.1.
Proof.
  eexists. split; [vm_compute; reflexivity|].
  match goal with |- exists _, Add ?M.1 _ _ = _ /\ _ => pose (m0 := M) end.
  eexists. split; [vm_compute; reflexivity|].
  match goal with |- exists _, Cancel ?S _ = _ /\ _ => pose (s1 := S) end.
  destruct (Cancel_undoes_Add m0 2 (Client 4) s1 4) as (s2 & E2 & Hsz & _).
  - apply reachable_attainable.
    apply (session_reachable [OpAdd 9 1; OpAdd 4 2; OpAdd 6 3]).
    vm_compute. reflexivity.
  - vm_compute. reflexivity.
  - exists s2. split; assumption.
Defined.

(** ** [Cancel] of an event that is not pending *)

(** X9.  [Cancel] does not check that its event is pending.  Given the
    pointer of an event that has fired or was cancelled, while other events
    are pending, it returns, and one pending event has left the heap in its
    place; with nothing pending the index [heap_size - 1] it computes is
    outside the array. *)
Theorem Cancel_twice_drops_another_event :
  forall m event,
    attainable m -> event < kMaxEvents -> ~ pending m.1 event ->
    (heap_size m.1 = 0 -> Cancel m.1 event = Fatal ArrayBounds) /\
    (0 < heap_size m.1 ->
     exists s',
       Cancel m.1 event = Ok s' /\
       heap_size s' = heap_size m.1 - 1 /\
       exists other, other <> event /\ pending m.1 other /\ ~ pending s' other).
Proof.
  intros [s tr] e Hm He Hn. pose proof (attainable_shaped _ Hm) as Hsh.
  cbn [fst] in *. pose proof Hsh as [Hs Ho]. split.
  - intros Hz. unfold Cancel, Remove. rewrite Hz. reflexivity.
  - intros Hsz. destruct (inv_slot s Hs e He) as [Hh _].
    assert (Hstale : heap_size s <= handle_of s e)
      by (unfold pending in Hn; lia).
    destruct (Remove_stale_shaped s (handle_of s e) Hsh Hsz ltac:(lia))
      as (s' & E & [Hs' _] & Hsz').
    exists s'. split; [exact E|]. split; [exact Hsz'|].
    destruct (decide (Exists (fun q => pending s q /\ ~ pending s' q)
                        (seq 0 kMaxEvents))) as [Hex|Hno].
    + apply Exists_exists in Hex as (q & _ & Hq & Hq').
      exists q. split; [|split; assumption]. intros ->. contradiction.
    + exfalso. apply not_Exists_Forall in Hno; [|intros q; apply _].
      assert (Hsub : filter (pending s) (seq 0 kMaxEvents)
                       ⊆+ filter (pending s') (seq 0 kMaxEvents)).
      { apply NoDup_submseteq; [apply NoDup_filter, NoDup_seq|].
        intros q [Hq Hin]%list_elem_of_filter. apply list_elem_of_filter.
        split; [|exact Hin].
        rewrite Forall_forall in Hno. specialize (Hno q Hin). cbn in Hno.
        destruct (decide (pending s' q)); tauto. }
      apply submseteq_length in Hsub.
      rewrite !pending_count in Hsub by assumption. lia.
Qed.

Lemma Cancel_twice_drops_another_event_witness :
  exists m,
    session [OpAdd 9 1; OpAdd 4 2; OpCancel 2] = Some m /\
    exists s', Cancel m.1 2 = Ok s' /\ heap_size s' = heap_size m.1 - 1.
Proof.
  eexists. split; [vm_compute; reflexivity|].
  match goal with |- exists _, Cancel ?M.1 _ = _ /\ _ => pose (m0 := M) end.
  destruct (Cancel_twice_drops_another_event m0 2) as [_ H].
  - apply reachable_attainable.
    apply (session_reachable [OpAdd 9 1; OpAdd 4 2; OpCancel 2]).
    vm_compute. reflexivity.
  - vm_compute. lia.
  - intros [_ H]. vm_compute in H. lia.
  - destruct H as (s' & E & Hsz & _); [vm_compute; lia|].
    exists s'. split; assumption.
Defined.

(** ** Advancing in two steps *)

Lemma Step_split d1 d2 :
  (d1 <= d2)%Z ->
  forall m, Step m d2 = m1 ← Step m d1; Step m1 d2.
Proof.
  intros Hd m. remember (heap_size m.1) as k eqn:Hk. revert m Hk.
  induction k as [k IH] using lt_wf_ind. intros m ->.
  rewrite (Step_eq m d1). destruct (due m.1 d1) eqn:E1; [|reflexivity].
  rewrite (Step_eq m d2).
  assert (E2 : due m.1 d2 = true).
  { apply due_spec in E1 as [H1 H2]. apply due_spec. split; [lia|exact H2]. }
  rewrite E2. destruct (Step_body m) as [m'|f] eqn:Eb; [|reflexivity].
  cbn [mbind Result_bind]. eapply IH; [|reflexivity].
  eapply Step_body_heap_size; exact Eb.
Qed.

Lemma Step_timestamp_now s tr t d x :
  ('(s', tr') ← Step (set_timestamp_now s t, tr) d;
   Ok (set_timestamp_now s' x, tr')) =
  ('(s', tr') ← Step (s, tr) d; Ok (set_timestamp_now s' x, tr')).
Proof.
  rewrite (Step_eq (set_timestamp_now s t, tr)), (Step_eq (s, tr)). cbn [fst].
  change (due (set_timestamp_now s t) d) with (due s d).
  destruct (due s d); reflexivity.
Qed.

(** X10.  Time can be advanced in slices: [AddCycles(a + b)] is
    [AddCycles(a)] followed by [AddCycles(b)], with the same callbacks
    invoked in the same order, the same final state and the same abort if
    there is one, when [b >= 0] and the second deadline does not wrap. *)
Theorem AddCycles_in_two_steps :
  forall m a b,
    (0 <= b)%Z ->
    (wrap64 (timestamp_now m.1 + a) + b < u64_modulus)%Z ->
    AddCycles m (a + b) = m1 ← AddCycles m a; AddCycles m1 b.
Proof.
  intros [s tr] a b Hb Hov. unfold AddCycles. cbn [fst] in *.
  set (d1 := wrap64 (timestamp_now s + a)) in *.
  assert (E : wrap64 (timestamp_now s + (a + b)) = (d1 + b)%Z).
  { pose proof (wrap64_range (timestamp_now s + a)). fold d1 in H.
    rewrite <- (wrap64_small (d1 + b)) by lia.
    unfold d1, wrap64. rewrite Zplus_mod_idemp_l. f_equal. lia. }
  rewrite E. rewrite (Step_split d1 (d1 + b)) by lia.
  destruct (Step (s, tr) d1) as [[s1 tr1]|f]; [|reflexivity].
  cbn [mbind Result_bind fst timestamp_now set_timestamp_now].
  rewrite wrap64_small
    by (pose proof (wrap64_range (timestamp_now s + a)); fold d1 in H; lia).
  symmetry. apply Step_timestamp_now.
Qed.

Lemma AddCycles_in_two_steps_witness :
  exists m m',
    session [OpAdd 9 1; OpAdd 4 2; OpAdd 6 3] = Some m /\
    AddCycles m (5 + 4) = Ok m' /\
    (m1 ← AddCycles m 5; AddCycles m1 4) = Ok m' /\
    inv_callback <$> m'.2 = [2; 3; 1].
Proof.
  eexists. eexists. split; [vm_compute; reflexivity|].
  match goal with |- AddCycles ?M _ = _ /\ _ => pose (m0 := M) end.
  split; [vm_compute; reflexivity|]. split; [|reflexivity].
  refine (eq_trans (eq_sym (AddCycles_in_two_steps m0 5 4 _ _)) _).
  - lia.
  - vm_compute. reflexivity.
  - vm_compute. reflexivity.
Defined.

(** ** Events at the same timestamp *)

(** [n] events with the callbacks [0 .. n-1], added in this order with the
    same delay, and the time advanced by that delay. *)
Definition same_time_adds (n : nat) (delay : Z) : list Op :=
  ((fun id => OpAdd delay id) <$> seq 0 n) ++ [OpAddCycles delay].

Definition fired_ids (ops : list Op) : option (list nat) :=
  (fun tr : list Invocation => inv_callback <$> tr) <$> trace_of ops.

(** X11.  Events with equal timestamps need not fire in the order they
    were added: the order among them is that of the heap.  Three events
    added with the same delay fire as first, third, second. *)
Theorem ties_do_not_fire_in_insertion_order :
  fired_ids (same_time_adds 3 5) = Some [0; 2; 1] /\
  ~ (forall n delay,
       0 < n < kMaxEvents -> (0 <= delay < 2 ^ 31)%Z ->
       fired_ids (same_time_adds n delay) = Some (seq 0 n)).
Proof.
  split; [vm_compute; reflexivity|]. intros H.
  specialize (H 3 5%Z ltac:(unfold kMaxEvents; lia) ltac:(lia)).
  vm_compute in H. discriminate.
Qed.

(** ** The indices of the heap *)

(** X18.  The index arithmetic of the heap: [Parent] undoes [LeftChild]
    and [RightChild], the two children of a node are different and lie
    after it, every index but the root is a child of its parent, which
    lies before it, and the parent of the root is the root. *)
Theorem heap_navigation :
  forall n,
    Parent (LeftChild n) = n /\ Parent (RightChild n) = n /\
    n < LeftChild n < RightChild n /\
    Parent 0 = 0 /\
    (0 < n ->
     Parent n < n /\ (n = LeftChild (Parent n) \/ n = RightChild (Parent n))).
Proof.
  intros n. unfold Parent, LeftChild, RightChild. repeat split; lia.
Qed.

Lemma heap_navigation_witness :
  Parent 6 < 6 /\ (6 = LeftChild (Parent 6) \/ 6 = RightChild (Parent 6)).
Proof.
  apply (heap_navigation 6). lia.
Defined.

End SchedMore.

(** * Callbacks that call the scheduler *)

Module Callbacks.

Import Sched.

#[local] Ltac Zify.zify_post_hook ::= Z.to_euclidean_division_equations.

(** ** The model *)

(** The callback of a client is code of the caller: while it runs, inside
    the loop of [Step], it may call [Add] and [Cancel] on the scheduler, as
    an event that schedules itself again does.  What the callback with a
    given number does is a list of such calls, which may depend on the
    scheduler as the callback finds it and on the callbacks run before. *)
Inductive Action : Type :=
| DoAdd (delay : Z) (id : nat)
| DoCancel (event : nat).

Definition Handlers : Type := nat -> Machine -> list Action.

Definition perform (a : Action) (s : Scheduler) : Result Scheduler :=
  match a with
  | DoAdd delay id => '(s', _) ← Add s delay (Client id); Ok s'
  | DoCancel event => Cancel s event
  end.

Fixpoint perform_all (script : list Action) (s : Scheduler) : Result Scheduler :=
  match script with
  | [] => Ok s
  | a :: script' => s' ← perform a s; perform_all script' s'
  end.

(** How a call ends: it returns, or an assertion stops the program, or it
    is still running when the count of loop turns it was given is used up.
    The callbacks invoked so far are known in each case. *)
Inductive Outcome : Type :=
| Returns (m : Machine)
| Aborts (f : Abort) (tr : list Invocation)
| Running (tr : list Invocation).

Definition invoked (o : Outcome) : list Invocation :=
  match o with
  | Returns m => m.2
  | Aborts _ tr => tr
  | Running tr => tr
  end.

Definition lift (r : Result Scheduler) (tr : list Invocation) : Outcome :=
  match r with
  | Ok s => Returns (s, tr)
  | Fatal f => Aborts f tr
  end.

(** The body of the loop of [Step]: [event->callback(0)] runs the calls of
    the callback on the scheduler, and [Remove(event->handle)] reads the
    handle afterwards. *)
Definition Step_body (h : Handlers) (m : Machine) : Outcome :=
  let '(s, tr) := m in
  let event := heap s !!! 0 in
  let s := set_timestamp_now s (timestamp (events s !!! event)) in
  match callback (events s !!! event) with
  | Empty => Aborts BadFunctionCall tr
  | QueueEnd => Aborts EndOfQueue tr
  | Client id =>
      let script := h id (s, tr) in
      let tr := tr ++ [mkInvocation id (GetTimestampNow s) 0] in
      match perform_all script s with
      | Fatal f => Aborts f tr
      | Ok s => lift (Remove s (handle (events s !!! event))) tr
      end
  end.

(** The loop of [Step] need not end, so it is given a number of turns. *)
Fixpoint Step (h : Handlers) (fuel : nat) (m : Machine) (timestamp_next : Z)
  : Outcome :=
  if due m.1 timestamp_next
  then match fuel with
       | 0 => Running m.2
       | S fuel' =>
           match Step_body h m with
           | Returns m' => Step h fuel' m' timestamp_next
           | o => o
           end
       end
  else Returns m.

Definition AddCycles (h : Handlers) (fuel : nat) (m : Machine) (cycles : Z)
  : Outcome :=
  let timestamp_next := wrap64 (timestamp_now m.1 + cycles) in
  match Step h fuel m timestamp_next with
  | Returns (s, tr) => Returns (set_timestamp_now s timestamp_next, tr)
  | o => o
  end.

Definition exec (h : Handlers) (fuel : nat) (op : Op) (m : Machine) : Outcome :=
  match op with
  | OpReset => lift (Reset m.1) m.2
  | OpAdd delay id => lift ('(s, _) ← Add m.1 delay (Client id); Ok s) m.2
  | OpCancel event => lift (Cancel m.1 event) m.2
  | OpAddCycles cycles => AddCycles h fuel m cycles
  end.

(** A sequence of calls, up to the first that does not return. *)
Fixpoint run (h : Handlers) (fuel : nat) (ops : list Op) (m : Machine) : Outcome :=
  match ops with
  | [] => Returns m
  | op :: ops' =>
      match exec h fuel op m with
      | Returns m' => run h fuel ops' m'
      | o => o
      end
  end.

Definition session (h : Handlers) (fuel : nat) (ops : list Op) : Outcome :=
  match construct with
  | Ok s => run h fuel ops (s, [])
  | Fatal f => Aborts f []
  end.

(** The calls in the callbacks have arguments of the types of [Add] and
    [Cancel]: a [u64] delay, a pointer to one of the 64 event objects. *)
Definition typed_action (a : Action) : Prop :=
  match a with
  | DoAdd delay _ => (0 <= delay < u64_modulus)%Z
  | DoCancel event => event < kMaxEvents
  end.

Definition typed_handlers (h : Handlers) : Prop :=
  forall id m a, a ∈ h id m -> typed_action a.

(** The states any sequence of calls that return can bring the scheduler
    to, with the callbacks [h]. *)
Inductive attainable (h : Handlers) : Machine -> Prop :=
| attain_new s :
    construct = Ok s -> attainable h (s, [])
| attain_call m op fuel m' :
    attainable h m -> typed op = true -> exec h fuel op m = Returns m' ->
    attainable h m'.

(** Callbacks that leave the scheduler alone. *)
Definition inert (h : Handlers) : Prop := forall id m, h id m = [].

(** Callbacks that only schedule events, none of them at a timestamp that
    wraps around when the callback runs at or before [deadline]. *)
Definition re_arming (h : Handlers) (deadline : Z) : Prop :=
  forall id m a, a ∈ h id m ->
    exists delay id', a = DoAdd delay id' /\
      (0 <= delay)%Z /\ (deadline + delay < u64_modulus)%Z.

(** No callback schedules the callback [id]. *)
Definition never_adds (h : Handlers) (id : nat) : Prop :=
  forall id' m delay, DoAdd delay id ∉ h id' m.

(** ** [Remove] at any index *)

Lemma Remove_frame s n s' :
  Remove s n = Ok s' ->
  timestamp_now s' = timestamp_now s /\
  (forall p, ts_of s' p = ts_of s p) /\
  (forall p, cb_of s' p = cb_of s p).
Proof.
  unfold Remove. destruct (_ || _); [discriminate|]. cbv zeta.
  set (u := Swap _ n _).
  assert (Hu : timestamp_now u = timestamp_now s /\
               (forall p, ts_of u p = ts_of s p) /\
               (forall p, cb_of u p = cb_of s p)).
  { split; [reflexivity|]. split; intros p; unfold u.
    - rewrite Swap_ts_of. reflexivity.
    - rewrite Swap_cb_of. reflexivity. }
  destruct Hu as (U1 & U2 & U3).
  destruct (above u n); intros [= <-].
  - rewrite sift_up_timestamp_now. split; [exact U1|].
    split; intros p.
    + rewrite sift_up_ts_of, Swap_ts_of. apply U2.
    + rewrite sift_up_cb_of, Swap_cb_of. apply U3.
  - rewrite Heapify_timestamp_now. split; [exact U1|].
    split; intros p.
    + rewrite Heapify_ts_of. apply U2.
    + rewrite Heapify_cb_of. apply U3.
Qed.

(** Given an index outside the heap, [Remove] lets no event into the heap
    that was not in it. *)
Lemma Remove_stale_pending s n s' :
  shaped s -> 0 < heap_size s -> heap_size s <= n < kMaxEvents ->
  Remove s n = Ok s' ->
  forall p, pending s' p -> pending s p.
Proof.
  intros [Hs Ho] Hsz Hn. pose proof (inv_size s Hs) as Hle.
  rewrite Remove_eq by lia. intros [= <-].
  set (u := unlink s n).
  assert (Hu : inv u)
    by (apply Swap_inv; [apply set_heap_size_inv| |]; assumption || lia).
  assert (Hup : forall p, pending u p -> pending s p).
  { intros p [Hp Hh]. split; [exact Hp|]. unfold u, unlink in Hh.
    rewrite Swap_handle_of in Hh
      by (try apply set_heap_size_inv; assumption || lia).
    change (handle_of (set_heap_size s (heap_size s - 1)) p)
      with (handle_of s p) in Hh.
    change (heap_size (Swap _ _ _)) with (heap_size s - 1) in Hh.
    unfold transp in Hh. repeat case_decide; lia. }
  assert (Hlast : pending s (heap u !!! n)).
  { unfold u, unlink. pose proof (inv_heap s Hs).
    rewrite Swap_heap by (cbn; lia). rewrite transp_l.
    change (heap (set_heap_size s (heap_size s - 1))) with (heap s).
    apply pending_at; [exact Hs|lia]. }
  destruct (above u n) eqn:Ha.
  - destruct (sift_up_rule (fun u' k =>
        inv u' /\ k < kMaxEvents /\
        (forall p, pending u' p -> pending s p) /\
        pending s (heap u' !!! k)))
      with (n := n) (s := u) as (m & _ & _ & _ & _ & H & _);
      [|split; [exact Hu|split; [lia|split; [exact Hup|exact Hlast]]]|exact H].
    clear. intros u k Ha (Hu & Hk & Hsub & Hat).
    pose proof (Parent_le k). pose proof (inv_heap u Hu).
    split; [apply Swap_inv; assumption || lia|]. split; [lia|]. split.
    + intros p [Hp Hh].
      rewrite Swap_handle_of in Hh by (assumption || lia).
      change (heap_size (Swap u k (Parent k))) with (heap_size u) in Hh.
      destruct (decide (handle_of u p = k)) as [E|E].
      * replace p with (heap u !!! k); [exact Hat|].
        rewrite <- E. apply inv_slot; assumption.
      * apply Hsub. split; [exact Hp|].
        unfold transp in Hh. repeat case_decide; lia.
    + rewrite Swap_heap by lia. rewrite transp_r. exact Hat.
  - unfold Heapify.
    rewrite Heapify_rec_leaf by (change (heap_size u) with (heap_size s - 1); lia).
    exact Hup.
Qed.

(** ** What the calls keep *)

Lemma Cancel_wf s e s' :
  wf s -> e < kMaxEvents -> Cancel s e = Ok s' ->
  wf s' /\
  heap_size s' = heap_size s - 1 /\
  timestamp_now s' = timestamp_now s /\
  (forall p, ts_of s' p = ts_of s p) /\
  (forall p, cb_of s' p = cb_of s p) /\
  (forall p, pending s' p -> pending s p /\ (pending s e -> p <> e)) /\
  (forall p, pending s e -> pending s p -> p <> e -> pending s' p).
Proof.
  intros Hw He E. pose proof Hw as [Hs Ho [Hr1 Hr2] Ha].
  destruct (Remove_frame _ _ _ E) as (F1 & F2 & F3).
  destruct (Remove_heap_size _ _ _ E) as [Hsz Hsz'].
  destruct (decide (pending s e)) as [Hp|Hn].
  - destruct (Cancel_sound s e Hs Ho Hp) as (s1 & E1 & Hpost).
    rewrite E in E1. injection E1 as <-.
    split; [eapply Remove_post_wf; eassumption|].
    destruct Hpost.
    split; [assumption|]. split; [assumption|]. split; [assumption|].
    split; [assumption|]. split.
    + intros p Hp'%rm_pending0. split; [apply Hp'|]. intros _. apply Hp'.
    + intros p _ Hp' Hne. apply rm_pending0. split; assumption.
  - unfold Cancel in E. fold (handle_of s e) in E.
    destruct (inv_slot s Hs e He) as [Hh _].
    assert (Hstale : heap_size s <= handle_of s e < kMaxEvents)
      by (unfold pending in Hn; lia).
    destruct (Remove_stale_shaped s _ (conj Hs Ho) Hsz Hstale)
      as (s1 & E1 & [Hs1 Ho1] & _).
    rewrite E in E1. injection E1 as <-.
    pose proof (Remove_stale_pending s _ s' (conj Hs Ho) Hsz Hstale E) as Hsub.
    split; [|split; [assumption|]; split; [assumption|]; split; [assumption|];
             split; [assumption|]; split;
             [intros p Hp'; split; [apply Hsub, Hp'|tauto]|tauto]].
    split; try assumption.
    + split; [congruence|]. intros p Hp. rewrite F2. apply Hr2, Hp.
    + intros p Hp%Hsub. rewrite F2, F3. apply Ha, Hp.
Qed.

Lemma Add_wf s delay id s' event :
  wf s -> Add s delay (Client id) = Ok (s', event) ->
  wf s' /\ Add_post s (wrap64 (timestamp_now s + delay)) (Client id) s' event.
Proof.
  intros Hw E. pose proof Hw as [Hs Ho [Hr1 Hr2] Ha].
  destruct (decide (heap_size s < kMaxEvents)) as [Hlt|Hge];
    [|rewrite Add_full in E by lia; discriminate].
  destruct (Add_sound s delay (Client id) Hs Ho Hlt) as (s1 & e1 & E1 & Hpost).
  rewrite E in E1. injection E1 as <- <-. split; [|exact Hpost].
  destruct Hpost. split; [assumption..| |].
  - split; [congruence|]. intros p Hp.
    destruct (decide (p = event)) as [->|Hne].
    + rewrite add_ts0. apply wrap64_range.
    + rewrite add_ts_other0 by assumption. apply Hr2, Hp.
  - intros p [Hp| ->]%add_pending0.
    + destruct (decide (p = event)) as [->|Hne]; [tauto|].
      rewrite add_ts_other0, add_cb_other0 by assumption. apply Ha, Hp.
    + left. exists id. assumption.
Qed.

(** After [Reset] the event with the assertion is the only one pending. *)
Lemma Reset_wf s s' :
  wf s -> Reset s = Ok s' ->
  wf s' /\ forall p, pending s' p -> cb_of s' p = QueueEnd.
Proof.
  intros Hw E. pose proof Hw as [Hs Ho [Hr1 Hr2] Ha].
  destruct (Reset_sound s Hs Hr2) as (s1 & E1 & Hw1 & _).
  rewrite E in E1. injection E1 as <-. split; [exact Hw1|].
  revert E. unfold Reset.
  set (s0 := set_timestamp_now (set_heap_size s 0) 0).
  assert (Hs0 : inv s0) by (destruct Hs; split; try assumption; cbn; lia).
  assert (Ho0 : heap_ordered s0) by (intros j _ Hj; cbn in Hj; lia).
  destruct (Add_sound s0 u64_max QueueEnd Hs0 Ho0 ltac:(cbn; unfold kMaxEvents; lia))
    as (s2 & e & E2 & []).
  rewrite E2. cbn [mbind Result_bind]. intros [= <-].
  intros p [[_ Hp]| ->]%add_pending0; [cbn in Hp; lia|exact add_cb0].
Qed.

(** ** The calls of a callback *)

Lemma perform_all_rule (P : Scheduler -> Prop) script :
  (forall a s s', a ∈ script -> P s -> perform a s = Ok s' -> P s') ->
  forall s s', P s -> perform_all script s = Ok s' -> P s'.
Proof.
  induction script as [|a script IH]; intros Hstep s s' HP; cbn [perform_all].
  - intros [= <-]. exact HP.
  - destruct (perform a s) as [s1|] eqn:E; [|discriminate].
    cbn [mbind Result_bind]. apply IH.
    + intros a' u u' Hin. apply Hstep. right. exact Hin.
    + eapply Hstep; [left|exact HP|exact E].
Qed.

Lemma perform_wf a s s' :
  wf s -> typed_action a -> perform a s = Ok s' ->
  wf s' /\ timestamp_now s' = timestamp_now s.
Proof.
  intros Hw Ht. destruct a as [delay id|e]; cbn [perform].
  - destruct (Add s delay (Client id)) as [[s1 ev]|] eqn:E; [|discriminate].
    intros [= <-]. destruct (Add_wf _ _ _ _ _ Hw E) as [Hw' []].
    split; assumption.
  - intros E. destruct (Cancel_wf _ _ _ Hw Ht E) as (Hw' & _ & Hn & _).
    split; assumption.
Qed.

Lemma perform_all_wf script s s' :
  wf s -> (forall a, a ∈ script -> typed_action a) ->
  perform_all script s = Ok s' ->
  wf s' /\ timestamp_now s' = timestamp_now s.
Proof.
  intros Hw Ht.
  apply (perform_all_rule
           (fun u => wf u /\ timestamp_now u = timestamp_now s) script);
    [|split; [exact Hw|reflexivity]].
  intros a u u' Hin [Hu Hn] E.
  destruct (perform_wf a u u' Hu (Ht a Hin) E) as [Hu' Hn'].
  split; [exact Hu'|congruence].
Qed.

(** ** One turn of the loop *)

Lemma Step_body_not_running h m tr : Step_body h m <> Running tr.
Proof.
  destruct m as [s tr0]. unfold Step_body.
  destruct (callback _); try discriminate.
  destruct (perform_all _ _); try discriminate.
  destruct (Remove _ _); discriminate.
Qed.

(** The turn of the loop on a well-formed state: the root is pending, with
    the smallest timestamp; the event of [Reset] stops the program, and the
    event of a client has its callback run at its timestamp and is then
    removed through its handle. *)
Lemma Step_body_turn h s tr d :
  wf s -> due s d = true ->
  let e := heap s !!! 0 in
  let t := ts_of s e in
  pending s e /\ (t <= d)%Z /\ wf (set_timestamp_now s t) /\
  (forall p, pending s p -> (t <= ts_of s p)%Z) /\
  ((cb_of s e = QueueEnd /\ Step_body h (s, tr) = Aborts EndOfQueue tr) \/
   (exists id,
      cb_of s e = Client id /\
      Step_body h (s, tr) =
      match perform_all (h id (set_timestamp_now s t, tr))
              (set_timestamp_now s t) with
      | Fatal f => Aborts f (tr ++ [mkInvocation id t 0])
      | Ok s2 => lift (Cancel s2 e) (tr ++ [mkInvocation id t 0])
      end)).
Proof.
  intros Hw [Hroot Hsz]%due_spec e t. pose proof Hw as [Hs Ho [Hr1 Hr2] Ha].
  assert (Hpe : pending s e) by (apply pending_at; assumption).
  split; [exact Hpe|]. split; [exact Hroot|].
  split; [apply set_timestamp_now_wf; [exact Hw|apply Hr2, Hpe]|].
  split; [intros p Hp; apply pending_root_min; assumption|].
  unfold Step_body. fold e.
  change (callback (events (set_timestamp_now s (timestamp (events s !!! e))) !!! e))
    with (cb_of s e).
  change (timestamp (events s !!! e)) with t.
  destruct (Ha e Hpe) as [[id Hcb]|[Hcb _]]; rewrite Hcb.
  - right. exists id. split; [reflexivity|].
    destruct (perform_all _ (set_timestamp_now s t)); reflexivity.
  - left. split; reflexivity.
Qed.

Lemma Step_rule h d (I : Machine -> Prop) (J : list Invocation -> Prop) :
  (forall m, I m -> J m.2) ->
  (forall m m', I m -> due m.1 d = true -> Step_body h m = Returns m' -> I m') ->
  (forall m f t, I m -> due m.1 d = true -> Step_body h m = Aborts f t -> J t) ->
  forall fuel m, I m ->
    match Step h fuel m d with
    | Returns m' => I m' /\ due m'.1 d = false
    | Aborts _ t => J t
    | Running t => J t
    end.
Proof.
  intros HJ Hret Hab. induction fuel as [|fuel IH]; intros m Hm; cbn [Step].
  - destruct (due m.1 d) eqn:E; [apply HJ, Hm|split; assumption].
  - destruct (due m.1 d) eqn:E; [|split; assumption].
    destruct (Step_body h m) as [m'|f t|t] eqn:Eb.
    + apply IH. eapply Hret; eassumption.
    + eapply Hab; eassumption.
    + exfalso. eapply Step_body_not_running, Eb.
Qed.

(** ** Well-formed states *)

Lemma Step_body_wf h m m' d :
  typed_handlers h -> wf m.1 -> due m.1 d = true ->
  Step_body h m = Returns m' -> wf m'.1.
Proof.
  destruct m as [s tr]. cbn [fst]. intros Hh Hw Hd.
  destruct (Step_body_turn h s tr d Hw Hd)
    as (Hpe & _ & Hw1 & _ & [[_ E]|(id & _ & E)]); rewrite E; [discriminate|].
  destruct (perform_all _ _) as [s2|] eqn:E2; [|discriminate].
  destruct (perform_all_wf _ _ _ Hw1 (Hh id _) E2) as [Hw2 _].
  destruct (Cancel s2 _) as [s3|] eqn:E3; [|discriminate].
  intros [= <-]. cbn [fst].
  apply (Cancel_wf _ _ _ Hw2 (proj1 Hpe) E3).
Qed.

Lemma Step_wf h fuel m d m' :
  typed_handlers h -> wf m.1 -> Step h fuel m d = Returns m' ->
  wf m'.1 /\ due m'.1 d = false.
Proof.
  intros Hh Hw E.
  pose proof (Step_rule h d (fun m => wf m.1) (fun _ => True)) as R.
  specialize (R (fun _ _ => Logic.I)).
  specialize (R (fun m m' Hm Hd E => Step_body_wf h m m' d Hh Hm Hd E)).
  specialize (R (fun _ _ _ _ _ _ => Logic.I) fuel m Hw).
  rewrite E in R. exact R.
Qed.

Lemma AddCycles_Returns h fuel m cycles m' :
  AddCycles h fuel m cycles = Returns m' ->
  exists s',
    Step h fuel m (wrap64 (timestamp_now m.1 + cycles)) = Returns (s', m'.2) /\
    m'.1 = set_timestamp_now s' (wrap64 (timestamp_now m.1 + cycles)).
Proof.
  unfold AddCycles. cbv zeta.
  destruct (Step _ _ _ _) as [[s' tr']| |]; [|discriminate..].
  intros [= <-]. exists s'. split; reflexivity.
Qed.

Lemma exec_returns_wf h fuel op m m' :
  typed_handlers h -> wf m.1 -> typed op = true ->
  exec h fuel op m = Returns m' -> wf m'.1.
Proof.
  destruct m as [s tr]. cbn [fst]. intros Hh Hw Ht.
  destruct op as [|delay id|e|cycles]; cbn [exec fst snd].
  - destruct (Reset s) as [s'|] eqn:E; [|discriminate]. intros [= <-].
    apply (Reset_wf _ _ Hw E).
  - destruct (Add s delay (Client id)) as [[s' ev]|] eqn:E; [|discriminate].
    intros [= <-]. apply (Add_wf _ _ _ _ _ Hw E).
  - destruct (Cancel s e) as [s'|] eqn:E; [|discriminate]. intros [= <-].
    cbn [typed] in Ht. apply Nat.ltb_lt in Ht.
    apply (Cancel_wf _ _ _ Hw Ht E).
  - intros (s' & E & ->)%AddCycles_Returns.
    apply Step_wf in E as [Hw' _]; [|assumption..].
    apply set_timestamp_now_wf; [exact Hw'|apply wrap64_range].
Qed.

Lemma attainable_wf h m : typed_handlers h -> attainable h m -> wf m.1.
Proof.
  intros Hh. induction 1 as [s E|m op fuel m' _ IH Ht E].
  - destruct construct_sound as (s' & E' & Hw & _).
    rewrite E in E'. injection E' as ->. exact Hw.
  - eapply exec_returns_wf; eassumption.
Qed.

Lemma run_attainable h fuel ops : forall m m',
  Forall (fun op => typed op = true) ops ->
  attainable h m -> run h fuel ops m = Returns m' -> attainable h m'.
Proof.
  induction ops as [|op ops IH]; intros m m' Ht Hm; cbn [run].
  - intros [= <-]. exact Hm.
  - apply Forall_cons in Ht as [Ht1 Ht].
    destruct (exec h fuel op m) as [m1| |] eqn:E; [|discriminate..].
    apply IH; [exact Ht|]. eapply attain_call; eassumption.
Qed.

Lemma session_attainable h fuel ops m :
  Forall (fun op => typed op = true) ops ->
  session h fuel ops = Returns m -> attainable h m.
Proof.
  unfold session. destruct construct as [s|] eqn:E; [|discriminate].
  intros Ht. apply run_attainable; [exact Ht|]. apply attain_new, E.
Qed.

(** ** Callbacks that leave the scheduler alone *)

(** With such callbacks the loop is the loop of [Sched.Step], which ends
    within [heap_size] turns. *)
Inductive agrees : Result Machine -> Outcome -> Prop :=
| agrees_Ok m : agrees (Ok m) (Returns m)
| agrees_Fatal f tr : agrees (Fatal f) (Aborts f tr).

Lemma Step_body_agrees h m :
  inert h -> agrees (Sched.Step_body m) (Step_body h m).
Proof.
  intros Hh. destruct m as [s tr]. unfold Step_body, Sched.Step_body.
  destruct (callback _) as [| |id]; cbn [invoke Assert mbind Result_bind];
    [constructor..|].
  rewrite Hh. cbn [perform_all].
  destruct (Remove _ _); constructor.
Qed.

Lemma Step_agrees h d : forall fuel m,
  inert h -> heap_size m.1 <= fuel -> agrees (Sched.Step m d) (Step h fuel m d).
Proof.
  induction fuel as [|fuel IH]; intros m Hh Hf; rewrite Step_eq; cbn [Step].
  - destruct (due m.1 d) eqn:E; [|constructor].
    apply due_spec in E. lia.
  - destruct (due m.1 d) eqn:E; [|constructor].
    pose proof (Step_body_agrees h m Hh) as A.
    destruct (Sched.Step_body m) as [m1|f] eqn:E1; inversion A; subst.
    + cbn [mbind Result_bind]. apply IH; [exact Hh|].
      apply Step_body_heap_size in E1. lia.
    + constructor.
Qed.

Lemma Step_inert_Returns h d : forall fuel m m',
  inert h -> Step h fuel m d = Returns m' -> Sched.Step m d = Ok m'.
Proof.
  induction fuel as [|fuel IH]; intros m m' Hh; rewrite Step_eq; cbn [Step].
  - destruct (due m.1 d); [discriminate|]. intros [= <-]. reflexivity.
  - destruct (due m.1 d); [|intros [= <-]; reflexivity].
    pose proof (Step_body_agrees h m Hh) as A.
    destruct (Sched.Step_body m) as [m1|f] eqn:E1; inversion A; subst.
    + cbn [mbind Result_bind]. apply IH, Hh.
    + discriminate.
Qed.

Lemma AddCycles_agrees h fuel m cycles :
  inert h -> heap_size m.1 <= fuel ->
  agrees (Sched.AddCycles m cycles) (AddCycles h fuel m cycles).
Proof.
  intros Hh Hf. unfold AddCycles, Sched.AddCycles. cbv zeta.
  pose proof (Step_agrees h (wrap64 (timestamp_now m.1 + cycles)) fuel m Hh Hf) as A.
  destruct (Sched.Step m _) as [[s tr]|f]; inversion A; subst; constructor.
Qed.

Lemma AddCycles_inert_Returns h fuel m cycles m' :
  inert h -> AddCycles h fuel m cycles = Returns m' ->
  Sched.AddCycles m cycles = Ok m'.
Proof.
  intros Hh (s' & E & Em)%AddCycles_Returns.
  apply (Step_inert_Returns h _ fuel m _ Hh) in E.
  unfold Sched.AddCycles. cbv zeta. rewrite E. cbn [mbind Result_bind].
  destruct m' as [s1 tr1]. cbn [fst snd] in *. subst s1. reflexivity.
Qed.

Lemma inert_typed h : inert h -> typed_handlers h.
Proof.
  intros Hh id m a. rewrite Hh. intros Hin. apply elem_of_nil in Hin. contradiction.
Qed.

(** ** A callback that no pending event carries *)

Section Quiet.
Variables (h : Handlers) (id : nat) (tr0 : list Invocation).
Hypothesis Hh : typed_handlers h.
Hypothesis Hnever : never_adds h id.

(** The callback [id] has not run since the trace was [tr0]. *)
Definition silent (tr : list Invocation) : Prop :=
  exists more, tr = tr0 ++ more /\ id ∉ inv_callback <$> more.

Definition quiet (m : Machine) : Prop :=
  wf m.1 /\ ~ has_callback m.1 (Client id) /\ silent m.2.

Lemma silent_snoc tr i : silent tr -> inv_callback i <> id -> silent (tr ++ [i]).
Proof.
  intros (more & -> & Hno) Hi. exists (more ++ [i]).
  split; [rewrite app_assoc; reflexivity|].
  rewrite fmap_app, elem_of_app. intros [H|H]; [exact (Hno H)|].
  cbn in H. apply list_elem_of_singleton in H. congruence.
Qed.

Lemma perform_quiet a s s' :
  wf s -> ~ has_callback s (Client id) -> typed_action a ->
  (forall delay, a <> DoAdd delay id) ->
  perform a s = Ok s' ->
  wf s' /\ ~ has_callback s' (Client id).
Proof.
  intros Hw Hno Ht Hne. destruct a as [delay id'|e]; cbn [perform].
  - destruct (Add s delay (Client id')) as [[s1 ev]|] eqn:E; [|discriminate].
    intros [= <-]. destruct (Add_wf _ _ _ _ _ Hw E) as [Hw' []].
    split; [exact Hw'|]. intros (p & Hp%add_pending0 & Hc).
    destruct (decide (p = ev)) as [->|Hpe].
    + rewrite add_cb0 in Hc. injection Hc as ->. exact (Hne delay eq_refl).
    + apply Hno. exists p. rewrite add_cb_other0 in Hc by assumption. tauto.
  - intros E.
    destruct (Cancel_wf _ _ _ Hw Ht E) as (Hw' & _ & _ & _ & Hcb & Hsub & _).
    split; [exact Hw'|]. intros (p & Hp%Hsub & Hc). apply Hno. exists p.
    rewrite Hcb in Hc. tauto.
Qed.

Lemma Step_body_quiet m d :
  quiet m -> due m.1 d = true ->
  match Step_body h m with
  | Returns m' => quiet m'
  | Aborts _ t => silent t
  | Running t => silent t
  end.
Proof.
  destruct m as [s tr]. intros (Hw & Hno & Hsil) Hd. cbn [fst snd] in *.
  destruct (Step_body_turn h s tr d Hw Hd)
    as (Hpe & _ & Hw1 & _ & [[_ E]|(id' & Hcb & E)]); rewrite E; [exact Hsil|].
  assert (Hid : id' <> id).
  { intros ->. apply Hno. exists (heap s !!! 0). split; assumption. }
  assert (Hsil' : silent (tr ++ [mkInvocation id' (ts_of s (heap s !!! 0)) 0]))
    by (apply silent_snoc; assumption).
  destruct (perform_all _ _) as [s2|] eqn:E2; [|exact Hsil'].
  assert (H2 : wf s2 /\ ~ has_callback s2 (Client id)).
  { revert E2.
    apply (perform_all_rule (fun u => wf u /\ ~ has_callback u (Client id)));
      [|split; [exact Hw1|exact Hno]].
    intros a u u' Hin [Hu Hnu]. apply perform_quiet; try assumption.
    - exact (Hh id' _ a Hin).
    - intros delay ->. exact (Hnever id' _ delay Hin). }
  destruct H2 as [Hw2 Hno2].
  destruct (Cancel s2 _) as [s3|] eqn:E3; cbn [lift]; [|exact Hsil'].
  destruct (Cancel_wf _ _ _ Hw2 (proj1 Hpe) E3) as (Hw3 & _ & _ & _ & Hcb3 & Hsub & _).
  split; [exact Hw3|]. split; [|exact Hsil'].
  intros (p & Hp%Hsub & Hc). apply Hno2. exists p. rewrite Hcb3 in Hc. tauto.
Qed.

Lemma Step_quiet fuel m d :
  quiet m ->
  match Step h fuel m d with
  | Returns m' => quiet m'
  | Aborts _ t => silent t
  | Running t => silent t
  end.
Proof.
  intros Hm.
  pose proof (Step_rule h d quiet silent) as R.
  assert (R1 : forall m, quiet m -> silent m.2) by (intros ? (_ & _ & H); exact H).
  assert (R2 : forall m m', quiet m -> due m.1 d = true ->
                 Step_body h m = Returns m' -> quiet m').
  { intros m1 m2 H1 H2 E. pose proof (Step_body_quiet m1 d H1 H2) as B.
    rewrite E in B. exact B. }
  assert (R3 : forall m f t, quiet m -> due m.1 d = true ->
                 Step_body h m = Aborts f t -> silent t).
  { intros m1 f t H1 H2 E. pose proof (Step_body_quiet m1 d H1 H2) as B.
    rewrite E in B. exact B. }
  specialize (R R1 R2 R3 fuel m Hm).
  destruct (Step h fuel m d); [apply R|exact R..].
Qed.

Lemma exec_quiet fuel op m :
  quiet m -> typed op = true -> (forall delay, op <> OpAdd delay id) ->
  match exec h fuel op m with
  | Returns m' => quiet m'
  | Aborts _ t => silent t
  | Running t => silent t
  end.
Proof.
  destruct m as [s tr]. intros (Hw & Hno & Hsil) Ht Hne. cbn [fst snd] in *.
  destruct op as [|delay id'|e|cycles]; cbn [exec fst snd].
  - destruct (Reset s) as [s'|] eqn:E; cbn [lift]; [|exact Hsil].
    destruct (Reset_wf _ _ Hw E) as [Hw' Hq].
    split; [exact Hw'|]. split; [|exact Hsil].
    intros (p & Hp & Hc). cbn [fst] in Hp, Hc.
    rewrite (Hq p Hp) in Hc. discriminate.
  - destruct (Add s delay (Client id')) as [[s' ev]|] eqn:E;
      cbn [mbind Result_bind lift]; [|exact Hsil].
    destruct (perform_quiet (DoAdd delay id') s s' Hw Hno) as [Hw' Hno'].
    + cbn [typed] in Ht. cbn [typed_action].
      apply andb_prop in Ht as [H1%Z.leb_le H2%Z.ltb_lt]. lia.
    + intros d' [= E1 E2]. subst. exact (Hne _ eq_refl).
    + cbn [perform]. rewrite E. reflexivity.
    + split; [exact Hw'|]. split; [exact Hno'|exact Hsil].
  - destruct (Cancel s e) as [s'|] eqn:E; cbn [lift]; [|exact Hsil].
    cbn [typed] in Ht. apply Nat.ltb_lt in Ht.
    destruct (perform_quiet (DoCancel e) s s' Hw Hno Ht) as [Hw' Hno'];
      [discriminate|exact E|].
    split; [exact Hw'|]. split; [exact Hno'|exact Hsil].
  - unfold AddCycles. cbv zeta. cbn [fst].
    pose proof (Step_quiet fuel (s, tr) (wrap64 (timestamp_now s + cycles))
                  (conj Hw (conj Hno Hsil))) as Q.
    destruct (Step _ _ _ _) as [[s' tr']| |]; [|exact Q..].
    destruct Q as (Hw' & Hno' & Hsil'). cbn [fst snd] in *.
    split; [apply set_timestamp_now_wf; [exact Hw'|apply wrap64_range]|].
    split; [exact Hno'|exact Hsil'].
Qed.

Lemma run_quiet fuel ops : forall m,
  quiet m -> Forall (fun op => typed op = true) ops ->
  (forall delay, OpAdd delay id ∉ ops) ->
  silent (invoked (run h fuel ops m)).
Proof.
  induction ops as [|op ops IH]; intros m Hm Ht Hne; cbn [run].
  - apply Hm.
  - apply Forall_cons in Ht as [Ht1 Ht].
    pose proof (exec_quiet fuel op m Hm Ht1) as Q.
    destruct (exec h fuel op m) as [m1| |]; cbn [invoked].
    + apply IH; [|exact Ht|].
      * apply Q. intros delay ->. apply (Hne delay). left.
      * intros delay Hin. apply (Hne delay). right. exact Hin.
    + apply Q. intros delay ->. apply (Hne delay). left.
    + apply Q. intros delay ->. apply (Hne delay). left.
Qed.

End Quiet.

(** ** Callbacks that schedule events *)

Lemma StronglySorted_snoc (l : list Z) x :
  StronglySorted Z.le l -> (forall y, y ∈ l -> (y <= x)%Z) ->
  StronglySorted Z.le (l ++ [x]).
Proof.
  induction 1 as [|y l Hl IH Hy]; intros Hx; cbn.
  - constructor; constructor.
  - constructor.
    + apply IH. intros z Hz. apply Hx. right. exact Hz.
    + apply Forall_app. split; [exact Hy|].
      constructor; [|constructor]. apply Hx. left.
Qed.

(** The calls of a callback that only schedules, run at time [t]: the
    events pending before stay as they are, and the new ones are not
    earlier than [t]. *)
Lemma perform_all_adds script s t s' :
  wf s -> timestamp_now s = t ->
  (forall a, a ∈ script ->
     exists delay id, a = DoAdd delay id /\
       (0 <= delay)%Z /\ (t + delay < u64_modulus)%Z) ->
  perform_all script s = Ok s' ->
  wf s' /\
  (forall p, pending s p ->
     pending s' p /\ ts_of s' p = ts_of s p /\ cb_of s' p = cb_of s p) /\
  (forall p, pending s' p -> pending s p \/ (t <= ts_of s' p)%Z).
Proof.
  intros Hw Ht Hs E.
  cut ((wf s' /\ timestamp_now s' = t) /\
       (forall p, pending s p ->
          pending s' p /\ ts_of s' p = ts_of s p /\ cb_of s' p = cb_of s p) /\
       (forall p, pending s' p -> pending s p \/ (t <= ts_of s' p)%Z));
    [tauto|].
  revert E.
  apply (perform_all_rule (fun u =>
    (wf u /\ timestamp_now u = t) /\
    (forall p, pending s p ->
       pending u p /\ ts_of u p = ts_of s p /\ cb_of u p = cb_of s p) /\
    (forall p, pending u p -> pending s p \/ (t <= ts_of u p)%Z)) script).
  - intros a u u' Hin ([Hu Hn] & Hold & Hnew) E.
    destruct (Hs a Hin) as (delay & id & -> & Hd & Hov).
    cbn [perform] in E.
    destruct (Add u delay (Client id)) as [[u1 ev]|] eqn:EA; [|discriminate].
    injection E as <-. destruct (Add_wf _ _ _ _ _ Hu EA) as [Hu' []].
    destruct (wf_range u Hu) as [Hr _].
    rewrite wrap64_small in add_ts0 by lia.
    split; [split; [exact Hu'|congruence]|]. split.
    + intros p Hp. destruct (Hold p Hp) as (H1 & H2 & H3).
      assert (p <> ev) by (intros ->; apply add_fresh0, H1).
      rewrite add_ts_other0, add_cb_other0 by assumption.
      split; [apply add_pending0; left; exact H1|]. split; assumption.
    + intros p [Hp| ->]%add_pending0.
      * assert (p <> ev) by (intros ->; apply add_fresh0, Hp).
        rewrite add_ts_other0 by assumption. apply Hnew, Hp.
      * right. rewrite add_ts0. lia.
  - split; [split; assumption|]. split; [intros p Hp; tauto|tauto].
Qed.

Section Progress.
Variables (h : Handlers) (s0 : Scheduler) (tr0 : list Invocation) (d : Z).
Hypothesis Hh : re_arming h d.

(** What the loop has done so far: the callbacks it has run since the
    state [s0], in the order of their timestamps, none later than the
    deadline or than a pending event; and of the events that were pending
    in [s0] and due, the callback has run or the event is pending still. *)
Definition progress (m : Machine) : Prop :=
  wf m.1 /\
  exists fired,
    m.2 = tr0 ++ fired /\
    StronglySorted Z.le (inv_now <$> fired) /\
    (forall i, i ∈ fired ->
       (inv_now i <= d)%Z /\ inv_cycles_late i = 0%Z /\
       forall p, pending m.1 p -> (inv_now i <= ts_of m.1 p)%Z) /\
    (forall p, pending s0 p -> (ts_of s0 p <= d)%Z ->
       (exists i, i ∈ fired /\ cb_of s0 p = Client (inv_callback i) /\
                  inv_now i = ts_of s0 p) \/
       (pending m.1 p /\ ts_of m.1 p = ts_of s0 p /\ cb_of m.1 p = cb_of s0 p)).

Lemma progress_start : wf s0 -> progress (s0, tr0).
Proof.
  intros Hw. split; [exact Hw|]. exists []. rewrite app_nil_r.
  split; [reflexivity|]. split; [constructor|]. split.
  - intros i Hi. apply elem_of_nil in Hi. contradiction.
  - intros p Hp _. right. cbn [fst]. tauto.
Qed.

Lemma Step_body_progress m m' :
  progress m -> due m.1 d = true -> Step_body h m = Returns m' -> progress m'.
Proof.
  destruct m as [s tr]. intros (Hw & fired & Etr & Hsorted & Hfired & Hcover) Hd.
  cbn [fst snd] in *.
  destruct (Step_body_turn h s tr d Hw Hd)
    as (Hpe & Htd & Hw1 & Hmin & [[_ E]|(id & Hcb & E)]); rewrite E;
    [discriminate|].
  set (e := heap s !!! 0) in *. set (t := ts_of s e) in *.
  destruct (perform_all _ _) as [s2|] eqn:E2; [|discriminate].
  destruct (wf_range s Hw) as [_ Hr].
  pose proof (Hr e (proj1 Hpe)) as Ht0. fold t in Ht0.
  destruct (perform_all_adds (h id (set_timestamp_now s t, tr))
              (set_timestamp_now s t) t s2 Hw1 eq_refl)
    as (Hw2 & Hold & Hnew); [|exact E2|].
  { intros a Hin. destruct (Hh id _ a Hin) as (delay & id' & -> & H1 & H2).
    exists delay, id'. split; [reflexivity|]. split; [exact H1|].
    apply Z.le_lt_trans with (d + delay)%Z; [|exact H2].
    apply Z.add_le_mono_r. exact Htd. }
  destruct (Cancel s2 e) as [s3|] eqn:E3; [|discriminate].
  intros [= <-]. cbn [fst snd].
  destruct (Cancel_wf _ _ _ Hw2 (proj1 Hpe) E3)
    as (Hw3 & _ & _ & Hts3 & Hcb3 & Hsub & Hkeep).
  assert (Hpe2 : pending s2 e) by (apply (Hold e), Hpe).
  assert (Hfloor : forall p, pending s3 p -> (t <= ts_of s3 p)%Z).
  { intros p [Hp _]%Hsub. rewrite Hts3.
    destruct (Hnew p Hp) as [Hps|Hge]; [|exact Hge].
    destruct (Hold p Hps) as (_ & -> & _). apply Hmin, Hps. }
  split; [exact Hw3|]. exists (fired ++ [mkInvocation id t 0]).
  split; [rewrite Etr, app_assoc; reflexivity|]. split; [|split].
  - rewrite fmap_app. apply StronglySorted_snoc; [exact Hsorted|].
    intros y (i & -> & Hi)%list_elem_of_fmap.
    apply (Hfired i Hi). exact Hpe.
  - intros i [Hi|Hi]%elem_of_app.
    + destruct (Hfired i Hi) as (H1 & H2 & H3).
      split; [exact H1|]. split; [exact H2|]. intros p Hp.
      specialize (H3 e Hpe). fold t in H3. specialize (Hfloor p Hp).
      exact (Z.le_trans _ _ _ H3 Hfloor).
    + apply list_elem_of_singleton in Hi as ->. cbn.
      split; [exact Htd|]. split; [reflexivity|]. exact Hfloor.
  - intros p Hp Hdue.
    destruct (Hcover p Hp Hdue) as [(i & Hi & H1 & H2)|(H1 & H2 & H3)].
    + left. exists i. split; [apply elem_of_app; left; exact Hi|]. tauto.
    + destruct (decide (p = e)) as [->|Hne].
      * left. exists (mkInvocation id t 0).
        split; [apply elem_of_app; right; apply list_elem_of_singleton; reflexivity|].
        cbn. split; [congruence|]. exact H2.
      * right. destruct (Hold p H1) as (K1 & K2 & K3).
        split; [apply Hkeep; assumption|].
        change (ts_of (set_timestamp_now s t) p) with (ts_of s p) in K2.
        change (cb_of (set_timestamp_now s t) p) with (cb_of s p) in K3.
        rewrite Hts3, Hcb3. split; congruence.
Qed.

Lemma Step_progress fuel m m' :
  progress m -> Step h fuel m d = Returns m' ->
  progress m' /\ due m'.1 d = false.
Proof.
  intros Hm E.
  pose proof (Step_rule h d progress (fun _ => True)
                (fun _ _ => Logic.I) Step_body_progress
                (fun _ _ _ _ _ _ => Logic.I) fuel m Hm) as R.
  rewrite E in R. exact R.
Qed.

End Progress.

(** [AddCycles] that returns, with callbacks that schedule events: the
    callbacks have run in the order of their timestamps, that of every
    event that was pending and due among them, and no pending event is due
    any more. *)
Lemma AddCycles_progress h fuel s tr cycles s' tr' :
  let deadline := wrap64 (timestamp_now s + cycles) in
  wf s -> re_arming h deadline ->
  AddCycles h fuel (s, tr) cycles = Returns (s', tr') ->
  wf s' /\ timestamp_now s' = deadline /\
  (forall p, pending s' p -> (deadline < ts_of s' p)%Z) /\
  exists fired,
    tr' = tr ++ fired /\
    StronglySorted Z.le (inv_now <$> fired) /\
    (forall i, i ∈ fired -> (inv_now i <= deadline)%Z /\ inv_cycles_late i = 0%Z) /\
    (forall p, pending s p -> (ts_of s p <= deadline)%Z ->
       exists i, i ∈ fired /\ cb_of s p = Client (inv_callback i) /\
                 inv_now i = ts_of s p).
Proof.
  intros deadline Hw Hh (s1 & E & Es)%AddCycles_Returns. cbn [fst snd] in *.
  fold deadline in E, Es. subst s'.
  destruct (Step_progress h s tr deadline Hh fuel (s, tr) (s1, tr')
              (progress_start s tr deadline Hw) E)
    as [(Hw1 & fired & Etr & Hsorted & Hfired & Hcover) Hd].
  cbn [fst snd] in *.
  assert (Hlater : forall p, pending s1 p -> (deadline < ts_of s1 p)%Z).
  { intros p Hp. apply due_false in Hd as [Hd|Hd].
    - pose proof (pending_root_min s1 p (wf_inv _ Hw1) (wf_ordered _ Hw1) Hp). lia.
    - destruct Hp as [_ Hp]. lia. }
  split; [apply set_timestamp_now_wf; [exact Hw1|apply wrap64_range]|].
  split; [reflexivity|]. split; [exact Hlater|].
  exists fired. split; [exact Etr|]. split; [exact Hsorted|]. split.
  - intros i Hi. destruct (Hfired i Hi) as (H1 & H2 & _). split; assumption.
  - intros p Hp Hdue.
    destruct (Hcover p Hp Hdue) as [H|(H1 & H2 & _)]; [exact H|].
    specialize (Hlater p H1). lia.
Qed.

Lemma re_arming_typed h d : (0 <= d)%Z -> re_arming h d -> typed_handlers h.
Proof.
  intros Hd Hh id m a Hin.
  destruct (Hh id m a Hin) as (delay & id' & -> & H1 & H2).
  cbn. lia.
Qed.

(** ** The properties of the specification *)

(** The callbacks a run has invoked, when it has returned. *)
Definition returned (o : Outcome) : option (list Invocation) :=
  match o with
  | Returns m => Some m.2
  | _ => None
  end.

(** Callbacks that make no call. *)
Definition no_calls : Handlers := fun _ _ => [].

(** The callback 1 schedules itself again, [period] cycles later. *)
Definition periodic (period : Z) : Handlers :=
  fun id _ => if id =? 1 then [DoAdd period 1] else [].

(** The callback 1 cancels the event in the object 2. *)
Definition cancelling : Handlers :=
  fun id _ => if id =? 1 then [DoCancel 2] else [].

(** The callback 1 schedules the callback 3 with the largest delay, one
    cycle before its own timestamp in [u64] arithmetic. *)
Definition wrapping : Handlers :=
  fun id _ => if id =? 1 then [DoAdd u64_max 3] else [].

Lemma no_calls_inert : inert no_calls.
Proof. intros id m. reflexivity. Qed.

(** The claim C1 as the specification words it: for every non-negative
    cycle count [AddCycles] returns, having invoked the callback of every
    pending event that is due, in the order of the timestamps, and the time
    is the deadline afterwards. *)
Definition AddCycles_claim : Prop :=
  forall h s tr c,
    attainable h (s, tr) -> typed_handlers h -> (0 <= c < 2 ^ 31)%Z ->
    let deadline := wrap64 (timestamp_now s + c) in
    exists fuel s' fired,
      AddCycles h fuel (s, tr) c = Returns (s', tr ++ fired) /\
      StronglySorted Z.le (inv_now <$> fired) /\
      (forall p, pending s p -> (ts_of s p <= deadline)%Z ->
         exists i, i ∈ fired /\ cb_of s p = Client (inv_callback i) /\
                   inv_now i = ts_of s p) /\
      timestamp_now s' = deadline.

(** C1, counterexample.  The claim fails where the event of [Reset] is
    due: after [AddCycles(-2)] from the start the time is [2^64 - 2], and
    [AddCycles(1)] runs into the assertion of that event, whatever the
    callbacks.  And what the callbacks do matters: when the callback of the
    event at 3 cancels the event at 5, advancing by 10 returns without the
    callback of the latter; when it schedules an event whose timestamp
    wraps around to 2, that event fires after it. *)
Lemma AddCycles_claim_fails :
  ~ AddCycles_claim /\
  returned (session cancelling 3 [OpAdd 3 1; OpAdd 5 2; OpAddCycles 10]) =
    Some [mkInvocation 1 3 0] /\
  returned (session wrapping 3 [OpAdd 3 1; OpAddCycles 10]) =
    Some [mkInvocation 1 3 0; mkInvocation 3 2 0].
Proof.
  split; [|split; vm_compute; reflexivity].
  intros H.
  let v := eval vm_compute in (session no_calls 0 [OpAddCycles (-2)]) in
  match v with
  | Returns (?s, ?tr) =>
      assert (Hatt : attainable no_calls (s, tr));
      [apply (session_attainable no_calls 0 [OpAddCycles (-2)]);
       [repeat constructor|vm_compute; reflexivity]|];
      destruct (H no_calls s tr 1%Z Hatt (inert_typed _ no_calls_inert)
                  ltac:(lia)) as (fuel & s' & fired & E & _)
  end.
  destruct fuel; vm_compute in E; discriminate.
Qed.

(** C1, amended.  An [AddCycles(c)] with [c >= 0] that returns, in a state
    any calls can lead to and with callbacks that schedule events (without
    wrap-around of their timestamps), has invoked callbacks in
    non-decreasing order of their timestamps, each with [timestamp_now] at
    the timestamp of its event and at most the deadline, and among them the
    callback of every event that was pending and due at the call; the event
    of [Reset] was not due; afterwards [timestamp_now] is the deadline and
    every pending event is later.  It does return, within [heap_size]
    turns of the loop, and has then invoked exactly the callbacks of the
    events that were pending and due, each once, when the callbacks make no
    call and the deadline is below the timestamp of the event of [Reset].
    Events added with delays 5, 3, 8 in any of the six orders fire in the
    order 3, 5, 8 when the scheduler advances by 10; a callback that adds
    itself again every 4 cycles runs at 4 and at 8. *)
Theorem AddCycles_fires_due_events_in_order :
  (forall h fuel s tr c s' tr',
     attainable h (s, tr) -> (0 <= c)%Z ->
     let deadline := wrap64 (timestamp_now s + c) in
     re_arming h deadline ->
     AddCycles h fuel (s, tr) c = Returns (s', tr') ->
     exists fired,
       tr' = tr ++ fired /\
       StronglySorted Z.le (inv_now <$> fired) /\
       (forall i, i ∈ fired ->
          (inv_now i <= deadline)%Z /\ inv_cycles_late i = 0%Z) /\
       (forall p, pending s p -> (ts_of s p <= deadline)%Z ->
          exists i, i ∈ fired /\ cb_of s p = Client (inv_callback i) /\
                    inv_now i = ts_of s p) /\
       ~ queue_end_due s deadline /\
       timestamp_now s' = deadline /\
       (forall p, pending s' p -> (deadline < ts_of s' p)%Z) /\
       ((timestamp_now s + c < u64_modulus)%Z ->
        deadline = (timestamp_now s + c)%Z)) /\
  (forall h fuel s tr c,
     attainable h (s, tr) -> (0 <= c)%Z -> inert h ->
     let deadline := wrap64 (timestamp_now s + c) in
     (deadline < u64_max)%Z -> heap_size s <= fuel ->
     exists s' ps fired,
       AddCycles h fuel (s, tr) c = Returns (s', tr ++ fired) /\
       NoDup ps /\
       (forall p, p ∈ ps <-> pending s p /\ (ts_of s p <= deadline)%Z) /\
       Forall2 (fires s) ps fired /\
       StronglySorted Z.le (inv_now <$> fired) /\
       timestamp_now s' = deadline) /\
  Forall (fun delays =>
            returned (session no_calls 4 (delays_then_advance delays 10)) =
            Some [mkInvocation 3 3 0; mkInvocation 5 5 0; mkInvocation 8 8 0])
         (permutations [5; 3; 8]%Z) /\
  returned (session (periodic 4) 3 [OpAdd 4 1; OpAdd 6 2; OpAddCycles 10]) =
    Some [mkInvocation 1 4 0; mkInvocation 2 6 0; mkInvocation 1 8 0].
Proof.
  split; [|split; [|split]].
  - intros h fuel s tr c s' tr' Hatt Hc deadline Hh E.
    assert (Hd : (0 <= deadline)%Z) by apply wrap64_range.
    pose proof (attainable_wf h _ (re_arming_typed h deadline Hd Hh) Hatt) as Hw.
    cbn [fst] in Hw.
    destruct (AddCycles_progress h fuel s tr c s' tr' Hw Hh E)
      as (_ & Hnow & Hlater & fired & Etr & Hsorted & Hfired & Hcover).
    exists fired. split; [exact Etr|]. split; [exact Hsorted|].
    split; [exact Hfired|]. split; [exact Hcover|]. split; [|split; [exact Hnow|]].
    + intros (p & Hp & Ht & Hcb).
      destruct (Hcover p Hp Ht) as (i & _ & Hi & _). congruence.
    + split; [exact Hlater|]. intros Hlt. apply wrap64_small.
      destruct (wf_range s Hw) as [Hn _]. lia.
  - intros h fuel s tr c Hatt Hc Hh deadline Hd Hf.
    pose proof (attainable_wf h _ (inert_typed h Hh) Hatt) as Hw. cbn [fst] in Hw.
    destruct (AddCycles_drains s tr c Hw Hd) as (s' & ps & fired & E & D & Hnow).
    pose proof (AddCycles_agrees h fuel (s, tr) c Hh Hf) as A.
    rewrite E in A. inversion A as [m Em|]; subst.
    exists s', ps, fired. destruct D as [_ Dn Dd Df Ds _ _ _].
    split; [reflexivity|]. split; [exact Dn|]. split; [exact Dd|].
    split; [exact Df|].
    split; [rewrite (Forall2_fires_now s ps fired Df); exact Ds|exact Hnow].
  - let l := eval vm_compute in (permutations [5; 3; 8]%Z) in
    change (permutations [5; 3; 8]%Z) with l.
    repeat (constructor; [vm_compute; reflexivity|]). constructor.
  - vm_compute. reflexivity.
Qed.

Lemma AddCycles_fires_due_events_in_order_witness :
  exists s tr s' tr',
    session (periodic 4) 0 [OpAdd 4 1; OpAdd 6 2] = Returns (s, tr) /\
    AddCycles (periodic 4) 3 (s, tr) 10 = Returns (s', tr') /\
    exists fired,
      tr' = tr ++ fired /\
      StronglySorted Z.le (inv_now <$> fired) /\
      timestamp_now s' = wrap64 (timestamp_now s + 10).
Proof.
  eexists. eexists. eexists. eexists. split; [vm_compute; reflexivity|].
  split; [vm_compute; reflexivity|].
  match goal with
  | |- exists fired, ?tr' = ?tr ++ _ /\ _ /\
         timestamp_now ?s' = wrap64 (timestamp_now ?s + _) =>
      destruct (proj1 AddCycles_fires_due_events_in_order
                  (periodic 4) 3 s tr 10%Z s' tr')
        as (fired & E1 & E2 & _ & _ & _ & E3 & _)
  end.
  - apply (session_attainable (periodic 4) 0 [OpAdd 4 1; OpAdd 6 2]);
      [repeat constructor|vm_compute; reflexivity].
  - lia.
  - intros id m a Hin. unfold periodic in Hin.
    destruct (id =? 1);
      [apply list_elem_of_singleton in Hin as ->|
       apply elem_of_nil in Hin; contradiction].
    exists 4%Z, 1. split; [reflexivity|]. split; [lia|]. vm_compute. reflexivity.
  - vm_compute. reflexivity.
  - exists fired. split; [exact E1|]. split; [exact E2|exact E3].
Defined.



(** X5.  With callbacks that make no call, [AddCycles] in a state any
    calls can lead to aborts exactly when the event that [Reset] has
    scheduled is pending and due at the deadline, with the assertion of
    its callback, and it returns in every other case; [heap_size] turns of
    the loop are enough for either. *)
Theorem AddCycles_aborts_at_queue_end :
  forall h fuel m cycles,
    attainable h m -> inert h -> heap_size m.1 <= fuel ->
    let deadline := wrap64 (timestamp_now m.1 + cycles) in
    (queue_end_due m.1 deadline ->
     exists tr, AddCycles h fuel m cycles = Aborts EndOfQueue tr) /\
    (~ queue_end_due m.1 deadline ->
     exists m', AddCycles h fuel m cycles = Returns m').
Proof.
  intros h fuel [s tr] cycles Hatt Hh Hf.
  pose proof (attainable_wf h _ (inert_typed h Hh) Hatt) as Hw.
  cbn [fst] in *.
  pose proof (AddCycles_agrees h fuel (s, tr) cycles Hh Hf) as A.
  destruct (AddCycles_cases s tr cycles Hw)
    as [[E Hq]|(s' & ps & fired & E & D & _)]; rewrite E in A;
    inversion A; subst.
  - split; [intros _; eexists; reflexivity|]. intros Hn. contradiction.
  - apply SchedMore.drained_not_queue_end in D.
    split; [intros Hq; contradiction|]. intros _. eexists. reflexivity.
Qed.

Lemma AddCycles_aborts_at_queue_end_witness :
  exists m,
    session no_calls 1 [OpAdd 4 1; OpAddCycles 2] = Returns m /\
    exists tr, AddCycles no_calls 2 m (-3) = Aborts EndOfQueue tr.
Proof.
  eexists. split; [vm_compute; reflexivity|].
  match goal with |- exists _, AddCycles _ _ ?M _ = _ => pose (m0 := M) end.
  apply (AddCycles_aborts_at_queue_end no_calls 2 m0 (-3)).
  - apply (session_attainable no_calls 1 [OpAdd 4 1; OpAddCycles 2]);
      [repeat constructor|vm_compute; reflexivity].
  - apply no_calls_inert.
  - vm_compute. lia.
  - exists 0. split; [|split].
    + split; vm_compute; lia.
    + vm_compute. discriminate.
    + reflexivity.
Defined.

(** X6.  When [AddCycles] returns, whatever the callbacks have done with
    [Add] and [Cancel], the time is the deadline and every pending event
    lies strictly after it.  With callbacks that make no call, the events
    left are those pending before with a later timestamp, with their
    timestamps and callbacks unchanged. *)
Theorem AddCycles_leaves_no_due_event :
  forall h fuel m cycles m',
    attainable h m -> typed_handlers h ->
    AddCycles h fuel m cycles = Returns m' ->
    let deadline := wrap64 (timestamp_now m.1 + cycles) in
    GetTimestampNow m'.1 = deadline /\
    (forall p, pending m'.1 p -> (deadline < ts_of m'.1 p)%Z) /\
    (0 < heap_size m'.1 ->
     (GetTimestampNow m'.1 < GetTimestampTarget m'.1)%Z) /\
    (inert h ->
     forall p,
       (pending m'.1 p <-> pending m.1 p /\ (deadline < ts_of m.1 p)%Z) /\
       ts_of m'.1 p = ts_of m.1 p /\ cb_of m'.1 p = cb_of m.1 p).
Proof.
  intros h fuel [s tr] cycles m' Hatt Hh E.
  pose proof (attainable_wf h _ Hh Hatt) as Hw. cbn [fst] in *.
  pose proof E as (s1 & E1 & Em)%AddCycles_Returns. cbn [fst] in *.
  set (deadline := wrap64 (timestamp_now s + cycles)) in *.
  destruct (Step_wf h fuel (s, tr) deadline _ Hh Hw E1) as [Hw1 Hd].
  cbn [fst] in *. rewrite Em. unfold GetTimestampNow.
  assert (Hlater : forall p, pending s1 p -> (deadline < ts_of s1 p)%Z).
  { intros p Hp. apply due_false in Hd as [Hd|Hd].
    - pose proof (pending_root_min s1 p (wf_inv _ Hw1) (wf_ordered _ Hw1) Hp). lia.
    - destruct Hp as [_ Hp]. lia. }
  split; [reflexivity|]. split; [exact Hlater|]. split.
  - intros Hsz. change (deadline < ts_of s1 (heap s1 !!! O))%Z. apply Hlater.
    apply pending_at; [apply (wf_inv _ Hw1)|exact Hsz].
  - intros Hin p.
    apply (AddCycles_inert_Returns h fuel (s, tr) cycles m' Hin) in E.
    destruct (AddCycles_cases s tr cycles Hw)
      as [[E' _]|(s' & ps & fired & E' & D & _)]; rewrite E in E';
      [discriminate|].
    injection E' as E'. rewrite E' in Em. cbn [fst] in Em.
    destruct D. fold deadline in dr_left0.
    rewrite <- Em, dr_left0, dr_ts0, dr_cb0. tauto.
Qed.

Lemma AddCycles_leaves_no_due_event_witness :
  exists m m',
    session (periodic 4) 0 [OpAdd 4 1; OpAdd 6 2] = Returns m /\
    AddCycles (periodic 4) 3 m 10 = Returns m' /\
    GetTimestampNow m'.1 = 10%Z /\ GetTimestampTarget m'.1 = 12%Z /\
    (0 < heap_size m'.1 ->
     (GetTimestampNow m'.1 < GetTimestampTarget m'.1)%Z).
Proof.
  eexists. eexists. split; [vm_compute; reflexivity|].
  match goal with |- AddCycles _ _ ?M _ = _ /\ _ => pose (m0 := M) end.
  split; [vm_compute; reflexivity|].
  split; [reflexivity|]. split; [reflexivity|].
  apply (AddCycles_leaves_no_due_event (periodic 4) 3 m0 10).
  - apply (session_attainable (periodic 4) 0 [OpAdd 4 1; OpAdd 6 2]);
      [repeat constructor|vm_compute; reflexivity].
  - intros id m a Hin. unfold periodic in Hin.
    destruct (id =? 1);
      [apply list_elem_of_singleton in Hin as ->|
       apply elem_of_nil in Hin; contradiction].
    cbn. unfold u64_modulus. lia.
  - vm_compute. reflexivity.
Defined.

(** ** Callbacks that keep [AddCycles] from returning *)

(** X19.  A callback that calls [Add] while 64 events are pending, the
    event that is firing among them, stops the program with the capacity
    assertion of [Add]: the event is removed only after its callback has
    returned.  [AddCycles] aborts, with that callback as the last one
    invoked. *)
Theorem callback_Add_at_capacity_aborts :
  forall h fuel s tr c id delay id' rest,
    let deadline := wrap64 (timestamp_now s + c) in
    heap_size s = kMaxEvents ->
    (GetTimestampTarget s <= deadline)%Z ->
    cb_of s (heap s !!! 0) = Client id ->
    h id (set_timestamp_now s (GetTimestampTarget s), tr) = DoAdd delay id' :: rest ->
    0 < fuel ->
    AddCycles h fuel (s, tr) c =
    Aborts MaxEvents (tr ++ [mkInvocation id (GetTimestampTarget s) 0]).
Proof.
  intros h fuel s tr c id delay id' rest deadline Hfull Hdue Hcb Hh Hf.
  destruct fuel as [|fuel]; [lia|].
  unfold AddCycles. cbv zeta. cbn [fst Step]. fold deadline.
  replace (due s deadline) with true
    by (symmetry; apply due_spec; unfold kMaxEvents in Hfull;
        split; [exact Hdue|lia]).
  unfold Step_body.
  change (callback (events (set_timestamp_now s
            (timestamp (events s !!! (heap s !!! 0)))) !!! (heap s !!! 0)))
    with (cb_of s (heap s !!! 0)).
  rewrite Hcb. cbv zeta.
  change (timestamp (events s !!! (heap s !!! 0))) with (GetTimestampTarget s).
  rewrite Hh. cbn [perform_all perform].
  rewrite Add_full by (cbn; lia). reflexivity.
Qed.

Lemma callback_Add_at_capacity_aborts_witness :
  exists s tr,
    session (periodic 4) 0 (replicate 63 (OpAdd 1 1)) = Returns (s, tr) /\
    AddCycles (periodic 4) 1 (s, tr) 1 =
    Aborts MaxEvents (tr ++ [mkInvocation 1 (GetTimestampTarget s) 0]).
Proof.
  eexists. eexists. split; [vm_compute; reflexivity|].
  match goal with |- AddCycles _ _ (?s, ?tr) _ = _ =>
    apply (callback_Add_at_capacity_aborts (periodic 4) 1 s tr 1 1 4 1 [])
  end.
  - reflexivity.
  - vm_compute. discriminate.
  - reflexivity.
  - reflexivity.
  - lia.
Defined.

(** X20.  While an event is pending and due whose callback schedules
    itself again with delay 0, [AddCycles] does not return, however many
    turns the loop is given: the event it adds is due as well.  (The other
    callbacks only schedule events.) *)
Theorem rearming_at_delay_0_never_returns :
  forall h fuel s tr c id p,
    attainable h (s, tr) ->
    let deadline := wrap64 (timestamp_now s + c) in
    re_arming h deadline ->
    (forall m, h id m = [DoAdd 0 id]) ->
    pending s p -> cb_of s p = Client id -> (ts_of s p <= deadline)%Z ->
    forall m', AddCycles h fuel (s, tr) c <> Returns m'.
Proof.
  intros h fuel s tr c id p Hatt deadline Hre Hid Hp Hcb Hts m' E.
  assert (Hd : (0 <= deadline)%Z) by apply wrap64_range.
  pose proof (attainable_wf h _ (re_arming_typed h deadline Hd Hre) Hatt) as Hw.
  cbn [fst] in Hw.
  apply AddCycles_Returns in E as (s1 & E & _). cbn [fst] in E. fold deadline in E.
  pose proof (Step_rule h deadline
    (fun m => wf m.1 /\
       exists q, pending m.1 q /\ cb_of m.1 q = Client id /\
                 (ts_of m.1 q <= deadline)%Z)
    (fun _ => True) (fun _ _ => Logic.I)) as R.
  assert (R2 : forall m m1,
    (wf m.1 /\ exists q, pending m.1 q /\ cb_of m.1 q = Client id /\
                         (ts_of m.1 q <= deadline)%Z) ->
    due m.1 deadline = true -> Step_body h m = Returns m1 ->
    wf m1.1 /\ exists q, pending m1.1 q /\ cb_of m1.1 q = Client id /\
                         (ts_of m1.1 q <= deadline)%Z).
  { clear - Hre Hid. intros [u tu] m1 [Hw (q & Hq & Hcq & Htq)] Hdue.
    cbn [fst] in *.
    destruct (Step_body_turn h u tu deadline Hw Hdue)
      as (Hpe & Htd & Hw1 & Hmin & [[_ E]|(id1 & Hcb & E)]); rewrite E;
      [discriminate|].
    set (e := heap u !!! 0) in *. set (t := ts_of u e) in *.
    destruct (perform_all _ _) as [u2|] eqn:E2; [|discriminate].
    destruct (wf_range u Hw) as [_ Hr].
    pose proof (Hr e (proj1 Hpe)) as Ht0. fold t in Ht0.
    destruct (perform_all_adds (h id1 (set_timestamp_now u t, tu))
                (set_timestamp_now u t) t u2 Hw1 eq_refl)
      as (Hw2 & Hold & Hnew); [|exact E2|].
    { intros a Hin. destruct (Hre id1 _ a Hin) as (delay & id' & -> & H1 & H2).
      exists delay, id'. split; [reflexivity|]. split; [exact H1|].
      apply Z.le_lt_trans with (deadline + delay)%Z; [|exact H2].
      apply Z.add_le_mono_r. exact Htd. }
    destruct (Cancel u2 e) as [u3|] eqn:E3; [|discriminate].
    intros [= <-]. cbn [fst].
    destruct (Cancel_wf _ _ _ Hw2 (proj1 Hpe) E3)
      as (Hw3 & _ & _ & Hts3 & Hcb3 & _ & Hkeep).
    assert (Hpe2 : pending u2 e) by (apply (Hold e), Hpe).
    split; [exact Hw3|].
    destruct (decide (q = e)) as [->|Hne].
    - assert (id1 = id) by congruence. subst id1.
      rewrite Hid in E2. cbn [perform_all perform] in E2.
      destruct (Add (set_timestamp_now u t) 0 (Client id)) as [[u2' ev]|] eqn:EA;
        [|discriminate].
      cbn [mbind Result_bind] in E2. injection E2 as ->.
      destruct (Add_wf _ _ _ _ _ Hw1 EA) as [_ []].
      exists ev. split; [|split].
      + apply Hkeep; [exact Hpe2|apply add_pending0; right; reflexivity|].
        intros ->. apply add_fresh0. exact Hpe.
      + rewrite Hcb3. exact add_cb0.
      + rewrite Hts3, add_ts0.
        change (timestamp_now (set_timestamp_now u t)) with t.
        rewrite wrap64_small by lia. lia.
    - destruct (Hold q Hq) as (K1 & K2 & K3).
      change (ts_of (set_timestamp_now u t) q) with (ts_of u q) in K2.
      change (cb_of (set_timestamp_now u t) q) with (cb_of u q) in K3.
      exists q. split; [apply Hkeep; assumption|].
      rewrite Hts3, Hcb3. split; congruence. }
  specialize (R R2 (fun _ _ _ _ _ _ => Logic.I) fuel (s, tr)).
  rewrite E in R. destruct R as [[Hw1 (q & Hq & _ & Htq)] Hdone].
  - split; [exact Hw|]. exists p. tauto.
  - cbn [fst] in *. apply due_false in Hdone as [Hdone|Hdone].
    + pose proof (pending_root_min s1 q (wf_inv _ Hw1) (wf_ordered _ Hw1) Hq). lia.
    + destruct Hq as [_ Hq]. lia.
Qed.

Lemma rearming_at_delay_0_never_returns_witness :
  exists s tr,
    session (periodic 0) 0 [OpAdd 4 1] = Returns (s, tr) /\
    (forall m', AddCycles (periodic 0) 50 (s, tr) 4 <> Returns m') /\
    length (invoked (AddCycles (periodic 0) 50 (s, tr) 4)) = 50.
Proof.
  eexists. eexists. split; [vm_compute; reflexivity|].
  split; [|vm_compute; reflexivity].
  match goal with |- forall _, AddCycles _ _ (?s, ?tr) _ <> _ =>
    apply (rearming_at_delay_0_never_returns (periodic 0) 50 s tr 4 1 1)
  end.
  - apply (session_attainable (periodic 0) 0 [OpAdd 4 1]);
      [repeat constructor|vm_compute; reflexivity].
  - intros id m a Hin. unfold periodic in Hin.
    destruct (id =? 1);
      [apply list_elem_of_singleton in Hin as ->|
       apply elem_of_nil in Hin; contradiction].
    exists 0%Z, 1. split; [reflexivity|]. split; [lia|]. vm_compute. reflexivity.
  - intros m. reflexivity.
  - split; vm_compute; lia.
  - reflexivity.
  - vm_compute. discriminate.
Defined.

End Callbacks.

(** * More about the accessors of the PPU *)

Module PpuMore.

Import Ppu.

#[local] Open Scope Z_scope.
#[local] Ltac Zify.zify_post_hook ::= Z.to_euclidean_division_equations.

(** The address window of a region: the mask of its accessors plus one. *)
Definition window (r : Region) : Z :=
  match r with Palette | Object => 0x400 | Video => 0x20000 end.

(** The offset into the array of a region that an address stands for. *)
Definition offset_of (r : Region) (address : Z) : Z :=
  match r with
  | Palette | Object => Z.land address 0x3FF
  | Video => vram_offset address
  end.

Lemma vram_offset_window a b :
  a mod 0x20000 = b mod 0x20000 -> vram_offset a = vram_offset b.
Proof. intros H. unfold vram_offset. rewrite !land_1FFFF, H. reflexivity. Qed.

Lemma land_3FF_window a b :
  a mod 0x400 = b mod 0x400 -> Z.land a 0x3FF = Z.land b 0x3FF.
Proof. intros H. rewrite !land_3FF. exact H. Qed.

Lemma land_3FE_window a b :
  a mod 0x400 = b mod 0x400 -> Z.land a 0x3FE = Z.land b 0x3FE.
Proof. intros H. rewrite !land_3FE. lia. Qed.

(** X12.  The accessors see an address only through the window of their
    region, 0x400 bytes for the palette and the object-attribute memory and
    0x20000 bytes for video memory: two addresses that agree modulo the
    window read the same value and are written alike, at every width. *)
Theorem accessors_wrap_addresses :
  forall r T s a b value,
    a mod window r = b mod window r ->
    Read r T s a = Read r T s b /\
    Write r T s a value = Write r T s b value.
Proof.
  intros r T s a b value H. destruct r; cbn [window] in H; cbn [Read Write].
  - unfold ReadPRAM, WritePRAM.
    rewrite (land_3FF_window a b H), (land_3FE_window a b H). split; reflexivity.
  - unfold ReadVRAM, WriteVRAM. rewrite (vram_offset_window a b H).
    split; reflexivity.
  - unfold ReadOAM, WriteOAM. rewrite (land_3FF_window a b H). split; reflexivity.
Qed.

Lemma accessors_wrap_addresses_witness :
  Read Palette U16 (cleared 0) 0x05000402 = Read Palette U16 (cleared 0) 2 /\
  Write Video U8 (cleared 4) 0x06020001 7 = Write Video U8 (cleared 4) 1 7.
Proof.
  split.
  - destruct (accessors_wrap_addresses Palette U16 (cleared 0) 0x05000402 2 0)
      as [H _]; [reflexivity|exact H].
  - destruct (accessors_wrap_addresses Video U8 (cleared 4) 0x06020001 1 7)
      as [_ H]; [reflexivity|exact H].
Defined.

(** X13.  The upper 32 KiB of the window of video memory mirror the 32 KiB
    below them for reads and writes of every width, in every mode: an
    address whose masked value is 0x18000 or more is read and written as
    the address 0x8000 lower. *)
Theorem video_memory_mirror :
  forall T s address value,
    0x18000 <= address mod 0x20000 ->
    ReadVRAM T s address = ReadVRAM T s (address - 0x8000) /\
    WriteVRAM T s address value = WriteVRAM T s (address - 0x8000) value.
Proof.
  intros T s a value H.
  pose proof (Z.mod_pos_bound a 0x20000 ltac:(lia)) as Hm.
  assert (E : vram_offset a = vram_offset (a - 0x8000)).
  { rewrite vram_offset_mirror by assumption.
    assert (Em : (a - 0x8000) mod 0x20000 = a mod 0x20000 - 0x8000) by lia.
    rewrite vram_offset_low; rewrite Em; [reflexivity|lia]. }
  unfold ReadVRAM, WriteVRAM. rewrite E. split; reflexivity.
Qed.

Lemma video_memory_mirror_witness :
  ReadVRAM U32 (cleared 0) 0x0601A004 = ReadVRAM U32 (cleared 0) 0x06012004 /\
  WriteVRAM U16 (cleared 0) 0x0601A004 9 = WriteVRAM U16 (cleared 0) 0x06012004 9.
Proof.
  split.
  - destruct (video_memory_mirror U32 (cleared 0) 0x0601A004 0) as [H _];
      [vm_compute; discriminate|exact H].
  - destruct (video_memory_mirror U16 (cleared 0) 0x0601A004 9) as [_ H];
      [vm_compute; discriminate|exact H].
Defined.

(** The array of a region. *)
Definition array_of (r : Region) (s : PPU) : list Z :=
  match r with Palette => pram s | Video => vram s | Object => oam s end.

Lemma Read_array r T s address :
  Read r T s address = read T (array_of r s) (offset_of r address).
Proof. destruct r; reflexivity. Qed.

Lemma wide_Write r T s address value s' :
  T <> U8 -> Write r T s address value = Some s' ->
  exists m,
    write T (array_of r s) (offset_of r address) value = Some m /\
    array_of r s' = m /\ mode s' = mode s /\
    forall r', r' <> r -> array_of r' s' = array_of r' s.
Proof.
  intros HT H. destruct r; cbn [Write] in H.
  - apply WritePRAM_Some in H as (m & -> & Hm). exists m.
    split; [destruct T; [congruence|exact Hm..]|]. split; [reflexivity|].
    split; [reflexivity|]. intros []; congruence || reflexivity.
  - apply WriteVRAM_Some in H as (m & -> & Hm). exists m.
    split; [destruct T; [congruence|exact Hm..]|]. split; [reflexivity|].
    split; [reflexivity|]. intros []; congruence || reflexivity.
  - apply WriteOAM_Some in H as [_ H].
    destruct T; [congruence|destruct H as (m & -> & Hm)..]; exists m;
      (split; [exact Hm|]); (split; [reflexivity|]); (split; [reflexivity|]);
      intros []; congruence || reflexivity.
Qed.

(** X14.  A 16- or 32-bit write that returns, to any of the three regions:
    a read of the same width at the same address returns the value
    (reduced to the width), the bytes of the region outside the written
    ones read as before, and the other two regions and the video mode are
    unchanged. *)
Theorem wide_write_reads_back :
  forall r T s address value s',
    T <> U8 -> Write r T s address value = Some s' ->
    Read r T s' address = Some (value mod 256 ^ Z.of_nat (size_of T)) /\
    (forall b,
       offset_of r b < offset_of r address \/
       offset_of r address + Z.of_nat (size_of T) <= offset_of r b ->
       Read r U8 s' b = Read r U8 s b) /\
    (forall r' T' b, r' <> r -> Read r' T' s' b = Read r' T' s b) /\
    mode s' = mode s.
Proof.
  intros r T s a value s' HT H.
  destruct (wide_Write r T s a value s' HT H) as (m & Hw & Hm & Hmode & Hother).
  assert (Hb : is_Some (write T (array_of r s) (offset_of r a) value))
    by (rewrite Hw; eauto).
  apply write_is_Some in Hb as [Hb1 Hb2].
  rewrite write_inside in Hw by assumption. injection Hw as Hw.
  split; [|split; [|split; [|exact Hmode]]].
  - rewrite Read_array, Hm, <- Hw.
    rewrite read_inside by (rewrite ?length_store; assumption).
    rewrite load_store by lia. reflexivity.
  - intros b Hout. rewrite !Read_array, Hm, <- Hw.
    unfold read, in_bounds. rewrite length_store.
    destruct (_ && _) eqn:Ein; [|reflexivity].
    apply andb_prop in Ein as [E1%Z.leb_le E2%Z.leb_le].
    cbn [size_of load]. rewrite store_outside by lia. reflexivity.
  - intros r' T' b Hne. rewrite !Read_array, Hother by assumption. reflexivity.
Qed.

Lemma wide_write_reads_back_witness :
  Read Video U16
    (Sync (set_vram (cleared 0)
             (store 2 (vram (cleared 0)) (Z.to_nat 0x12004) 0x1234)))
    0x0601A004 = Some (0x1234 mod 256 ^ Z.of_nat (size_of U16)).
Proof.
  destruct (wide_write_reads_back Video U16 (cleared 0) 0x0601A004 0x1234
              (Sync (set_vram (cleared 0)
                       (store 2 (vram (cleared 0)) (Z.to_nat 0x12004) 0x1234))))
    as [H _]; [discriminate| |exact H].
  cbn [Write]. unfold WriteVRAM. cbv zeta.
  replace (vram_offset 0x0601A004) with 0x12004 by (vm_compute; reflexivity).
  rewrite write_inside; [reflexivity|lia|].
  destruct (cleared_sized 0) as (_ & _ & ->). vm_compute. discriminate.
Defined.

(** The first offset of video memory that an 8-bit write does not reach:
    [mmio.dispcnt.mode >= 3 ? 0x14000 : 0x10000]. *)
Definition byte_write_limit (s : PPU) : Z :=
  if 3 <=? mode s then 0x14000 else 0x10000.

(** X15.  An 8-bit write to video memory returns, at every address.  Below
    the limit of the video mode (offset 0x14000 in the modes 3 and up,
    0x10000 in the others) the byte is stored in both bytes of the 16-bit
    word of the address, so that it reads back at the address, and no other
    byte changes; at the limit and beyond the write is dropped and video
    memory is as before. *)
Theorem video_byte_write :
  forall s address value,
    sized s -> 0 <= value < 256 ->
    exists s',
      WriteVRAM U8 s address value = Some s' /\
      (vram_offset address < byte_write_limit s ->
       let word := Z.to_nat (vram_offset address - vram_offset address mod 2) in
       ReadVRAM U8 s' address = Some value /\
       forall j, vram s' !!! j =
                 if decide (j = word \/ j = S word) then value else vram s !!! j) /\
      (byte_write_limit s <= vram_offset address -> vram s' = vram s).
Proof.
  intros s a v Hsz Hv. pose proof Hsz as (_ & _ & Hlen).
  pose proof (vram_offset_range a) as Hr.
  destruct (Z_lt_le_dec (vram_offset a) (byte_write_limit s)) as [Hlt|Hge].
  - eexists. split; [apply WriteVRAM_U8_below; assumption|].
    split; [|intros ?; lia]. intros _ word.
    assert (Hw : (word + 2 <= length (vram s))%nat)
      by (rewrite Hlen; unfold vram_size; subst word; lia).
    assert (Hj : forall j, store 2 (vram s) word (v * 0x0101) !!! j =
                 if decide (j = word \/ j = S word) then v else vram s !!! j)
      by (intros j; apply store_replicated; assumption).
    split; [|exact Hj].
    unfold ReadVRAM. cbn [vram Sync set_vram].
    rewrite read_U8 by (rewrite length_store, Hlen; unfold vram_size; lia).
    rewrite Hj. rewrite decide_True; [reflexivity|]. subst word. lia.
  - eexists. split; [apply WriteVRAM_U8_beyond; assumption|].
    split; [intros ?; lia|]. intros _. reflexivity.
Qed.

Lemma video_byte_write_witness :
  exists s',
    WriteVRAM U8 (cleared 0) 0x06010001 0xAB = Some s' /\
    (byte_write_limit (cleared 0) <= vram_offset 0x06010001 ->
     vram s' = vram (cleared 0)).
Proof.
  destruct (video_byte_write (cleared 0) 0x06010001 0xAB)
    as (s' & E & _ & H); [apply cleared_sized|lia|].
  exists s'. split; assumption.
Defined.

End PpuMore.

(** * The real-time clock *)

Module Rtc.

#[local] Open Scope Z_scope.
#[local] Ltac Zify.zify_post_hook ::= Z.to_euclidean_division_equations.

(** The conversion of an [int] to [u8]. *)
Definition to_u8 (x : Z) : Z := x mod 256.

(** The loop of [ConvertDecimalToBCD] on its three [u8] variables: [x],
    the digits still to convert, [y], the result so far, and [e], the
    weight of the next digit. *)
Equations? ConvertDecimalToBCD_loop (x y e : Z) : Z by wf (Z.to_nat x) lt :=
  ConvertDecimalToBCD_loop x y e with inspect (0 <? x) := {
    | exist _ true Hc =>
        ConvertDecimalToBCD_loop
          (to_u8 (x / 10)) (to_u8 (y + (x mod 10) * e)) (to_u8 (e * 16))
    | exist _ false _ => y }.
Proof. apply Z.ltb_lt in Hc. unfold to_u8. lia. Qed.

Definition ConvertDecimalToBCD (x : Z) : Z := ConvertDecimalToBCD_loop x 0 1.

Lemma ConvertDecimalToBCD_loop_eq x y e :
  ConvertDecimalToBCD_loop x y e =
  if 0 <? x
  then ConvertDecimalToBCD_loop
         (to_u8 (x / 10)) (to_u8 (y + (x mod 10) * e)) (to_u8 (e * 16))
  else y.
Proof.
  rewrite ConvertDecimalToBCD_loop_equation_1.
  change (0 <? x) with (proj1_sig (inspect (0 <? x))) at 2.
  destruct (inspect (0 <? x)) as [[] E]; reflexivity.
Qed.

Lemma loop_done y e : ConvertDecimalToBCD_loop 0 y e = y.
Proof. rewrite ConvertDecimalToBCD_loop_eq. reflexivity. Qed.

Lemma loop_step x y e :
  0 < x ->
  ConvertDecimalToBCD_loop x y e =
  ConvertDecimalToBCD_loop
    (to_u8 (x / 10)) (to_u8 (y + (x mod 10) * e)) (to_u8 (e * 16)).
Proof.
  intros H. rewrite ConvertDecimalToBCD_loop_eq.
  replace (0 <? x) with true by (symmetry; apply Z.ltb_lt; exact H).
  reflexivity.
Qed.

(** The result for every [u8]: the units in the low four bits, and the
    tens, without the hundreds, in the high four. *)
Lemma ConvertDecimalToBCD_digits x :
  0 <= x < 256 ->
  ConvertDecimalToBCD x = 16 * ((x / 10) mod 10) + x mod 10.
Proof.
  intros Hx. unfold ConvertDecimalToBCD.
  destruct (Z.eq_dec x 0) as [->|H0]; [apply loop_done|].
  rewrite loop_step by lia.
  replace (to_u8 (x / 10)) with (x / 10) by (unfold to_u8; lia).
  replace (to_u8 (0 + x mod 10 * 1)) with (x mod 10) by (unfold to_u8; lia).
  change (to_u8 (1 * 16)) with 16.
  destruct (Z.eq_dec (x / 10) 0) as [E1|H1].
  { rewrite E1. rewrite loop_done. change (0 mod 10) with 0. lia. }
  rewrite loop_step by lia.
  replace (to_u8 (x / 10 / 10)) with (x / 10 / 10) by (unfold to_u8; lia).
  replace (to_u8 (x mod 10 + (x / 10) mod 10 * 16))
    with (16 * ((x / 10) mod 10) + x mod 10) by (unfold to_u8; lia).
  change (to_u8 (16 * 16)) with 0.
  destruct (Z.eq_dec (x / 10 / 10) 0) as [E2|H2].
  { rewrite E2. apply loop_done. }
  rewrite loop_step by lia.
  replace (to_u8 (x / 10 / 10 / 10)) with 0 by (unfold to_u8; lia).
  rewrite loop_done. unfold to_u8. lia.
Qed.

(** X16.  For a value of at most two decimal digits
    [ConvertDecimalToBCD] returns its binary-coded decimal: the tens in
    the high four bits and the units in the low four, each at most 9; the
    value is recovered as [10 * (y / 16) + y mod 16], and different values
    have different codes. *)
Theorem ConvertDecimalToBCD_two_digits :
  forall x,
    0 <= x < 100 ->
    let y := ConvertDecimalToBCD x in
    y / 16 = x / 10 /\ y mod 16 = x mod 10 /\
    10 * (y / 16) + y mod 16 = x /\
    forall x', 0 <= x' < 100 -> ConvertDecimalToBCD x' = y -> x' = x.
Proof.
  intros x Hx y. subst y. rewrite ConvertDecimalToBCD_digits by lia.
  replace ((x / 10) mod 10) with (x / 10) by lia.
  split; [lia|]. split; [lia|]. split; [lia|].
  intros x' Hx'. rewrite ConvertDecimalToBCD_digits by lia.
  replace ((x' / 10) mod 10) with (x' / 10) by lia. lia.
Qed.

Lemma ConvertDecimalToBCD_two_digits_witness :
  ConvertDecimalToBCD 59 = 0x59 /\
  ConvertDecimalToBCD 59 / 16 = 59 / 10 /\
  ConvertDecimalToBCD 59 mod 16 = 59 mod 10.
Proof.
  split; [reflexivity|].
  destruct (ConvertDecimalToBCD_two_digits 59) as (H1 & H2 & _); [lia|].
  split; assumption.
Defined.

(** X17.  The weight [e] is a [u8]: it is 1, then 16, then 0.  So for a
    value from 100 to 255 the hundreds digit is lost, and the result is the
    code of the last two digits. *)
Theorem ConvertDecimalToBCD_drops_hundreds :
  forall x,
    100 <= x < 256 ->
    ConvertDecimalToBCD x = ConvertDecimalToBCD (x mod 100) /\
    ConvertDecimalToBCD x = 16 * ((x / 10) mod 10) + x mod 10.
Proof.
  intros x Hx. rewrite !ConvertDecimalToBCD_digits by lia. split; [|reflexivity].
  lia.
Qed.

Lemma ConvertDecimalToBCD_drops_hundreds_witness :
  ConvertDecimalToBCD 123 = 0x23 /\
  ConvertDecimalToBCD 123 = ConvertDecimalToBCD (123 mod 100).
Proof.
  split; [reflexivity|].
  apply (proj1 (ConvertDecimalToBCD_drops_hundreds 123 ltac:(lia))).
Defined.

End Rtc.
